(** * ELO rating calculator of the werewolves leaderboard

    A shallow embedding of [scripts/calculate_elo.py] and the properties of
    its rating update, replay protection and leaderboard projection.

    Python's [float] is IEEE 754 binary64, which is Rocq's primitive [float];
    [+], [-], [*] and [/] are the primitive operations.  [round(x, 1)] is
    defined exactly on the binary representation.  [10 ** x] goes through the
    C library's [pow], which is specified only up to rounding: the embedding
    takes that function as a section variable, keeps what the interpreter
    itself decides around the call (the exponent zero, nan, the infinities,
    the [OverflowError]), and evaluates concrete games with a correctly
    rounded reference power.  Where a property is about the size of a
    rounding error, a binary64 number is read as the rational number it
    stands for. *)

From Stdlib Require Import ZArith Floats Sorted Permutation.
From Stdlib Require QArith Qpower Lqa.
From stdpp Require Import gmap strings list fin_maps.

(** ** Binary64 helpers *)

Module F64.

Local Open Scope Z_scope.

(** The double nearest to an integer (Python's [float(n)]). *)
Definition of_Z (n : Z) : float := SF2Prim (binary_normalize prec emax n 0 false).

(** The double nearest to [n / d] for integers [n] and [d > 0]: what a decimal
    literal such as [1015.3] denotes, as [ratio 10153 10]. *)
Definition ratio (n : Z) (d : positive) : float :=
  match n with
  | Z0 => zero
  | Zpos p => SF2Prim (SFdiv prec emax (S754_finite false p 0) (S754_finite false d 0))
  | Zneg p => SF2Prim (SFdiv prec emax (S754_finite true p 0) (S754_finite false d 0))
  end.

(** Nearest integer to [m * 2^e], ties to the even integer. *)
Definition round_half_even (m e : Z) : Z :=
  match e with
  | Zneg p =>
      let d := Z.pow_pos 2 p in
      let q := m / d in
      let r := m mod d in
      match (2 * r ?= d) with
      | Lt => q
      | Gt => q + 1
      | Eq => if Z.even q then q else q + 1
      end
  | _ => m * 2 ^ e
  end.

(** [round(x, 1)]: nan, the infinities and the zeros round to themselves; a
    finite [x] is rounded to the nearest multiple of one tenth (ties to the
    even tenth, on the exact value of [x]), the sign is kept, and the decimal
    result is read back as the nearest double. *)
Definition round1 (x : float) : float :=
  match Prim2SF x with
  | S754_finite s m e =>
      match round_half_even (10 * Zpos m) e with
      | Zpos n => ratio (if s then Zneg n else Zpos n) 10
      | _ => if s then neg_zero else zero
      end
  | _ => x
  end.

(** *** Reference power of ten

    [pow10_ref x] is [10^x] rounded to the nearest double from a 200-bit
    fixed-point approximation: [10^x = 2^k * exp (f * ln 2)] with [k + f = x *
    log2 10].  It stands for the C library's [pow (10, x)] wherever a
    concrete game is evaluated; a C library returns this double or, near a
    rounding tie, its neighbour. *)

Definition fix_bits : Z := 200.
Definition log2_10_fix : Z :=
  5338132635967291524231441839090503297995574732838179712612934.
Definition ln2_fix : Z :=
  1113844574712631719546256151097547306333272293549090750737802.

Fixpoint exp_series (fuel : nat) (n : Z) (y term acc : Z) : Z :=
  match fuel with
  | O => acc
  | S fuel' =>
      let term' := Z.shiftr (term * y) fix_bits / n in
      exp_series fuel' (n + 1) y term' (acc + term')
  end.

Definition pow10_ref (x : float) : float :=
  match Prim2SF x with
  | S754_finite s m e =>
      if 12 <? e then (if s then zero else infinity)
      else
        let sm := if s then Zneg m else Zpos m in
        let t := Z.shiftl (sm * log2_10_fix) e in
        let k := Z.shiftr t fix_bits in
        let f := t - Z.shiftl k fix_bits in
        let y := Z.shiftr (f * ln2_fix) fix_bits in
        let one_fix := Z.shiftl 1 fix_bits in
        if k <? -1200 then zero
        else if 1200 <? k then infinity
        else SF2Prim (binary_normalize prec emax
                        (exp_series 70 1 y one_fix one_fix) (k - fix_bits) false)
  | S754_zero _ => one
  | S754_infinity s => if s then zero else infinity
  | S754_nan => nan
  end.

(** *** Exact values

    The rational number a binary64 number stands for (zero for nan and the
    infinities), and what it means for two computed powers to be reciprocal,
    and for a computed sum to be one, up to rounding. *)

Import QArith.QArith QArith.Qpower.
Local Open Scope Q_scope.

(** [2^e], for an exponent of either sign. *)
Definition pow2 (e : Z) : Q := 2 ^ e.

(** The value of a number given by sign, mantissa and exponent. *)
Definition SFval (f : spec_float) : Q :=
  match f with
  | S754_finite s m e => (if s then -1 else 1) * inject_Z (Zpos m) * pow2 e
  | _ => 0
  end.

(** The value of a float. *)
Definition to_Q (x : float) : Q := SFval (Prim2SF x).

(** [x] is a positive finite number. *)
Definition is_positive (x : float) : Prop := 0 < to_Q x.

(** The product of [p] and [q] is within [2^-50] of one. *)
Definition reciprocals (p q : float) : Prop :=
  to_Q p * to_Q q - 1 <= pow2 (-50) /\ 1 - to_Q p * to_Q q <= pow2 (-50).

(** [x] is within [2^-50] (four units in the last place of [1.0]) of one. *)
Definition near_one (x : float) : Prop :=
  1 - pow2 (-50) <= to_Q x /\ to_Q x <= 1 + pow2 (-50).

End F64.

(** ** Data model *)

(** One agent's entry of [state["agents"]].  The three ratings are read with
    [.get(key, INITIAL_ELO)], so a rating may be absent; the counters are
    read and incremented in place, start at zero and never decrease. *)
Record AgentState := {
  general_elo : option float;
  werewolf_elo : option float;
  villager_elo : option float;
  games_played : nat;
  wins : nat;
  losses : nat;
  games_as_werewolf : nat;
  games_as_villager : nat;
  wins_as_werewolf : nat;
  wins_as_villager : nat
}.

(** The cumulative state of [elo_state.json].  [agents] is a Python dict:
    keys are unique and iteration follows insertion order, which the
    leaderboard's stable sort exposes, so it is an association list. *)
Record State := {
  last_updated : option string;
  agents : list (string * AgentState);
  processed_games : list string
}.

(** One entry of a game's [scores] list. *)
Record Score := {
  player_name : string;
  team : option string;
  role : option string;
  won : option bool;
  aggregate_score : option float;
  elo_delta : option float;
  elo_after : option float
}.

Record Action := { timestamp : option string }.

Record ResultBlock := {
  scores : option (list Score);
  winner : option string;
  action_log : list Action
}.

Record GameData := {
  participants : gmap string string;
  results : list ResultBlock
}.

(** One entry of an agent's game history. *)
Record HistoryEntry := {
  h_game : string;
  h_player_name : string;
  h_role : string;
  h_team : string;
  h_won : bool;
  h_elo_before : float;
  h_elo_delta : float;
  h_elo_after : float;
  h_aggregate_score : float;
  h_start_time : option string;
  h_end_time : option string
}.

Inductive EloType := GeneralElo | WerewolfElo | VillagerElo.

Definition K_FACTOR : float := F64.of_Z 32.
Definition INITIAL_ELO : float := F64.of_Z 1000.

(** *** The [agents] dict *)

Fixpoint agent_lookup (agent_id : string) (l : list (string * AgentState)) : option AgentState :=
  match l with
  | [] => None
  | (k, a) :: rest => if String.eqb k agent_id then Some a else agent_lookup agent_id rest
  end.

(** In-place update of the entry stored under [agent_id]. *)
Fixpoint agent_modify (agent_id : string) (f : AgentState -> AgentState)
    (l : list (string * AgentState)) : list (string * AgentState) :=
  match l with
  | [] => []
  | (k, a) :: rest =>
      if String.eqb k agent_id then (k, f a) :: rest
      else (k, a) :: agent_modify agent_id f rest
  end.

Definition with_agents (st : State) (l : list (string * AgentState)) : State :=
  {| last_updated := last_updated st; agents := l; processed_games := processed_games st |}.

Definition modify_agent (agent_id : string) (f : AgentState -> AgentState) (st : State) : State :=
  with_agents st (agent_modify agent_id f (agents st)).

Definition set_elo (t : EloType) (v : float) (a : AgentState) : AgentState :=
  {| general_elo := match t with GeneralElo => Some v | _ => general_elo a end;
     werewolf_elo := match t with WerewolfElo => Some v | _ => werewolf_elo a end;
     villager_elo := match t with VillagerElo => Some v | _ => villager_elo a end;
     games_played := games_played a; wins := wins a; losses := losses a;
     games_as_werewolf := games_as_werewolf a; games_as_villager := games_as_villager a;
     wins_as_werewolf := wins_as_werewolf a; wins_as_villager := wins_as_villager a |}.

Definition incr_games_played (a : AgentState) : AgentState :=
  {| general_elo := general_elo a; werewolf_elo := werewolf_elo a; villager_elo := villager_elo a;
     games_played := S (games_played a); wins := wins a; losses := losses a;
     games_as_werewolf := games_as_werewolf a; games_as_villager := games_as_villager a;
     wins_as_werewolf := wins_as_werewolf a; wins_as_villager := wins_as_villager a |}.

Definition incr_wins (a : AgentState) : AgentState :=
  {| general_elo := general_elo a; werewolf_elo := werewolf_elo a; villager_elo := villager_elo a;
     games_played := games_played a; wins := S (wins a); losses := losses a;
     games_as_werewolf := games_as_werewolf a; games_as_villager := games_as_villager a;
     wins_as_werewolf := wins_as_werewolf a; wins_as_villager := wins_as_villager a |}.

Definition incr_losses (a : AgentState) : AgentState :=
  {| general_elo := general_elo a; werewolf_elo := werewolf_elo a; villager_elo := villager_elo a;
     games_played := games_played a; wins := wins a; losses := S (losses a);
     games_as_werewolf := games_as_werewolf a; games_as_villager := games_as_villager a;
     wins_as_werewolf := wins_as_werewolf a; wins_as_villager := wins_as_villager a |}.

Definition incr_games_as_werewolf (a : AgentState) : AgentState :=
  {| general_elo := general_elo a; werewolf_elo := werewolf_elo a; villager_elo := villager_elo a;
     games_played := games_played a; wins := wins a; losses := losses a;
     games_as_werewolf := S (games_as_werewolf a); games_as_villager := games_as_villager a;
     wins_as_werewolf := wins_as_werewolf a; wins_as_villager := wins_as_villager a |}.

Definition incr_games_as_villager (a : AgentState) : AgentState :=
  {| general_elo := general_elo a; werewolf_elo := werewolf_elo a; villager_elo := villager_elo a;
     games_played := games_played a; wins := wins a; losses := losses a;
     games_as_werewolf := games_as_werewolf a; games_as_villager := S (games_as_villager a);
     wins_as_werewolf := wins_as_werewolf a; wins_as_villager := wins_as_villager a |}.

Definition incr_wins_as_werewolf (a : AgentState) : AgentState :=
  {| general_elo := general_elo a; werewolf_elo := werewolf_elo a; villager_elo := villager_elo a;
     games_played := games_played a; wins := wins a; losses := losses a;
     games_as_werewolf := games_as_werewolf a; games_as_villager := games_as_villager a;
     wins_as_werewolf := S (wins_as_werewolf a); wins_as_villager := wins_as_villager a |}.

Definition incr_wins_as_villager (a : AgentState) : AgentState :=
  {| general_elo := general_elo a; werewolf_elo := werewolf_elo a; villager_elo := villager_elo a;
     games_played := games_played a; wins := wins a; losses := losses a;
     games_as_werewolf := games_as_werewolf a; games_as_villager := games_as_villager a;
     wins_as_werewolf := wins_as_werewolf a; wins_as_villager := S (wins_as_villager a) |}.

Definition elo_field (t : EloType) (a : AgentState) : option float :=
  match t with
  | GeneralElo => general_elo a
  | WerewolfElo => werewolf_elo a
  | VillagerElo => villager_elo a
  end.

(** [get_agent_elo]: the agent's current rating, [INITIAL_ELO] when the
    agent or the rating is not there. *)
Definition get_agent_elo (st : State) (agent_id : string) (t : EloType) : float :=
  match agent_lookup agent_id (agents st) with
  | Some a => default INITIAL_ELO (elo_field t a)
  | None => INITIAL_ELO
  end.

Definition new_agent : AgentState :=
  {| general_elo := Some INITIAL_ELO; werewolf_elo := Some INITIAL_ELO;
     villager_elo := Some INITIAL_ELO;
     games_played := 0; wins := 0; losses := 0;
     games_as_werewolf := 0; games_as_villager := 0;
     wins_as_werewolf := 0; wins_as_villager := 0 |}.

(** [init_agent_state]: a new key goes to the end of the dict. *)
Definition init_agent_state (st : State) (agent_id : string) : State :=
  match agent_lookup agent_id (agents st) with
  | Some _ => st
  | None => with_agents st (agents st ++ [(agent_id, new_agent)])
  end.

(** Truth value of a string: the empty string is false. *)
Definition nonempty (s : string) : bool := negb (String.eqb s "").

(** ** Rating model *)

Section Elo.

(** The C library's [pow (10, x)], reached by [10 ** x] for a finite non-zero
    [x]. *)
Variable libm_pow10 : float -> float.

(** [10 ** x] on a float [x] (the interpreter's [float_pow] with base ten): an
    exponent equal to zero gives [1.0] without calling the library, nan and
    the infinities are answered directly, and an infinite library result for
    a finite exponent raises [OverflowError] ([None]). *)
Definition py_pow10 (x : float) : option float :=
  if (x =? 0)%float then Some one
  else if is_nan x then Some x
  else if is_infinity x then Some (if (0 <? x)%float then infinity else zero)
  else
    let r := libm_pow10 x in
    if is_infinity r then None else Some r.

(** Float division raises [ZeroDivisionError] on a zero divisor. *)
Definition py_div (a b : float) : option float :=
  if (b =? 0)%float then None else Some (a / b)%float.

Definition calculate_expected_score (player_elo opponent_elo : float) : option float :=
  p ← py_pow10 ((opponent_elo - player_elo) / F64.of_Z 400)%float;
  py_div one (one + p)%float.

Definition calculate_elo_delta (player_elo opponents_avg_elo : float) (won : bool) : option float :=
  expected ← calculate_expected_score player_elo opponents_avg_elo;
  let actual := if won then one else zero in
  Some (F64.round1 (K_FACTOR * (actual - expected))%float).

(** ** Game records *)

Definition get_participants_from_game (game_data : GameData) : gmap string string :=
  participants game_data.

(** The loop of [get_opponents_avg_elo]: [opponent_elos] is the list built so
    far. *)
Fixpoint collect_opponent_elos (st : State) (parts : gmap string string)
    (name : string) (player_team : string) (t : EloType)
    (todo : list Score) (opponent_elos : list float) : list float :=
  match todo with
  | [] => opponent_elos
  | score :: rest =>
      let other_player := player_name score in
      if String.eqb other_player name then
        collect_opponent_elos st parts name player_team t rest opponent_elos
      else
        let other_team := default "" (team score) in
        if negb (String.eqb other_team player_team) then
          let other_agent_id := default "" (parts !! other_player) in
          if nonempty other_agent_id then
            collect_opponent_elos st parts name player_team t rest
              (opponent_elos ++ [get_agent_elo st other_agent_id t])
          else collect_opponent_elos st parts name player_team t rest opponent_elos
        else collect_opponent_elos st parts name player_team t rest opponent_elos
  end.

(** [sum(l)]: left to right, from zero. *)
Definition py_sum (l : list float) : float := fold_left PrimFloat.add l zero.

Definition get_opponents_avg_elo (st : State) (parts : gmap string string)
    (name : string) (player_team : string) (scores_list : list Score) (t : EloType) : float :=
  match collect_opponent_elos st parts name player_team t scores_list [] with
  | [] => INITIAL_ELO
  | opponent_elos =>
      (py_sum opponent_elos / F64.of_Z (Z.of_nat (length opponent_elos)))%float
  end.

(** [get_game_timestamps]: the least and the greatest non-empty timestamp of
    all action logs, compared as strings. *)
Definition timestamp_step (acc : option string * option string) (action : Action)
    : option string * option string :=
  match timestamp action with
  | Some ts =>
      if nonempty ts then
        (match fst acc with
         | None => Some ts
         | Some start_ts => if String.ltb ts start_ts then Some ts else Some start_ts
         end,
         match snd acc with
         | None => Some ts
         | Some end_ts => if String.ltb end_ts ts then Some ts else Some end_ts
         end)
      else acc
  | None => acc
  end.

Definition get_game_timestamps (game_data : GameData) : option string * option string :=
  fold_left (fun acc result => fold_left timestamp_step (action_log result) acc)
    (results game_data) (None, None).

(** The first result block that has a [scores] key. *)
Fixpoint find_scores (blocks : list ResultBlock) : option (list Score) :=
  match blocks with
  | [] => None
  | result :: rest =>
      match scores result with
      | Some l => Some l
      | None => find_scores rest
      end
  end.

(** The game record after its scores list was updated in place. *)
Fixpoint replace_scores (blocks : list ResultBlock) (l : list Score) : list ResultBlock :=
  match blocks with
  | [] => []
  | result :: rest =>
      match scores result with
      | Some _ =>
          {| scores := Some l; winner := winner result; action_log := action_log result |} :: rest
      | None => result :: replace_scores rest l
      end
  end.

(** ** Accumulator *)

(** What the loop of [process_game] carries: the state and the histories it
    mutates, the entries of the scores list already visited (with their
    stored delta updated in place), and the [modified] flag. *)
Record LoopState := {
  l_state : State;
  l_histories : gmap string (list HistoryEntry);
  l_done : list Score;
  l_modified : bool
}.

(** [stored != computed] for a stored value that may be missing. *)
Definition differs (stored : option float) (v : float) : bool :=
  match stored with
  | Some s => negb (s =? v)%float
  | None => true
  end.

Definition set_score_elo (score : Score) (delta after : float) : Score :=
  {| player_name := player_name score; team := team score; role := role score;
     won := won score; aggregate_score := aggregate_score score;
     elo_delta := Some delta; elo_after := Some after |}.

(** Lines 219-243: the agent's entry is updated field by field. *)
Definition update_agent_stats (st : State) (agent_id : string) (team_label : string)
    (is_win : bool) (new_elo opponents_avg : float) : option State :=
  let st := modify_agent agent_id (set_elo GeneralElo new_elo) st in
  let st := modify_agent agent_id incr_games_played st in
  let st := if is_win then modify_agent agent_id incr_wins st
            else modify_agent agent_id incr_losses st in
  if String.eqb team_label "werewolves" then
    let st := modify_agent agent_id incr_games_as_werewolf st in
    let st := if is_win then modify_agent agent_id incr_wins_as_werewolf st else st in
    let wolf_elo_before := get_agent_elo st agent_id WerewolfElo in
    wolf_delta ← calculate_elo_delta wolf_elo_before opponents_avg is_win;
    Some (modify_agent agent_id
            (set_elo WerewolfElo (F64.round1 (wolf_elo_before + wolf_delta)%float)) st)
  else
    let st := modify_agent agent_id incr_games_as_villager st in
    let st := if is_win then modify_agent agent_id incr_wins_as_villager st else st in
    let villager_elo_before := get_agent_elo st agent_id VillagerElo in
    villager_delta ← calculate_elo_delta villager_elo_before opponents_avg is_win;
    Some (modify_agent agent_id
            (set_elo VillagerElo (F64.round1 (villager_elo_before + villager_delta)%float)) st).

(** One iteration of the loop over [scores]; [rest] are the entries not yet
    visited, so the list the iteration sees is [l_done ls ++ score :: rest]. *)
Definition score_step (filename : string) (parts : gmap string string)
    (start_ts end_ts : option string) (rest : list Score)
    (ls : LoopState) (score : Score) : option LoopState :=
  let name := player_name score in
  let agent_id := default "" (parts !! name) in
  let is_win := default false (won score) in
  let team_label := default "" (team score) in
  let role_label := default "" (role score) in
  if negb (nonempty agent_id) then
    Some {| l_state := l_state ls; l_histories := l_histories ls;
            l_done := l_done ls ++ [score]; l_modified := l_modified ls |}
  else
    let st := init_agent_state (l_state ls) agent_id in
    let elo_before := get_agent_elo st agent_id GeneralElo in
    let opponents_avg :=
      get_opponents_avg_elo st parts name team_label (l_done ls ++ score :: rest) GeneralElo in
    delta ← calculate_elo_delta elo_before opponents_avg is_win;
    let new_elo := F64.round1 (elo_before + delta)%float in
    let changed := differs (elo_delta score) delta || differs (elo_after score) new_elo in
    let score' := if changed then set_score_elo score delta new_elo else score in
    st' ← update_agent_stats st agent_id team_label is_win new_elo opponents_avg;
    let entry :=
      {| h_game := filename; h_player_name := name; h_role := role_label;
         h_team := team_label; h_won := is_win;
         h_elo_before := elo_before; h_elo_delta := delta; h_elo_after := new_elo;
         h_aggregate_score :=
           F64.round1 (default zero (aggregate_score score) * F64.of_Z 100)%float;
         h_start_time := start_ts; h_end_time := end_ts |} in
    Some {| l_state := st';
            l_histories :=
              <[agent_id := default [] (l_histories ls !! agent_id) ++ [entry]]> (l_histories ls);
            l_done := l_done ls ++ [score'];
            l_modified := l_modified ls || changed |}.

Fixpoint score_loop (filename : string) (parts : gmap string string)
    (start_ts end_ts : option string) (todo : list Score) (ls : LoopState)
    : option LoopState :=
  match todo with
  | [] => Some ls
  | score :: rest =>
      ls' ← score_step filename parts start_ts end_ts rest ls score;
      score_loop filename parts start_ts end_ts rest ls'
  end.

(** What a call of [process_game] leaves behind: the state, the histories, the
    game file and the returned flag. *)
Record Outcome := {
  out_state : State;
  out_histories : gmap string (list HistoryEntry);
  out_game : GameData;
  out_modified : bool
}.

Definition skipped (st : State) (game_data : GameData)
    (hist : gmap string (list HistoryEntry)) : Outcome :=
  {| out_state := st; out_histories := hist; out_game := game_data; out_modified := false |}.

Definition mark_processed (st : State) (filename : string) : State :=
  {| last_updated := last_updated st; agents := agents st;
     processed_games := processed_games st ++ [filename] |}.

(** [process_game] on the game stored under [filename].  [None] is an
    exception leaving the call. *)
Definition process_game (st : State) (filename : string) (game_data : GameData)
    (hist : gmap string (list HistoryEntry)) : option Outcome :=
  if decide (filename ∈ processed_games st) then Some (skipped st game_data hist)
  else
    let parts := get_participants_from_game game_data in
    if negb (size parts =? 8)%nat then Some (skipped st game_data hist)
    else
      match find_scores (results game_data) with
      | None | Some [] => Some (skipped st game_data hist)
      | Some scores_list =>
          let '(start_ts, end_ts) := get_game_timestamps game_data in
          ls ← score_loop filename parts start_ts end_ts scores_list
                 {| l_state := st; l_histories := hist; l_done := []; l_modified := false |};
          Some {| out_state := mark_processed (l_state ls) filename;
                  out_histories := l_histories ls;
                  out_game :=
                    {| participants := participants game_data;
                       results := replace_scores (results game_data) (l_done ls) |};
                  out_modified := l_modified ls |}
      end.

(** The loop of [main] over the result files, in the order given. *)
Fixpoint process_result_files (st : State) (hist : gmap string (list HistoryEntry))
    (files : list (string * GameData)) : option (State * gmap string (list HistoryEntry)) :=
  match files with
  | [] => Some (st, hist)
  | (filename, game_data) :: rest =>
      if decide (filename ∈ processed_games st) then process_result_files st hist rest
      else
        o ← process_game st filename game_data hist;
        process_result_files (out_state o) (out_histories o) rest
  end.

End Elo.

(** ** Leaderboard projection *)

(** One entry of [rankings] before the rank is added. *)
Record Ranking := {
  r_agent_id : string;
  r_general_elo : float;
  r_werewolf_elo : float;
  r_villager_elo : float;
  r_games_played : nat;
  r_wins : nat;
  r_losses : nat;
  r_win_rate : float;
  r_games_as_werewolf : nat;
  r_games_as_villager : nat;
  r_wins_as_werewolf : nat;
  r_wins_as_villager : nat
}.

Record RankedEntry := { rank : nat; entry : Ranking }.

Record Leaderboard := { total_agents : nat; rankings : list RankedEntry }.

Definition float_of_nat (n : nat) : float := F64.of_Z (Z.of_nat n).

Definition win_rate_of (w played : nat) : float :=
  if (0 <? played)%nat then
    F64.round1 (float_of_nat w * F64.of_Z 100 / float_of_nat played)%float
  else zero.

Definition make_ranking (agent_id : string) (data : AgentState) : Ranking :=
  {| r_agent_id := agent_id;
     r_general_elo := default INITIAL_ELO (general_elo data);
     r_werewolf_elo := default INITIAL_ELO (werewolf_elo data);
     r_villager_elo := default INITIAL_ELO (villager_elo data);
     r_games_played := games_played data;
     r_wins := wins data;
     r_losses := losses data;
     r_win_rate := win_rate_of (wins data) (games_played data);
     r_games_as_werewolf := games_as_werewolf data;
     r_games_as_villager := games_as_villager data;
     r_wins_as_werewolf := wins_as_werewolf data;
     r_wins_as_villager := wins_as_villager data |}.

(** The loop over [state["agents"].items()]. *)
Fixpoint collect_rankings (l : list (string * AgentState)) : list Ranking :=
  match l with
  | [] => []
  | (agent_id, data) :: rest =>
      if (games_played data =? 0)%nat then collect_rankings rest
      else make_ranking agent_id data :: collect_rankings rest
  end.

(** [rankings.sort(key=general_elo, reverse=True)].  Python's sort is stable
    also when reversed; it is modelled by a stable insertion sort, which
    returns the same list as any other stable sort whenever the keys are
    totally ordered by [<] (no nan among them).  With a nan among the keys
    the comparisons order nothing and the two sorts may differ, also on the
    entries with equal keys: whatever is said below about the order of the
    result is said for keys without nan, the rest uses only that the result
    is a rearrangement of the input. *)
Fixpoint insert_desc (r : Ranking) (l : list Ranking) : list Ranking :=
  match l with
  | [] => [r]
  | y :: l' =>
      if (r_general_elo r <? r_general_elo y)%float then y :: insert_desc r l'
      else r :: y :: l'
  end.

Definition sort_by_general_elo_desc (l : list Ranking) : list Ranking :=
  foldr insert_desc [] l.

(** [for i, r in enumerate(rankings): r["rank"] = i + 1], from index [i]. *)
Fixpoint add_ranks (i : nat) (l : list Ranking) : list RankedEntry :=
  match l with
  | [] => []
  | r :: rest => {| rank := i + 1; entry := r |} :: add_ranks (S i) rest
  end.

(** The document of [generate_leaderboard_index], without its wall-clock
    [last_updated]. *)
Definition generate_leaderboard_index (st : State) : Leaderboard :=
  let sorted := sort_by_general_elo_desc (collect_rankings (agents st)) in
  {| total_agents := length sorted; rankings := add_ranks 0 sorted |}.

(** * Properties *)

(** ** Facts about binary64 *)

Lemma Prim2SF_not_nan (x : float) : is_nan x = false -> Prim2SF x <> S754_nan.
Proof.
  intros H. unfold Prim2SF. rewrite H.
  destruct (is_zero x); [discriminate|].
  destruct (is_infinity x); [discriminate|].
  destruct (Z.frexp x) as [r ex].
  destruct (shr_fexp _ _ _ _ _) as [shr e'].
  destruct (shr_m shr); discriminate.
Qed.

Lemma Prim2SF_finite (x : float) :
  is_finite x = true ->
  (exists s, Prim2SF x = S754_zero s) \/ (exists s m e, Prim2SF x = S754_finite s m e).
Proof.
  unfold is_finite. intros H.
  apply negb_true_iff, orb_false_iff in H as [Hn Hi].
  unfold Prim2SF. rewrite Hn, Hi.
  destruct (is_zero x); [left; eauto|].
  destruct (Z.frexp x) as [r ex].
  destruct (shr_fexp _ _ _ _ _) as [shr e'].
  destruct (shr_m shr); [left|right|left]; eauto.
Qed.

Lemma sub_diag_finite (x : float) : is_finite x = true -> (x - x)%float = zero.
Proof.
  intros H. apply Prim2SF_inj. rewrite sub_spec.
  destruct (Prim2SF_finite x H) as [[s ->]|(s & m & e & ->)].
  - destruct s; reflexivity.
  - unfold SF64sub, SFsub. rewrite Z.sub_diag. reflexivity.
Qed.


Ltac cmp_cases :=
  repeat match goal with
  | |- context [(?a ?= ?b)%Z] => destruct (Z.compare_spec a b)
  | H : context [(?a ?= ?b)%Z] |- _ => destruct (Z.compare_spec a b)
  | |- context [(?a ?= ?b)%positive] => destruct (Pos.compare_spec a b)
  | H : context [(?a ?= ?b)%positive] |- _ => destruct (Pos.compare_spec a b)
  end.

Lemma SFltb_asym x y : SFltb x y = true -> SFltb y x = false.
Proof.
  unfold SFltb, SFcompare.
  destruct x as [[]|[]| |[] m1 e1], y as [[]|[]| |[] m2 e2];
    try reflexivity; try discriminate;
    change (Pos.compare_cont Eq) with Pos.compare;
    cmp_cases; simpl; intros; subst; try reflexivity; try discriminate; lia.
Qed.

Lemma SFltb_ge_trans x y z :
  y <> S754_nan -> SFltb x y = false -> SFltb y z = false -> SFltb x z = false.
Proof.
  unfold SFltb, SFcompare.
  destruct x as [[]|[]| |[] m1 e1], y as [[]|[]| |[] m2 e2], z as [[]|[]| |[] m3 e3];
    try reflexivity; try discriminate; try congruence;
    change (Pos.compare_cont Eq) with Pos.compare;
    intros _; cmp_cases; simpl; intros; subst; try reflexivity; try discriminate; lia.
Qed.

Lemma ltb_asym (x y : float) : (x <? y)%float = true -> (y <? x)%float = false.
Proof. rewrite !ltb_spec. apply SFltb_asym. Qed.

Lemma ltb_ge_trans (x y z : float) :
  is_nan y = false -> (x <? y)%float = false -> (y <? z)%float = false -> (x <? z)%float = false.
Proof. rewrite !ltb_spec. intros H. apply SFltb_ge_trans, Prim2SF_not_nan, H. Qed.

(** ** Rounding of binary64 operations

    What the specification of the primitive operations gives for the sum and
    the quotient of two positive finite numbers: the result is the exact
    value rounded to nearest, so that it differs from it by at most [2^-53]
    of it (by [2^-1075] in the subnormal range). *)

Module Rounding.

Import QArith.QArith QArith.Qpower Lqa.
Import F64.
Local Open Scope Q_scope.

Lemma pow2_pos (e : Z) : 0 < pow2 e.
Proof. apply Qpower_0_lt. reflexivity. Qed.

Lemma pow2_add (a b : Z) : pow2 (a + b) == pow2 a * pow2 b.
Proof. apply Qpower_plus. discriminate. Qed.

Lemma pow2_Z (n : Z) : (0 <= n)%Z -> pow2 n == inject_Z (2 ^ n).
Proof. intros H. unfold pow2. rewrite Zpower_Qpower by exact H. reflexivity. Qed.

Lemma pow2_le (a b : Z) : (a <= b)%Z -> pow2 a <= pow2 b.
Proof. intros H. apply Qpower_le_compat_l; [exact H|]. discriminate. Qed.

(** The number [t] lies in [[m, m + 1)] at the place the location says:
    on [m], below the middle, on the middle, above the middle. *)
Definition inloc (t : Q) (m : Z) (l : location) : Prop :=
  match l with
  | loc_Exact => t == inject_Z m
  | loc_Inexact Lt => inject_Z m < t /\ t < inject_Z m + (1 # 2)
  | loc_Inexact Eq => t == inject_Z m + (1 # 2)
  | loc_Inexact Gt => inject_Z m + (1 # 2) < t /\ t < inject_Z m + 1
  end.

(** The same for a shift record, whose round and sticky bits encode the
    location. *)
Definition inrec (t : Q) (mrs : shr_record) : Prop :=
  inloc t (shr_m mrs) (loc_of_shr_record mrs).

Lemma inloc_ext (t t' : Q) (m : Z) (l : location) :
  t == t' -> inloc t m l -> inloc t' m l.
Proof. intros E. destruct l as [|[]]; simpl; lra. Qed.

Lemma inloc_record (t : Q) (m : Z) (l : location) :
  inloc t m l -> inrec t (shr_record_of_loc m l).
Proof. destruct l as [|[]]; simpl; unfold inrec; simpl; auto. Qed.

Lemma inject_Z_xO (p : positive) : inject_Z (Zpos p~0) == 2 * inject_Z (Zpos p).
Proof. rewrite Pos2Z.inj_xO, inject_Z_mult. reflexivity. Qed.

Lemma inject_Z_xI (p : positive) : inject_Z (Zpos p~1) == 2 * inject_Z (Zpos p) + 1.
Proof. rewrite Pos2Z.inj_xI, inject_Z_plus, inject_Z_mult. reflexivity. Qed.

(** Shifting by one bit halves the number and keeps track of its place. *)
Lemma shr_1_spec (t : Q) (mrs : shr_record) :
  (0 <= shr_m mrs)%Z -> inrec (2 * t) mrs ->
  inrec t (shr_1 mrs) /\ (0 <= shr_m (shr_1 mrs))%Z.
Proof.
  destruct mrs as [m r s]. unfold inrec. simpl. intros Hm.
  destruct m as [|[p|p|]|p]; try lia;
    destruct r, s; simpl; try rewrite inject_Z_xO; try rewrite inject_Z_xI;
    intros H; (split; [|lia]); try change (inject_Z 1) with 1 in *;
    try change (inject_Z 0) with 0 in *; lra.
Qed.

Lemma iter_shr_spec (n : positive) :
  forall (t : Q) (mrs : shr_record),
    (0 <= shr_m mrs)%Z -> inrec (pow2 (Zpos n) * t) mrs ->
    inrec t (SpecFloat.iter_pos shr_1 n mrs) /\ (0 <= shr_m (SpecFloat.iter_pos shr_1 n mrs))%Z.
Proof.
  induction n as [n IH|n IH|]; intros t mrs Hm H; simpl.
  - assert (E : pow2 (Zpos n~1) * t == 2 * (pow2 (Zpos n) * (pow2 (Zpos n) * t))).
    { rewrite Pos2Z.inj_xI.
      replace (2 * Z.pos n + 1)%Z with (1 + (Zpos n + Zpos n))%Z by lia.
      rewrite !pow2_add. change (pow2 1) with 2. ring. }
    unfold inrec in H. apply (inloc_ext _ _ _ _ E) in H.
    destruct (shr_1_spec _ _ Hm H) as [H1 Hm1].
    destruct (IH _ _ Hm1 H1) as [H2 Hm2].
    apply (IH _ _ Hm2 H2).
  - assert (E : pow2 (Zpos n~0) * t == pow2 (Zpos n) * (pow2 (Zpos n) * t)).
    { rewrite Pos2Z.inj_xO.
      replace (2 * Z.pos n)%Z with (Zpos n + Zpos n)%Z by lia.
      rewrite !pow2_add. ring. }
    unfold inrec in H. apply (inloc_ext _ _ _ _ E) in H.
    destruct (IH _ _ Hm H) as [H2 Hm2].
    apply (IH _ _ Hm2 H2).
  - apply shr_1_spec; [exact Hm|]. exact H.
Qed.

Lemma digits2_pos_bounds (p : positive) :
  (2 ^ (Zpos (digits2_pos p) - 1) <= Zpos p < 2 ^ Zpos (digits2_pos p))%Z.
Proof.
  induction p as [p IH|p IH|]; simpl digits2_pos.
  - rewrite Pos2Z.inj_succ, Pos2Z.inj_xI.
    replace (Z.succ (Zpos (digits2_pos p)) - 1)%Z with (Z.succ (Zpos (digits2_pos p) - 1))%Z by lia.
    rewrite !Z.pow_succ_r by lia.
    generalize dependent (2 ^ (Zpos (digits2_pos p) - 1))%Z.
    generalize (2 ^ Zpos (digits2_pos p))%Z. intros; lia.
  - rewrite Pos2Z.inj_succ.
    replace (Z.succ (Zpos (digits2_pos p)) - 1)%Z with (Z.succ (Zpos (digits2_pos p) - 1))%Z by lia.
    rewrite !Z.pow_succ_r by lia.
    generalize dependent (2 ^ (Zpos (digits2_pos p) - 1))%Z.
    generalize (2 ^ Zpos (digits2_pos p))%Z. intros; lia.
  - simpl. lia.
Qed.

Lemma Zdigits2_bounds (m : Z) :
  (0 < m)%Z -> (2 ^ (Zdigits2 m - 1) <= m < 2 ^ Zdigits2 m)%Z /\ (0 < Zdigits2 m)%Z.
Proof.
  destruct m as [|p|p]; try lia. intros _. simpl.
  split; [apply digits2_pos_bounds|lia].
Qed.

(** [fexp] of binary64. *)
Lemma fexp_eq (e : Z) : fexp prec emax e = Z.max (e - 53) (-1074).
Proof. reflexivity. Qed.

Lemma inject_Z_lt (a b : Z) : (a < b)%Z -> inject_Z a < inject_Z b.
Proof. rewrite <- Zlt_Qlt. auto. Qed.

Lemma inject_Z_le (a b : Z) : (a <= b)%Z -> inject_Z a <= inject_Z b.
Proof. rewrite <- Zle_Qle. auto. Qed.

Lemma inloc_range (t : Q) (m : Z) (l : location) :
  inloc t m l -> inject_Z m <= t /\ t < inject_Z m + 1.
Proof. destruct l as [|[]]; simpl; lra. Qed.

(** The first shift of [binary_round_aux]: the exponent becomes the one of
    the format, the mantissa is cut with its location kept. *)
Lemma shr_fexp_spec (m e : Z) (l : location) (t : Q) :
  (0 <= m)%Z ->
  (e <= fexp prec emax (Zdigits2 m + e))%Z ->
  inloc (pow2 (fexp prec emax (Zdigits2 m + e) - e) * t) m l ->
  exists mrs,
    shr_fexp prec emax m e l = (mrs, fexp prec emax (Zdigits2 m + e)) /\
    (0 <= shr_m mrs)%Z /\ inrec t mrs.
Proof.
  intros Hm Ha H. unfold shr_fexp, shr.
  set (e' := fexp prec emax (Zdigits2 m + e)) in *.
  destruct (e' - e)%Z as [|n|n] eqn:En; try lia.
  - exists (shr_record_of_loc m l). replace e' with e by lia.
    split; [reflexivity|]. split; [destruct l as [|[]]; exact Hm|].
    apply inloc_record. apply (inloc_ext (pow2 0 * t)); [|exact H].
    change (pow2 0) with 1. ring.
  - exists (SpecFloat.iter_pos shr_1 n (shr_record_of_loc m l)).
    replace (e + Zpos n)%Z with e' by lia.
    split; [reflexivity|].
    assert (Hm' : (0 <= shr_m (shr_record_of_loc m l))%Z) by (destruct l as [|[]]; exact Hm).
    destruct (iter_shr_spec n t _ Hm' (inloc_record _ _ _ H)) as [H1 H2].
    split; assumption.
Qed.

(** The size of the scaled value after the first shift. *)
Lemma shifted_size (m e : Z) (l : location) (t : Q) :
  (0 <= m)%Z ->
  (e <= fexp prec emax (Zdigits2 m + e))%Z ->
  inloc (pow2 (fexp prec emax (Zdigits2 m + e) - e) * t) m l ->
  t < pow2 53 /\
  ((-1074 < fexp prec emax (Zdigits2 m + e))%Z -> pow2 52 <= t).
Proof.
  intros Hm Ha H. apply inloc_range in H. rewrite fexp_eq in *.
  set (d := Zdigits2 m) in *.
  set (e' := Z.max (d + e - 53) (-1074)) in *.
  pose proof (pow2_pos (e' - e)) as Hpos.
  destruct (Z.eq_dec m 0) as [->|Hne].
  - change (inject_Z 0) with 0 in H. assert (d = 0%Z) by reflexivity.
    split; [|lia].
    assert (Ht : t < 1).
    { pose proof (pow2_le 0 (e' - e) ltac:(lia)) as H1. change (pow2 0) with 1 in H1.
      destruct (Qlt_le_dec t 1) as [|Hge]; [assumption|]. exfalso.
      assert (1 * 1 <= pow2 (e' - e) * t) by (apply Qmult_le_compat_nonneg; split; lra).
      lra. }
    pose proof (pow2_le 0 53 ltac:(lia)) as H1. change (pow2 0) with 1 in H1. lra.
  - destruct (Zdigits2_bounds m ltac:(lia)) as [[Hlo Hhi] Hd]. fold d in Hlo, Hhi, Hd.
    apply inject_Z_le in Hlo. apply Z.le_succ_l in Hhi. apply inject_Z_le in Hhi.
    rewrite <- pow2_Z in Hlo by lia.
    unfold Z.succ in Hhi. rewrite inject_Z_plus in Hhi. change (inject_Z 1) with 1 in Hhi.
    rewrite <- pow2_Z in Hhi by lia.
    split.
    + assert (E : pow2 d <= pow2 (e' - e) * pow2 53).
      { rewrite <- pow2_add. apply pow2_le. lia. }
      destruct (Qlt_le_dec t (pow2 53)) as [|Hge]; [assumption|]. exfalso.
      assert (pow2 (e' - e) * pow2 53 <= pow2 (e' - e) * t)
        by (apply Qmult_le_l; assumption).
      lra.
    + intros He. assert (E : pow2 (e' - e) * pow2 52 == pow2 (d - 1)).
      { rewrite <- pow2_add. replace (e' - e + 52)%Z with (d - 1)%Z by lia. reflexivity. }
      destruct (Qlt_le_dec t (pow2 52)) as [Hlt|]; [|assumption]. exfalso.
      assert (pow2 (e' - e) * t < pow2 (e' - e) * pow2 52)
        by (apply Qmult_lt_l; assumption).
      lra.
Qed.

(** The rounded mantissa is within one half of the number. *)
Lemma round_nearest_even_spec (t : Q) (mrs : shr_record) :
  inrec t mrs ->
  let z := round_nearest_even (shr_m mrs) (loc_of_shr_record mrs) in
  (shr_m mrs <= z <= shr_m mrs + 1)%Z /\
  inject_Z z - (1 # 2) <= t /\ t <= inject_Z z + (1 # 2).
Proof.
  unfold inrec. destruct (loc_of_shr_record mrs) as [|[]]; simpl; intros H.
  - split; [lia|]. lra.
  - destruct (Z.even (shr_m mrs)).
    + split; [lia|]. lra.
    + split; [lia|]. rewrite inject_Z_plus. change (inject_Z 1) with 1. lra.
  - split; [lia|]. lra.
  - split; [lia|]. rewrite inject_Z_plus. change (inject_Z 1) with 1. lra.
Qed.

(** The second shift of [binary_round_aux] renormalises a mantissa that the
    rounding carried to [2^53]; otherwise it does nothing. *)
Lemma shr_fexp_exact (z e : Z) :
  (0 <= z <= 2 ^ 53)%Z -> (-1074 <= e)%Z ->
  shr_fexp prec emax z e loc_Exact
  = if (z =? 2 ^ 53)%Z
    then ({| shr_m := 2 ^ 52; shr_r := false; shr_s := false |}, (e + 1)%Z)
    else ({| shr_m := z; shr_r := false; shr_s := false |}, e).
Proof.
  intros Hz He. destruct (z =? 2 ^ 53)%Z eqn:E.
  - apply Z.eqb_eq in E. subst z. unfold shr_fexp.
    change (Zdigits2 (2 ^ 53)) with 54%Z. rewrite fexp_eq.
    replace (Z.max (54 + e - 53) (-1074) - e)%Z with 1%Z by lia.
    reflexivity.
  - apply Z.eqb_neq in E. unfold shr_fexp. rewrite fexp_eq.
    assert (Hd : (Zdigits2 z <= 53)%Z).
    { destruct (Z.eq_dec z 0) as [->|Hne]; [simpl; lia|].
      destruct (Zdigits2_bounds z ltac:(lia)) as [[Hlo _] Hd].
      destruct (Z_le_gt_dec (Zdigits2 z) 53) as [|Hgt]; [assumption|]. exfalso.
      assert (2 ^ 53 <= 2 ^ (Zdigits2 z - 1))%Z by (apply Z.pow_le_mono_r; lia).
      lia. }
    unfold shr. destruct (Z.max (Zdigits2 z + e - 53) (-1074) - e)%Z eqn:En; try lia; reflexivity.
Qed.

(** The mantissa [z] the rounding chooses and the float built from it. *)
Definition float_of_rounded (s : bool) (z e : Z) : spec_float :=
  if (z =? 0)%Z then S754_zero s
  else if (z =? 2 ^ 53)%Z
       then if (e + 1 <=? 971)%Z then S754_finite s (Z.to_pos (2 ^ 52)) (e + 1)
            else S754_infinity s
       else if (e <=? 971)%Z then S754_finite s (Z.to_pos z) e else S754_infinity s.

(** [binary_round_aux] on a located number whose exponent is not above the
    one of the format. *)
Lemma binary_round_aux_spec (s : bool) (m e : Z) (l : location) (t : Q) :
  (0 <= m)%Z ->
  (e <= fexp prec emax (Zdigits2 m + e))%Z ->
  inloc (pow2 (fexp prec emax (Zdigits2 m + e) - e) * t) m l ->
  exists z : Z,
    (0 <= z <= 2 ^ 53)%Z /\
    inject_Z z - (1 # 2) <= t /\ t <= inject_Z z + (1 # 2) /\
    binary_round_aux prec emax s m e l
    = float_of_rounded s z (fexp prec emax (Zdigits2 m + e)).
Proof.
  intros Hm Ha H.
  destruct (shr_fexp_spec m e l t Hm Ha H) as (mrs & E1 & Hm1 & H1).
  destruct (shifted_size m e l t Hm Ha H) as [Hlt _].
  destruct (round_nearest_even_spec t mrs H1) as (Hz & Hlo & Hhi).
  set (z := round_nearest_even (shr_m mrs) (loc_of_shr_record mrs)) in *.
  assert (Hz53 : (z <= 2 ^ 53)%Z).
  { destruct (inloc_range _ _ _ H1) as [Hr _].
    assert (inject_Z (shr_m mrs) < inject_Z (2 ^ 53)).
    { rewrite <- pow2_Z by lia. lra. }
    rewrite <- Zlt_Qlt in H0. lia. }
  exists z. split; [lia|]. split; [exact Hlo|]. split; [exact Hhi|].
  unfold binary_round_aux. rewrite E1. fold z.
  rewrite shr_fexp_exact; [|lia|rewrite fexp_eq; lia].
  unfold float_of_rounded.
  destruct (z =? 2 ^ 53)%Z eqn:E53.
  - apply Z.eqb_eq in E53. rewrite E53. reflexivity.
  - simpl shr_m. destruct z as [|p|p]; try lia; reflexivity.
Qed.

(** [r] is a rounding to nearest of the positive number [T], with sign [s]:
    a finite result is within half a unit in the last place, which is at most
    [2^-53 * T], or [2^-1075] in the subnormal range; zero and infinity come
    only below and above the range of the format. *)
Definition rounded (s : bool) (T : Q) (r : spec_float) : Prop :=
  match r with
  | S754_zero s' => s' = s /\ T <= pow2 (-1075)
  | S754_infinity s' => s' = s /\ pow2 1024 - pow2 970 <= T
  | S754_finite s' m e =>
      s' = s /\
      inject_Z (Zpos m) * pow2 e - T <= pow2 (-53) * T + pow2 (-1075) /\
      T - inject_Z (Zpos m) * pow2 e <= pow2 (-53) * T + pow2 (-1075)
  | S754_nan => False
  end.

Lemma pow2_split (a b : Z) : pow2 a == pow2 (a - b) * pow2 b.
Proof. rewrite <- pow2_add. replace (a - b + b)%Z with a by lia. reflexivity. Qed.

Lemma scale_err (z t w : Q) :
  0 < w -> z - (1 # 2) <= t -> t <= z + (1 # 2) ->
  z * w - t * w <= (1 # 2) * w /\ t * w - z * w <= (1 # 2) * w.
Proof. intros. split; nra. Qed.

Lemma rounded_spec (s : bool) (m e : Z) (l : location) (t0 : Q) :
  (0 <= m)%Z ->
  (e <= fexp prec emax (Zdigits2 m + e))%Z ->
  inloc t0 m l -> 0 < t0 ->
  rounded s (t0 * pow2 e) (binary_round_aux prec emax s m e l).
Proof.
  intros Hm Ha H0 Hpos.
  set (e' := fexp prec emax (Zdigits2 m + e)) in *.
  set (t := t0 * pow2 (e - e')).
  assert (Ht0 : pow2 (e' - e) * t == t0).
  { unfold t. transitivity (t0 * (pow2 (e' - e) * pow2 (e - e'))); [ring|].
    rewrite <- pow2_add. replace (e' - e + (e - e'))%Z with 0%Z by lia.
    change (pow2 0) with 1. ring. }
  assert (HT : t0 * pow2 e == t * pow2 e').
  { unfold t. rewrite (pow2_split e e'). ring. }
  assert (H : inloc (pow2 (e' - e) * t) m l).
  { apply (inloc_ext t0); [symmetry; exact Ht0|exact H0]. }
  destruct (binary_round_aux_spec s m e l t Hm Ha H) as (z & Hz & Hlo & Hhi & ->).
  destruct (shifted_size m e l t Hm Ha H) as [Hlt Hge]. fold e' in Hge.
  assert (He' : (-1074 <= e')%Z) by (unfold e'; rewrite fexp_eq; lia).
  pose proof (pow2_pos e') as Hp.
  assert (Htpos : 0 < t).
  { unfold t. apply Qmult_lt_0_compat; [exact Hpos|apply pow2_pos]. }
  assert (H52 : pow2 52 == inject_Z (2 ^ 52)) by (apply pow2_Z; lia).
  assert (H53 : pow2 53 == inject_Z (2 ^ 53)) by (apply pow2_Z; lia).
  assert (Hu : pow2 (-53) * pow2 52 == 1 # 2) by reflexivity.
  (* the error of a finite result with mantissa [z] at exponent [e'] *)
  assert (Herr : inject_Z z * pow2 e' - t * pow2 e' <= pow2 (-53) * (t * pow2 e') + pow2 (-1075)
                 /\ t * pow2 e' - inject_Z z * pow2 e' <= pow2 (-53) * (t * pow2 e') + pow2 (-1075)).
  { pose proof (pow2_pos (-53)) as Hu0. pose proof (pow2_pos (-1075)) as He0.
    destruct (scale_err (inject_Z z) t (pow2 e') Hp Hlo Hhi) as [Ha1 Ha2].
    assert (Htw : 0 < t * pow2 e') by (apply Qmult_lt_0_compat; assumption).
    assert (Hutw : 0 < pow2 (-53) * (t * pow2 e')) by (apply Qmult_lt_0_compat; assumption).
    destruct (Z.eq_dec e' (-1074)) as [E|E].
    - assert (Hh : pow2 (-1075) == (1 # 2) * pow2 e').
      { rewrite E, (pow2_split (-1074) (-1075)). replace (-1074 - -1075)%Z with 1%Z by lia.
        change (pow2 1) with 2. field. }
      rewrite Hh. split; lra.
    - assert (Hge' : pow2 52 <= t) by (apply Hge; lia).
      assert (Hhalf : (1 # 2) * pow2 e' <= pow2 (-53) * (t * pow2 e')).
      { rewrite <- Hu.
        assert (X : pow2 (-53) * (t * pow2 e') == pow2 (-53) * t * pow2 e') by ring.
        rewrite X. apply Qmult_le_compat_r; [|lra].
        apply Qmult_le_l; assumption. }
      split; lra. }
  fold e'. unfold float_of_rounded, rounded.
  destruct (z =? 0)%Z eqn:Ez0.
  - apply Z.eqb_eq in Ez0. subst z. split; [reflexivity|]. rewrite HT.
    change (inject_Z 0) with 0 in *.
    destruct (Z.eq_dec e' (-1074)) as [E|E].
    + rewrite E.
      assert (Hh : pow2 (-1075) == (1 # 2) * pow2 (-1074)).
      { rewrite (pow2_split (-1074) (-1075)). replace (-1074 - -1075)%Z with 1%Z by lia.
        change (pow2 1) with 2. field. }
      pose proof (pow2_pos (-1074)). rewrite Hh. nra.
    + assert (pow2 52 <= t) by (apply Hge; lia).
      assert (1 <= pow2 52) by (rewrite H52; apply (inject_Z_le 1); lia).
      lra.
  - apply Z.eqb_neq in Ez0.
    destruct (z =? 2 ^ 53)%Z eqn:Ez.
    + apply Z.eqb_eq in Ez.
      destruct (e' + 1 <=? 971)%Z eqn:Ee.
      * cbv beta iota. split; [reflexivity|]. rewrite HT.
        assert (Hv : inject_Z (Zpos (Z.to_pos (2 ^ 52))) * pow2 (e' + 1) == inject_Z z * pow2 e').
        { rewrite Ez, (Z.add_comm e' 1), pow2_add. change (pow2 1) with 2.
          change (Zpos (Z.to_pos (2 ^ 52))) with (2 ^ 52)%Z.
          rewrite <- H52, <- H53, (pow2_split 53 52). change (pow2 (53 - 52)) with 2. ring. }
        rewrite Hv. exact Herr.
      * apply Z.leb_gt in Ee. cbv beta iota. split; [reflexivity|]. rewrite HT.
        rewrite Ez, <- H53 in Hlo.
        assert (Hm1 : pow2 971 <= pow2 e') by (apply pow2_le; lia).
        assert (E1 : pow2 1024 == pow2 53 * pow2 971) by (rewrite <- pow2_add; reflexivity).
        assert (E2 : pow2 970 == (1 # 2) * pow2 971).
        { rewrite (pow2_split 971 970). change (pow2 (971 - 970)) with 2. field. }
        pose proof (pow2_pos 971). pose proof (pow2_pos 53).
        assert (1 <= pow2 53) by (rewrite H53; apply (inject_Z_le 1); lia).
        rewrite E1, E2. nra.
    + apply Z.eqb_neq in Ez.
      destruct (e' <=? 971)%Z eqn:Ee.
      * cbv beta iota. split; [reflexivity|]. rewrite HT.
        rewrite Z2Pos.id by lia. exact Herr.
      * apply Z.leb_gt in Ee. cbv beta iota. split; [reflexivity|]. rewrite HT.
        assert (Hge' : pow2 52 <= t) by (apply Hge; lia).
        assert (Hm1 : pow2 972 <= pow2 e') by (apply pow2_le; lia).
        assert (E1 : pow2 1024 == pow2 52 * pow2 972) by (rewrite <- pow2_add; reflexivity).
        pose proof (pow2_pos 972). pose proof (pow2_pos 970). pose proof (pow2_pos 52).
        rewrite E1. nra.
Qed.

Lemma rounded_ext (s : bool) (T T' : Q) (r : spec_float) :
  T == T' -> rounded s T r -> rounded s T' r.
Proof. intros E. destruct r; simpl; intros H; try rewrite <- E; exact H. Qed.

(** *** Alignment *)

Lemma iter_xO_spec (m d : positive) :
  Zpos (Pos.iter xO m d) = (Zpos m * 2 ^ Zpos d)%Z /\
  digits2_pos (Pos.iter xO m d) = (digits2_pos m + d)%positive.
Proof.
  induction d as [|d [IH1 IH2]] using Pos.peano_ind.
  - simpl. split; [lia|]. rewrite Pos.add_1_r. reflexivity.
  - rewrite Pos.iter_succ. split.
    + rewrite Pos2Z.inj_succ, Z.pow_succ_r by lia.
      change (Zpos (Pos.iter xO m d)~0) with (2 * Zpos (Pos.iter xO m d))%Z.
      rewrite IH1. ring.
    + simpl. rewrite IH2, Pos.add_succ_r. reflexivity.
Qed.

Lemma shl_align_spec (mx : positive) (ex ex' : Z) :
  snd (shl_align mx ex ex') = Z.min ex ex' /\
  inject_Z (Zpos (fst (shl_align mx ex ex'))) * pow2 (Z.min ex ex')
    == inject_Z (Zpos mx) * pow2 ex /\
  (Zpos (digits2_pos (fst (shl_align mx ex ex'))) + Z.min ex ex'
   = Zpos (digits2_pos mx) + ex)%Z.
Proof.
  unfold shl_align. destruct (ex' - ex)%Z as [|d|d] eqn:E; simpl.
  - replace (Z.min ex ex') with ex by lia. repeat split; reflexivity.
  - replace (Z.min ex ex') with ex by lia. repeat split; reflexivity.
  - replace (Z.min ex ex') with ex' by lia.
    destruct (iter_xO_spec mx d) as [H1 H2]. rewrite H1, H2.
    split; [reflexivity|]. split; [|lia].
    rewrite inject_Z_mult, <- pow2_Z by lia.
    rewrite (pow2_split ex ex'). replace (ex - ex')%Z with (Zpos d) by lia. ring.
Qed.

Lemma binary_round_spec (s : bool) (mx : positive) (ex : Z) :
  rounded s (inject_Z (Zpos mx) * pow2 ex) (binary_round prec emax s mx ex).
Proof.
  unfold binary_round.
  destruct (shl_align_spec mx ex (fexp prec emax (Zpos (digits2_pos mx) + ex)))
    as (H1 & H2 & H3).
  destruct (shl_align mx ex _) as [mz ez]. simpl in H1, H2, H3. subst ez.
  apply (rounded_ext _ _ _ _ H2).
  apply rounded_spec.
  - lia.
  - simpl Zdigits2. rewrite H3. lia.
  - simpl. reflexivity.
  - apply (inject_Z_lt 0). lia.
Qed.

(** *** Addition of two positive finite numbers *)

Lemma SFadd_pos (mx : positive) (ex : Z) (my : positive) (ey : Z) :
  rounded false
    (inject_Z (Zpos mx) * pow2 ex + inject_Z (Zpos my) * pow2 ey)
    (SFadd prec emax (S754_finite false mx ex) (S754_finite false my ey)).
Proof.
  unfold SFadd, cond_Zopp.
  destruct (shl_align_spec mx ex (Z.min ex ey)) as (_ & Hx & _).
  destruct (shl_align_spec my ey (Z.min ex ey)) as (_ & Hy & _).
  replace (Z.min ex (Z.min ex ey)) with (Z.min ex ey) in Hx by lia.
  replace (Z.min ey (Z.min ex ey)) with (Z.min ex ey) in Hy by lia.
  set (a := fst (shl_align mx ex (Z.min ex ey))) in *.
  set (b := fst (shl_align my ey (Z.min ex ey))) in *.
  change (Zpos a + Zpos b)%Z with (Zpos (a + b)). unfold binary_normalize.
  eapply rounded_ext; [|apply binary_round_spec].
  rewrite <- Hx, <- Hy, Pos2Z.inj_add, inject_Z_plus. ring.
Qed.

(** *** Division of two positive finite numbers *)

(** The location [SFdiv_core_binary] computes from the remainder. *)
Lemma new_location_spec (q r d : Z) :
  (0 < d)%Z -> (0 <= r < d)%Z ->
  inloc (inject_Z (d * q + r) / inject_Z d) q (new_location d r).
Proof.
  intros Hd Hr.
  assert (HD : 0 < inject_Z d) by (apply (inject_Z_lt 0); exact Hd).
  remember (inject_Z r / inject_Z d) as f eqn:Ef.
  assert (Hf : f * inject_Z d == inject_Z r) by (rewrite Ef; field; lra).
  assert (E : inject_Z (d * q + r) / inject_Z d == inject_Z q + f).
  { rewrite Ef, inject_Z_plus, inject_Z_mult. field. lra. }
  apply (inloc_ext (inject_Z q + f)); [symmetry; exact E|].
  assert (Hr0 : 0 <= inject_Z r) by (apply (inject_Z_le 0); lia).
  assert (H2 : forall a b : Z, inject_Z (2 * a + b) == 2 * inject_Z a + inject_Z b).
  { intros a b. rewrite inject_Z_plus, inject_Z_mult. reflexivity. }
  unfold new_location.
  destruct (r =? 0)%Z eqn:E0.
  - assert (Hl : (if Z.even d then new_location_even d else new_location_odd d) r = loc_Exact).
    { unfold new_location_even, new_location_odd. destruct (Z.even d); rewrite E0; reflexivity. }
    rewrite Hl. apply Z.eqb_eq in E0. subst r. change (inject_Z 0) with 0 in Hf.
    assert (f == 0) by nra. simpl. lra.
  - pose proof E0 as E0'. apply Z.eqb_neq in E0.
    assert (Hrpos : 0 < inject_Z r) by (apply (inject_Z_lt 0); lia).
    assert (Hlt : inject_Z r < inject_Z d) by (apply inject_Z_lt; lia).
    assert (Hf0 : 0 < f) by nra.
    assert (Hf1 : f < 1) by nra.
    destruct (Z.even d) eqn:Ev.
    + unfold new_location_even. rewrite E0'.
      destruct (Z.compare_spec (2 * r) d) as [Hc|Hc|Hc]; simpl.
      * assert (Hd2 : 2 * inject_Z r == inject_Z d).
        { rewrite <- Hc, inject_Z_mult. reflexivity. }
        assert (f == 1 # 2) by (rewrite Ef, <- Hd2; field; lra). lra.
      * apply inject_Z_lt in Hc. rewrite inject_Z_mult in Hc.
        change (inject_Z 2) with 2 in Hc. split; [lra|]. nra.
      * apply inject_Z_lt in Hc. rewrite inject_Z_mult in Hc.
        change (inject_Z 2) with 2 in Hc. split; [|lra]. nra.
    + assert (Hodd : (2 * r <> d)%Z).
      { intros <-. rewrite Z.even_mul in Ev. discriminate. }
      unfold new_location_odd. rewrite E0'.
      destruct (Z.compare_spec (2 * r + 1) d) as [Hc|Hc|Hc]; simpl.
      * assert (Hc' : (2 * r < d)%Z) by lia.
        apply inject_Z_lt in Hc'. rewrite inject_Z_mult in Hc'.
        change (inject_Z 2) with 2 in Hc'. split; [lra|]. nra.
      * assert (Hc' : (2 * r < d)%Z) by lia.
        apply inject_Z_lt in Hc'. rewrite inject_Z_mult in Hc'.
        change (inject_Z 2) with 2 in Hc'. split; [lra|]. nra.
      * assert (Hc' : (d < 2 * r)%Z) by lia.
        apply inject_Z_lt in Hc'. rewrite inject_Z_mult in Hc'.
        change (inject_Z 2) with 2 in Hc'. split; [|lra]. nra.
Qed.

Lemma SFdiv_pos (mx : positive) (ex : Z) (my : positive) (ey : Z) :
  rounded false
    ((inject_Z (Zpos mx) * pow2 ex) / (inject_Z (Zpos my) * pow2 ey))
    (SFdiv prec emax (S754_finite false mx ex) (S754_finite false my ey)).
Proof.
  unfold SFdiv, SFdiv_core_binary.
  set (d1 := Zdigits2 (Zpos mx)). set (d2 := Zdigits2 (Zpos my)).
  set (e' := Z.min (fexp prec emax (d1 + ex - (d2 + ey))) (ex - ey)).
  set (sh := (ex - ey - e')%Z).
  assert (Hsh : (0 <= sh)%Z) by (unfold sh, e'; lia).
  set (m' := match sh with Zpos _ => Z.shiftl (Zpos mx) sh | Z0 => Zpos mx | Zneg _ => 0%Z end).
  assert (Hm' : m' = (Zpos mx * 2 ^ sh)%Z).
  { unfold m'. destruct sh as [|p|p] eqn:E; try lia.
    apply Z.shiftl_mul_pow2. lia. }
  pose proof (Z_div_mod m' (Zpos my) ltac:(lia)) as Hdiv.
  destruct (Z.div_eucl m' (Zpos my)) as [q r]. destruct Hdiv as [Hqr Hr].
  simpl xorb.
  assert (Hpow : (0 < 2 ^ sh)%Z) by (apply Z.pow_pos_nonneg; lia).
  assert (Hq : (0 <= q)%Z).
  { destruct (Z_lt_le_dec q 0) as [Hneg|]; [|assumption]. exfalso.
    assert (Zpos my * q <= Zpos my * (-1))%Z by (apply Z.mul_le_mono_nonneg_l; lia).
    assert (0 < m')%Z by (rewrite Hm'; lia). lia. }
  assert (HY : 0 < inject_Z (Zpos my)) by (apply (inject_Z_lt 0); lia).
  assert (HT : (inject_Z (Zpos mx) * pow2 ex) / (inject_Z (Zpos my) * pow2 ey)
               == (inject_Z m' / inject_Z (Zpos my)) * pow2 e').
  { rewrite Hm', inject_Z_mult, <- pow2_Z by exact Hsh.
    pose proof (pow2_pos ey) as Hey.
    assert (E : pow2 ex == pow2 sh * pow2 e' * pow2 ey).
    { rewrite <- !pow2_add. replace (sh + e' + ey)%Z with ex by (unfold sh; lia). reflexivity. }
    rewrite E. field. split; lra. }
  eapply rounded_ext; [symmetry; exact HT|].
  apply rounded_spec.
  - exact Hq.
  - destruct (Z_le_gt_dec e' (-1074)) as [Hlow|Hhigh]; [rewrite fexp_eq; lia|].
    assert (Hs53 : (53 - d1 + d2 <= sh)%Z).
    { unfold sh, e'. rewrite fexp_eq. unfold e' in Hhigh. rewrite fexp_eq in Hhigh. lia. }
    destruct (Zdigits2_bounds (Zpos mx) ltac:(lia)) as [[Hx1 _] Hdx]. fold d1 in Hx1, Hdx.
    destruct (Zdigits2_bounds (Zpos my) ltac:(lia)) as [[_ Hy2] Hdy]. fold d2 in Hy2, Hdy.
    assert (Hbig : (2 ^ 52 * Zpos my < m')%Z).
    { rewrite Hm'.
      assert (E : (2 ^ (d1 - 1) * 2 ^ sh = 2 ^ (d1 - 1 + sh))%Z)
        by (rewrite Z.pow_add_r by lia; reflexivity).
      assert (E2 : (2 ^ 52 * 2 ^ d2 = 2 ^ (52 + d2))%Z)
        by (rewrite Z.pow_add_r by lia; reflexivity).
      assert (2 ^ (52 + d2) <= 2 ^ (d1 - 1 + sh))%Z by (apply Z.pow_le_mono_r; lia).
      assert (2 ^ (d1 - 1) * 2 ^ sh <= Zpos mx * 2 ^ sh)%Z
        by (apply Z.mul_le_mono_nonneg_r; lia).
      assert (2 ^ 52 * Zpos my < 2 ^ 52 * 2 ^ d2)%Z by (apply Z.mul_lt_mono_pos_l; lia).
      lia. }
    assert (Hq52 : (2 ^ 52 <= q)%Z).
    { destruct (Z_le_gt_dec (2 ^ 52) q) as [|Hsmall]; [assumption|]. exfalso.
      assert (Zpos my * q <= Zpos my * (2 ^ 52 - 1))%Z by (apply Z.mul_le_mono_nonneg_l; lia).
      lia. }
    destruct (Zdigits2_bounds q ltac:(lia)) as [[_ Hq2] Hdq].
    assert (Hdq53 : (53 <= Zdigits2 q)%Z).
    { destruct (Z_le_gt_dec 53 (Zdigits2 q)) as [|Hsmall]; [assumption|]. exfalso.
      assert (2 ^ Zdigits2 q <= 2 ^ 52)%Z by (apply Z.pow_le_mono_r; lia). lia. }
    rewrite fexp_eq. lia.
  - rewrite Hqr. apply new_location_spec; lia.
  - apply Qlt_shift_div_l; [exact HY|]. rewrite Qmult_0_l. apply (inject_Z_lt 0).
    rewrite Hm'. lia.
Qed.

(** *** Values of binary64 numbers *)

Lemma SFval_pos (r : spec_float) :
  0 < SFval r -> exists m e, r = S754_finite false m e.
Proof.
  destruct r as [| | |[] m e]; simpl; intros H; try (exfalso; lra).
  - exfalso. pose proof (pow2_pos e).
    assert (0 < inject_Z (Zpos m)) by (apply (inject_Z_lt 0); lia). nra.
  - eauto.
Qed.

Lemma SFval_finite (m : positive) (e : Z) :
  SFval (S754_finite false m e) == inject_Z (Zpos m) * pow2 e.
Proof. simpl. ring. Qed.

(** A positive binary64 number lies between the least subnormal and the
    largest finite number. *)
Lemma to_Q_range (x : float) :
  0 < to_Q x -> pow2 (-1074) <= to_Q x /\ to_Q x <= pow2 1024 - pow2 971.
Proof.
  unfold to_Q. intros H. destruct (SFval_pos _ H) as (m & e & E).
  pose proof (Prim2SF_valid x) as Hv. rewrite E in *. rewrite SFval_finite. simpl in Hv.
  unfold bounded, canonical_mantissa in Hv. apply andb_prop in Hv as [Hc He].
  apply Z.eqb_eq in Hc. apply Z.leb_le in He. rewrite fexp_eq in Hc.
  change (emax - prec)%Z with 971%Z in He.
  destruct (digits2_pos_bounds m) as [Hlo Hhi].
  assert (Hm : (Zpos m < 2 ^ 53)%Z).
  { assert (2 ^ Zpos (digits2_pos m) <= 2 ^ 53)%Z by (apply Z.pow_le_mono_r; lia). lia. }
  assert (Hm1 : 1 <= inject_Z (Zpos m)) by (apply (inject_Z_le 1); lia).
  assert (Hm2 : inject_Z (Zpos m) <= pow2 53 - 1).
  { apply Qle_trans with (inject_Z (2 ^ 53 - 1)); [apply inject_Z_le; lia|].
    apply Qle_bool_iff. reflexivity. }
  pose proof (pow2_pos e) as Hp.
  pose proof (pow2_le (-1074) e ltac:(lia)) as Hp1.
  pose proof (pow2_le e 971 ltac:(lia)) as Hp2.
  assert (E1 : pow2 1024 == pow2 53 * pow2 971) by (rewrite <- pow2_add; reflexivity).
  pose proof (pow2_pos (-1074)). pose proof (pow2_pos 971).
  assert (1 <= pow2 53) by (apply (pow2_le 0 53); lia).
  split; [nra|]. rewrite E1. nra.
Qed.

Lemma to_Q_pos_nonzero (x : float) : 0 < to_Q x -> (x =? 0)%float = false.
Proof.
  unfold to_Q. intros H. destruct (SFval_pos _ H) as (m & e & E).
  rewrite FloatAxioms.eqb_spec, E. reflexivity.
Qed.

(** In the range of the format a rounding is finite and positive, and its
    error is at most [2^-53 * T + 2^-1075]. *)
Lemma rounded_range (T : Q) (r : spec_float) :
  rounded false T r -> pow2 (-1075) < T -> T < pow2 1024 - pow2 970 ->
  0 < SFval r /\
  SFval r - T <= pow2 (-53) * T + pow2 (-1075) /\
  T - SFval r <= pow2 (-53) * T + pow2 (-1075).
Proof.
  destruct r as [s|s| |s m e]; simpl; intros H Hlo Hhi.
  - lra.
  - lra.
  - contradiction.
  - destruct H as (-> & H1 & H2).
    assert (0 < inject_Z (Zpos m)) by (apply (inject_Z_lt 0); lia).
    pose proof (pow2_pos e).
    assert (0 < inject_Z (Zpos m) * pow2 e) by (apply Qmult_lt_0_compat; assumption).
    split; [lra|]. split; lra.
Qed.

Lemma add_pos (x y : float) :
  0 < to_Q x -> 0 < to_Q y -> to_Q x + to_Q y < pow2 1024 - pow2 970 ->
  0 < to_Q (x + y) /\
  to_Q (x + y) - (to_Q x + to_Q y) <= pow2 (-53) * (to_Q x + to_Q y) + pow2 (-1075) /\
  (to_Q x + to_Q y) - to_Q (x + y) <= pow2 (-53) * (to_Q x + to_Q y) + pow2 (-1075).
Proof.
  intros Hx Hy Hhi.
  destruct (to_Q_range x Hx) as [Hx1 _]. destruct (to_Q_range y Hy) as [Hy1 _].
  unfold to_Q in *. rewrite FloatAxioms.add_spec.
  destruct (SFval_pos _ Hx) as (mx & ex & Ex). destruct (SFval_pos _ Hy) as (my & ey & Ey).
  rewrite Ex, Ey in *. rewrite !SFval_finite in *.
  apply rounded_range; [apply SFadd_pos| |exact Hhi].
  assert (pow2 (-1075) <= pow2 (-1074)) by (apply pow2_le; lia).
  pose proof (pow2_pos (-1074)). lra.
Qed.

Lemma div_pos (x y : float) :
  0 < to_Q x -> 0 < to_Q y ->
  pow2 (-1075) < to_Q x / to_Q y -> to_Q x / to_Q y < pow2 1024 - pow2 970 ->
  0 < to_Q (x / y) /\
  to_Q (x / y) - to_Q x / to_Q y <= pow2 (-53) * (to_Q x / to_Q y) + pow2 (-1075) /\
  to_Q x / to_Q y - to_Q (x / y) <= pow2 (-53) * (to_Q x / to_Q y) + pow2 (-1075).
Proof.
  intros Hx Hy Hlo Hhi. unfold to_Q in *. rewrite FloatAxioms.div_spec.
  destruct (SFval_pos _ Hx) as (mx & ex & Ex). destruct (SFval_pos _ Hy) as (my & ey & Ey).
  rewrite Ex, Ey in *. rewrite !SFval_finite in *.
  apply rounded_range; [apply SFdiv_pos|exact Hlo|exact Hhi].
Qed.

(** *** The error of [1 / (1 + p) + 1 / (1 + q)] *)

(** [2^-53], the unit roundoff. *)
Definition unit_roundoff : Q := 1 # 9007199254740992.

Lemma pow2_53 : pow2 (-53) == unit_roundoff.
Proof. reflexivity. Qed.

Lemma pow2_1075_small : pow2 (-1075) <= unit_roundoff * (1 # 1000).
Proof.
  apply Qle_trans with (pow2 (-100)); [apply pow2_le; lia|].
  apply Qle_bool_iff. reflexivity.
Qed.

(** The computed reciprocal [E] of the computed sum [S] of [1] and [P],
    against the exact reciprocal [A]. *)
Lemma recip_err (eta P S I E A : Q) :
  0 <= eta -> eta <= unit_roundoff * (1 # 1000) -> 0 < P ->
  S - (1 + P) <= unit_roundoff * (1 + P) + eta ->
  (1 + P) - S <= unit_roundoff * (1 + P) + eta ->
  I * S == 1 -> A * (1 + P) == 1 ->
  E - I <= unit_roundoff * I + eta -> I - E <= unit_roundoff * I + eta ->
  E - A <= (5 # 2) * unit_roundoff * A + eta /\
  A - E <= (5 # 2) * unit_roundoff * A + eta.
Proof.
  unfold unit_roundoff. intros He0 He1 HP Hs1 Hs2 HI HA HE1 HE2.
  assert (HApos : 0 < A) by nra.
  assert (HS : 0 < S) by nra.
  assert (HIpos : 0 < I) by nra.
  assert (H1 : I * ((1 - (1 # 9007199254740992) - eta) * (1 + P)) <= A * (1 + P)).
  { rewrite HA, <- HI. apply Qmult_le_l; [exact HIpos|]. nra. }
  assert (H2 : I * (1 - (1 # 9007199254740992) - eta) <= A).
  { apply (Qmult_le_r _ _ (1 + P)); [lra|]. lra. }
  assert (H3 : A * (1 + P) <= I * ((1 + (1 # 9007199254740992) + eta) * (1 + P))).
  { rewrite HA, <- HI. apply Qmult_le_l; [exact HIpos|]. nra. }
  assert (H4 : A <= I * (1 + (1 # 9007199254740992) + eta)).
  { apply (Qmult_le_r _ _ (1 + P)); [lra|]. lra. }
  assert (H5 : I * eta <= I * ((1 # 9007199254740992) * (1 # 1000)))
    by (apply Qmult_le_l; assumption).
  assert (H6 : I <= A * (1 + (6 # 5) * (1 # 9007199254740992))) by nra.
  assert (H7 : A * (1 - (6 # 5) * (1 # 9007199254740992)) <= I) by nra.
  split; nra.
Qed.

(** The exact reciprocals of [1 + P] and [1 + Q] add up to [1] when [P * Q]
    is [1], and nearly so when [P * Q] is nearly [1]. *)
Lemma recip_sum (eps P Q A B : Q) :
  0 <= eps -> eps <= 1 # 100 -> 0 < P -> 0 < Q ->
  P * Q - 1 <= eps -> 1 - P * Q <= eps ->
  A * (1 + P) == 1 -> B * (1 + Q) == 1 ->
  0 < A /\ 0 < B /\
  A + B - 1 <= (51 # 100) * eps /\ 1 - (A + B) <= (51 # 100) * eps.
Proof.
  intros He0 He1 HP HQ H1 H2 HA HB.
  assert (HApos : 0 < A) by nra.
  assert (HBpos : 0 < B) by nra.
  assert (HAB : 0 < A * B) by (apply Qmult_lt_0_compat; assumption).
  assert (Hprod : (A * B) * ((1 + P) * (1 + Q)) == 1).
  { transitivity ((A * (1 + P)) * (B * (1 + Q))); [ring|]. rewrite HA, HB. reflexivity. }
  assert (Hid : A + B - 1 == (A * B) * (1 - P * Q)).
  { transitivity (A * (B * (1 + Q)) + B * (A * (1 + P)) - (A * B) * ((1 + P) * (1 + Q)));
      [rewrite HA, HB, Hprod; ring|ring]. }
  assert (Hbig : 2 - eps <= (1 + P) * (1 + Q)) by nra.
  assert (Hab : (A * B) * (2 - eps) <= 1).
  { rewrite <- Hprod. apply Qmult_le_l; assumption. }
  assert (Hab' : A * B <= 51 # 100) by nra.
  assert (Ha : (A * B) * (1 - P * Q) <= (A * B) * eps) by (apply Qmult_le_l; [assumption|lra]).
  assert (Hb : (A * B) * (- eps) <= (A * B) * (1 - P * Q)) by (apply Qmult_le_l; [assumption|lra]).
  assert (Hc : (A * B) * eps <= (51 # 100) * eps) by (apply Qmult_le_compat_r; assumption).
  split; [exact HApos|]. split; [exact HBpos|]. split; lra.
Qed.

Lemma to_Q_one : to_Q one == 1.
Proof. reflexivity. Qed.

Lemma pow2_50 : pow2 (-50) == 1 # 1125899906842624.
Proof. reflexivity. Qed.

Lemma range_top : 4 <= pow2 1024 - pow2 970 /\ 2 <= pow2 971 - pow2 970.
Proof.
  assert (E1 : pow2 1024 == pow2 54 * pow2 970) by (rewrite <- pow2_add; reflexivity).
  assert (E2 : pow2 971 == 2 * pow2 970).
  { rewrite (pow2_split 971 970). reflexivity. }
  assert (H : 2 <= pow2 970) by (apply (pow2_le 1 970); lia).
  assert (E3 : pow2 54 == 18014398509481984) by reflexivity.
  rewrite E1, E2, E3. split; nra.
Qed.

(** The computed [1 / (1 + p)] for a positive finite [p], against the exact
    reciprocal of [1 + p]. *)
Lemma expected_err (p : float) :
  0 < to_Q p ->
  0 < to_Q (one + p) /\ 0 < to_Q (one / (one + p)) /\
  to_Q (one / (one + p)) - / (1 + to_Q p)
    <= (5 # 2) * unit_roundoff * / (1 + to_Q p) + pow2 (-1075) /\
  / (1 + to_Q p) - to_Q (one / (one + p))
    <= (5 # 2) * unit_roundoff * / (1 + to_Q p) + pow2 (-1075).
Proof.
  intros HP.
  destruct (to_Q_range p HP) as [_ Hmax]. destruct range_top as [Htop4 Htop1].
  pose proof (pow2_pos (-1075)) as Heta. pose proof pow2_1075_small as Heta'.
  assert (H1 : 0 < to_Q one) by (rewrite to_Q_one; lra).
  destruct (add_pos one p H1 HP) as (HS & Hs1 & Hs2).
  { rewrite to_Q_one. lra. }
  rewrite to_Q_one, pow2_53 in Hs1, Hs2.
  set (S := to_Q (one + p)) in *.
  destruct (to_Q_range _ HS) as [_ HSmax]. fold S in HSmax.
  assert (HShalf : 1 # 2 <= S) by (unfold unit_roundoff in *; nra).
  assert (HI : / S * S == 1) by (field; lra).
  assert (HIpos : 0 < / S) by (apply Qinv_lt_0_compat; exact HS).
  assert (HI2 : / S <= 2).
  { apply (Qmult_le_r _ _ S); [exact HS|]. rewrite HI. lra. }
  assert (HIlow : pow2 (-1075) < / S).
  { apply (Qmult_lt_r _ _ S); [exact HS|]. rewrite HI.
    assert (E : pow2 (-1075) * pow2 1024 == pow2 (-51)) by (rewrite <- pow2_add; reflexivity).
    assert (E' : pow2 (-51) == 1 # 2251799813685248) by reflexivity.
    assert (pow2 (-1075) * S <= pow2 (-1075) * pow2 1024)
      by (apply Qmult_le_l; [exact Heta|]; pose proof (pow2_pos 971); lra).
    lra. }
  assert (Hdiv : to_Q one / S == / S) by (rewrite to_Q_one; field; lra).
  destruct (div_pos one (one + p) H1 HS) as (HE & He1 & He2).
  { fold S. rewrite Hdiv. exact HIlow. }
  { fold S. rewrite Hdiv. lra. }
  fold S in He1, He2. rewrite Hdiv, pow2_53 in He1, He2.
  split; [exact HS|]. split; [exact HE|].
  assert (HA : / (1 + to_Q p) * (1 + to_Q p) == 1) by (field; lra).
  apply (recip_err (pow2 (-1075)) (to_Q p) S (/ S)); try assumption; lra.
Qed.

(** Two positive finite numbers whose product is within [2^-50] of one: the
    computed [1 / (1 + p) + 1 / (1 + q)] is within [2^-50] of one. *)
Lemma complement_bound (p q : float) :
  is_positive p -> is_positive q -> reciprocals p q ->
  near_one (one / (one + p) + one / (one + q)).
Proof.
  unfold is_positive, reciprocals, near_one. intros HP HQ [H1 H2]. rewrite pow2_50 in *.
  destruct (expected_err p HP) as (_ & HE1 & Ha1 & Ha2).
  destruct (expected_err q HQ) as (_ & HE2 & Hb1 & Hb2).
  assert (HA : / (1 + to_Q p) * (1 + to_Q p) == 1) by (field; lra).
  assert (HB : / (1 + to_Q q) * (1 + to_Q q) == 1) by (field; lra).
  destruct (recip_sum (1 # 1125899906842624) (to_Q p) (to_Q q) _ _
              ltac:(lra) ltac:(lra) HP HQ H1 H2 HA HB) as (HApos & HBpos & Hs1 & Hs2).
  set (A := / (1 + to_Q p)) in *. set (B := / (1 + to_Q q)) in *.
  set (E1 := to_Q (one / (one + p))) in *. set (E2 := to_Q (one / (one + q))) in *.
  pose proof (pow2_pos (-1075)) as Heta. pose proof pow2_1075_small as Heta'.
  destruct range_top as [Htop4 _].
  unfold unit_roundoff in *.
  destruct (add_pos _ _ HE1 HE2) as (_ & Hr1 & Hr2).
  { fold E1 E2. lra. }
  fold E1 E2 in Hr1, Hr2. rewrite pow2_53 in Hr1, Hr2. unfold unit_roundoff in *.
  split; lra.
Qed.

(** *** Sign symmetry of subtraction and division *)

Lemma binary_round_aux_opp (s : bool) (m e : Z) (l : location) :
  binary_round_aux prec emax (negb s) m e l = SFopp (binary_round_aux prec emax s m e l).
Proof.
  unfold binary_round_aux.
  destruct (shr_fexp prec emax m e l) as [mrs e1].
  destruct (shr_fexp prec emax _ e1 loc_Exact) as [mrs' e2].
  destruct (shr_m mrs'); [reflexivity| |reflexivity].
  destruct (e2 <=? emax - prec)%Z; reflexivity.
Qed.

Lemma binary_normalize_opp (m e : Z) :
  m <> 0%Z ->
  binary_normalize prec emax (- m) e false = SFopp (binary_normalize prec emax m e false).
Proof.
  destruct m as [|p|p]; [contradiction| |]; intros _; simpl; unfold binary_round;
    destruct (shl_align p e _) as [mz ez].
  - apply (binary_round_aux_opp false).
  - apply (binary_round_aux_opp true).
Qed.

Definition is_zero_sf (r : spec_float) : bool :=
  match r with S754_zero _ => true | _ => false end.

Definition is_finite_sf (r : spec_float) : bool :=
  match r with S754_zero _ | S754_finite _ _ _ => true | _ => false end.

(** Swapping the operands of a subtraction of finite numbers negates the
    result, unless the result is a zero (which has the sign the rounding
    direction gives it, whatever the order). *)
Lemma SFsub_swap (x y : spec_float) :
  is_finite_sf x = true -> is_finite_sf y = true ->
  (is_zero_sf (SFsub prec emax x y) = true /\ is_zero_sf (SFsub prec emax y x) = true) \/
  SFsub prec emax y x = SFopp (SFsub prec emax x y).
Proof.
  destruct x as [sx| | |sx mx ex], y as [sy| | |sy my ey]; try discriminate; intros _ _.
  - left. destruct sx, sy; split; reflexivity.
  - right. simpl. rewrite Bool.negb_involutive. reflexivity.
  - right. reflexivity.
  - unfold SFsub. rewrite (Z.min_comm ey ex).
    set (a := cond_Zopp sx (Zpos (fst (shl_align mx ex (Z.min ex ey))))).
    set (b := cond_Zopp sy (Zpos (fst (shl_align my ey (Z.min ex ey))))).
    destruct (Z.eq_dec (a - b) 0) as [E|E].
    + left. replace (b - a)%Z with 0%Z by lia. rewrite E. split; reflexivity.
    + right. replace (b - a)%Z with (- (a - b))%Z by lia.
      apply binary_normalize_opp, E.
Qed.

Lemma SFdiv_opp (x : spec_float) (m : positive) (e : Z) :
  SFdiv prec emax (SFopp x) (S754_finite false m e)
  = SFopp (SFdiv prec emax x (S754_finite false m e)).
Proof.
  destruct x as [s|s| |s mx ex]; simpl; try reflexivity.
  - destruct s; reflexivity.
  - destruct s; reflexivity.
  - destruct (SFdiv_core_binary prec emax (Zpos mx) ex (Zpos m) e) as [[mz ez] lz].
    rewrite Bool.xorb_false_r. rewrite Bool.xorb_false_r. apply binary_round_aux_opp.
Qed.

Lemma SFdiv_zero (x : spec_float) (m : positive) (e : Z) :
  is_zero_sf x = true -> is_zero_sf (SFdiv prec emax x (S754_finite false m e)) = true.
Proof. destruct x; try discriminate. reflexivity. Qed.

Lemma is_finite_sf_spec (x : float) : is_finite x = true -> is_finite_sf (Prim2SF x) = true.
Proof.
  unfold is_finite. intros H. apply negb_true_iff, orb_false_iff in H as [Hn Hi].
  unfold Prim2SF. rewrite Hn, Hi.
  destruct (is_zero x); [reflexivity|].
  destruct (Z.frexp x) as [r ex].
  destruct (shr_fexp _ _ _ _ _) as [shr e'].
  destruct (shr_m shr); reflexivity.
Qed.

Lemma is_zero_sf_eqb (x : float) : is_zero_sf (Prim2SF x) = true -> (x =? 0)%float = true.
Proof.
  rewrite FloatAxioms.eqb_spec. destruct (Prim2SF x) as [[]| | |]; try discriminate; reflexivity.
Qed.

(** The exponents of the two expected scores of a pair of finite ratings
    are both zero, or each other's negation. *)
Lemma exponent_swap (a b c : float) (m : positive) (e : Z) :
  Prim2SF c = S754_finite false m e ->
  is_finite a = true -> is_finite b = true ->
  (((b - a) / c =? 0)%float = true /\ ((a - b) / c =? 0)%float = true) \/
  ((a - b) / c = - ((b - a) / c))%float.
Proof.
  intros Hc Ha Hb.
  destruct (SFsub_swap (Prim2SF b) (Prim2SF a)
              (is_finite_sf_spec b Hb) (is_finite_sf_spec a Ha)) as [[H1 H2]|H].
  - left. split; apply is_zero_sf_eqb;
      rewrite FloatAxioms.div_spec, FloatAxioms.sub_spec, Hc; apply SFdiv_zero; assumption.
  - right. apply Prim2SF_inj.
    rewrite FloatAxioms.opp_spec, !FloatAxioms.div_spec, !FloatAxioms.sub_spec, Hc.
    unfold SF64div, SF64sub. rewrite H. apply SFdiv_opp.
Qed.

(** Adding a number that is not negative to one never gives zero: the
    division of [calculate_expected_score] finds a divisor. *)
Lemma one_plus_nonzero (p : float) : (p <? 0)%float = false -> (one + p =? 0)%float = false.
Proof.
  intros Hp. destruct (Prim2SF p) as [s|s| |s m e] eqn:E.
  - rewrite FloatAxioms.eqb_spec, FloatAxioms.add_spec, E. destruct s; reflexivity.
  - rewrite FloatAxioms.eqb_spec, FloatAxioms.add_spec, E. destruct s; reflexivity.
  - rewrite FloatAxioms.eqb_spec, FloatAxioms.add_spec, E. reflexivity.
  - destruct s.
    + rewrite FloatAxioms.ltb_spec, E in Hp. discriminate.
    + apply to_Q_pos_nonzero.
      assert (HP : 0 < to_Q p).
      { unfold to_Q. rewrite E, SFval_finite. apply Qmult_lt_0_compat; [|apply pow2_pos].
        apply (inject_Z_lt 0). lia. }
      apply (expected_err p HP).
Qed.

Lemma is_positive_not_negative (p : float) : is_positive p -> (p <? 0)%float = false.
Proof.
  unfold is_positive, to_Q. intros H. destruct (SFval_pos _ H) as (m & e & E).
  rewrite FloatAxioms.ltb_spec, E. reflexivity.
Qed.

End Rounding.

(** ** Rating model *)

Section EloFacts.

Variable libm_pow10 : float -> float.

Lemma py_pow10_zero : py_pow10 libm_pow10 (zero / F64.of_Z 400)%float = Some one.
Proof. reflexivity. Qed.

Lemma expected_score_equal (a : float) :
  is_finite a = true -> calculate_expected_score libm_pow10 a a = Some (F64.ratio 1 2).
Proof.
  intros Ha. unfold calculate_expected_score.
  rewrite (sub_diag_finite a Ha), py_pow10_zero. reflexivity.
Qed.


Lemma py_pow10_overflow (x : float) :
  py_pow10 libm_pow10 x = None -> is_infinity (libm_pow10 x) = true.
Proof.
  unfold py_pow10. destruct (x =? 0)%float; [discriminate|].
  destruct (is_nan x); [discriminate|]. destruct (is_infinity x); [discriminate|].
  destruct (is_infinity (libm_pow10 x)); [reflexivity|discriminate].
Qed.

Lemma expected_score_value (a b p : float) :
  py_pow10 libm_pow10 ((b - a) / F64.of_Z 400)%float = Some p ->
  (p <? 0)%float = false ->
  calculate_expected_score libm_pow10 a b = Some (one / (one + p))%float.
Proof.
  intros Hp Hn. unfold calculate_expected_score. rewrite Hp. simpl.
  unfold py_div. rewrite (Rounding.one_plus_nonzero p Hn). reflexivity.
Qed.

Lemma expected_score_zero_exponent (a b : float) :
  ((b - a) / F64.of_Z 400 =? 0)%float = true ->
  calculate_expected_score libm_pow10 a b = Some (F64.ratio 1 2).
Proof.
  intros Hx. unfold calculate_expected_score, py_pow10. rewrite Hx. reflexivity.
Qed.

(** C6, amended. [calculate_expected_score a b] is [1 / (1 + 10 ** ((b - a) /
    400))] in binary64 arithmetic: whenever the power returns a number [p]
    that is not negative, the call returns [1 / (1 + p)] (the division always
    finds a divisor), and when the power raises, which it does only when the
    C library's result is infinite, the call raises.  For a finite rating the
    expected score against itself is [0.5], and [0.5 + 0.5] is exactly [1.0].
    For two finite ratings the exponents of the two calls are both zero (and
    both scores [0.5]) or each other's negation; and whenever the two powers
    are positive finite numbers whose product is within [2^-50] of one, both
    calls return and the sum of the two expected scores is within [2^-50] of
    one. *)
Theorem expected_score_formula (a b : float) :
  is_finite a = true -> is_finite b = true ->
  let x := ((b - a) / F64.of_Z 400)%float in
  let x' := ((a - b) / F64.of_Z 400)%float in
  (forall p : float,
     py_pow10 libm_pow10 x = Some p -> (p <? 0)%float = false ->
     calculate_expected_score libm_pow10 a b = Some (one / (one + p))%float) /\
  (py_pow10 libm_pow10 x = None ->
   calculate_expected_score libm_pow10 a b = None /\
   is_infinity (libm_pow10 x) = true) /\
  calculate_expected_score libm_pow10 a a = Some (F64.ratio 1 2) /\
  (F64.ratio 1 2 + F64.ratio 1 2)%float = one /\
  (((x =? 0)%float = true /\ (x' =? 0)%float = true /\
    calculate_expected_score libm_pow10 a b = Some (F64.ratio 1 2) /\
    calculate_expected_score libm_pow10 b a = Some (F64.ratio 1 2)) \/
   x' = (- x)%float) /\
  (forall p q : float,
     py_pow10 libm_pow10 x = Some p -> py_pow10 libm_pow10 x' = Some q ->
     F64.is_positive p -> F64.is_positive q -> F64.reciprocals p q ->
     exists ea eb : float,
       calculate_expected_score libm_pow10 a b = Some ea /\
       calculate_expected_score libm_pow10 b a = Some eb /\
       F64.near_one (ea + eb)).
Proof.
  intros Ha Hb x x'. split; [|split; [|split; [|split; [|split]]]].
  - intros p Hp Hn. apply expected_score_value; assumption.
  - intros Hp. split; [|apply py_pow10_overflow, Hp].
    unfold calculate_expected_score. fold x. rewrite Hp. reflexivity.
  - apply expected_score_equal, Ha.
  - reflexivity.
  - destruct (Rounding.exponent_swap a b (F64.of_Z 400) _ _ eq_refl Ha Hb) as [[H1 H2]|H].
    + left. split; [exact H1|]. split; [exact H2|].
      split; apply expected_score_zero_exponent; assumption.
    + right. exact H.
  - intros p q Hp Hq HP HQ Hpq.
    exists (one / (one + p))%float, (one / (one + q))%float.
    split; [|split].
    + apply expected_score_value; [exact Hp|]. apply Rounding.is_positive_not_negative, HP.
    + apply expected_score_value; [exact Hq|]. apply Rounding.is_positive_not_negative, HQ.
    + apply Rounding.complement_bound; assumption.
Qed.

End EloFacts.



(** The ratings 1000 and 2200 of the counterexample below: the exponents are
    [3.0] and [-3.0], the powers [1000.0] and [0.001]. *)
Lemma expected_score_formula_witness :
  is_finite (F64.of_Z 1000) = true /\ is_finite (F64.of_Z 2200) = true /\
  F64.is_positive (F64.of_Z 1000) /\ F64.is_positive (F64.ratio 1 1000) /\
  F64.reciprocals (F64.of_Z 1000) (F64.ratio 1 1000) /\
  exists ea eb : float,
    calculate_expected_score F64.pow10_ref (F64.of_Z 1000) (F64.of_Z 2200) = Some ea /\
    calculate_expected_score F64.pow10_ref (F64.of_Z 2200) (F64.of_Z 1000) = Some eb /\
    F64.near_one (ea + eb).
Proof.
  assert (Ha : is_finite (F64.of_Z 1000) = true) by reflexivity.
  assert (Hb : is_finite (F64.of_Z 2200) = true) by reflexivity.
  assert (HP : F64.is_positive (F64.of_Z 1000)) by (vm_compute; reflexivity).
  assert (HQ : F64.is_positive (F64.ratio 1 1000)) by (vm_compute; reflexivity).
  assert (Hpq : F64.reciprocals (F64.of_Z 1000) (F64.ratio 1 1000))
    by (split; vm_compute; discriminate).
  assert (Hp : py_pow10 F64.pow10_ref ((F64.of_Z 2200 - F64.of_Z 1000) / F64.of_Z 400)%float
               = Some (F64.of_Z 1000)) by (vm_compute; reflexivity).
  assert (Hq : py_pow10 F64.pow10_ref ((F64.of_Z 1000 - F64.of_Z 2200) / F64.of_Z 400)%float
               = Some (F64.ratio 1 1000)) by (vm_compute; reflexivity).
  split; [exact Ha|]. split; [exact Hb|]. split; [exact HP|]. split; [exact HQ|].
  split; [exact Hpq|].
  exact (proj2 (proj2 (proj2 (proj2 (proj2
           (expected_score_formula F64.pow10_ref (F64.of_Z 1000) (F64.of_Z 2200) Ha Hb)))))
           (F64.of_Z 1000) (F64.ratio 1 1000) Hp Hq HP HQ Hpq).
Defined.

(** The reference power returns reciprocal numbers, in the sense of
    [F64.reciprocals], at the opposite exponents of rating gaps from one
    point up to the largest at which it does not overflow. *)
Example reference_power_reciprocals :
  Forall (fun gap =>
            F64.reciprocals (F64.pow10_ref (F64.of_Z gap / F64.of_Z 400))
                            (F64.pow10_ref (F64.of_Z (- gap) / F64.of_Z 400)))
    [1; 7; 16; 100; 400; 1200; 4000; 40000; 123301]%Z.
Proof. repeat (constructor; [split; vm_compute; discriminate|]). constructor. Qed.

(** A rating gap of 200000 points makes [10 ** 500.0] overflow: the call
    raises instead of returning a score. *)
Example expected_score_overflow :
  calculate_expected_score F64.pow10_ref (F64.of_Z 0) (F64.of_Z 200000) = None.
Proof. vm_compute. reflexivity. Qed.

(** With the reference power the largest gap of whole points at which the
    call still returns is 123301: the score of the weaker side is a subnormal
    number, the one of the stronger side is [1.0]; at 123302 the power
    [10 ** 308.255] overflows and the call for the weaker side raises. *)
Example expected_score_overflow_threshold :
  calculate_expected_score F64.pow10_ref (F64.of_Z 0) (F64.of_Z 123301)
    = Some (one / (one + F64.pow10_ref (F64.of_Z 123301 / F64.of_Z 400)))%float /\
  is_finite (F64.pow10_ref (F64.of_Z 123301 / F64.of_Z 400)) = true /\
  calculate_expected_score F64.pow10_ref (F64.of_Z 123301) (F64.of_Z 0) = Some one /\
  calculate_expected_score F64.pow10_ref (F64.of_Z 0) (F64.of_Z 123302) = None /\
  calculate_expected_score F64.pow10_ref (F64.of_Z 123302) (F64.of_Z 0) = Some one.
Proof. repeat split; vm_compute; reflexivity. Qed.

(** C6, as stated, fails in binary64: with [10 ** 3.0 = 1000.0] and
    [10 ** -3.0 = 0.001], the expected scores of the ratings 1000 and 2200 are
    [1 / 1001.0] and [1 / 1.001], whose sum is the double after [1.0]
    (1.0000000000000002). *)
Lemma expected_score_complement_counterexample :
  F64.pow10_ref (F64.of_Z 3) = F64.of_Z 1000 /\
  F64.pow10_ref (F64.of_Z (-3)) = F64.ratio 1 1000 /\
  (ea ← calculate_expected_score F64.pow10_ref (F64.of_Z 1000) (F64.of_Z 2200);
   eb ← calculate_expected_score F64.pow10_ref (F64.of_Z 2200) (F64.of_Z 1000);
   Some (ea + eb)%float) = Some (next_up one) /\
  (next_up one =? one)%float = false.
Proof. repeat split; vm_compute; reflexivity. Qed.

(** ** The agents dict *)

Lemma agent_lookup_modify (agent_id : string) (f : AgentState -> AgentState)
    (l : list (string * AgentState)) :
  agent_lookup agent_id (agent_modify agent_id f l) = f <$> agent_lookup agent_id l.
Proof.
  induction l as [|[k a] l IH]; simpl; [reflexivity|].
  destruct (String.eqb k agent_id) eqn:E; simpl; rewrite E; [reflexivity|exact IH].
Qed.

Lemma agent_modify_modify (agent_id : string) (f g : AgentState -> AgentState)
    (l : list (string * AgentState)) :
  agent_modify agent_id f (agent_modify agent_id g l) = agent_modify agent_id (f ∘ g) l.
Proof.
  induction l as [|[k a] l IH]; simpl; [reflexivity|].
  destruct (String.eqb k agent_id) eqn:E; simpl; rewrite E; [reflexivity|].
  rewrite IH. reflexivity.
Qed.

Lemma modify_agent_modify_agent (agent_id : string) (f g : AgentState -> AgentState)
    (st : State) :
  modify_agent agent_id f (modify_agent agent_id g st) = modify_agent agent_id (f ∘ g) st.
Proof. unfold modify_agent, with_agents. simpl. rewrite agent_modify_modify. reflexivity. Qed.

Lemma Forall_agent_modify (P : AgentState -> Prop) (agent_id : string)
    (f : AgentState -> AgentState) (l : list (string * AgentState)) :
  (forall a, P a -> P (f a)) ->
  Forall (fun p => P (snd p)) l -> Forall (fun p => P (snd p)) (agent_modify agent_id f l).
Proof.
  intros Hf. induction 1 as [|[k a] l Ha Hl IH]; simpl; [constructor|].
  destruct (String.eqb k agent_id); constructor; auto. apply Hf, Ha.
Qed.

Lemma get_agent_elo_modify (agent_id : string) (f : AgentState -> AgentState)
    (st : State) (a : AgentState) (t : EloType) :
  agent_lookup agent_id (agents st) = Some a ->
  get_agent_elo (modify_agent agent_id f st) agent_id t = default INITIAL_ELO (elo_field t (f a)).
Proof.
  intros H. unfold get_agent_elo, modify_agent. simpl.
  rewrite agent_lookup_modify, H. reflexivity.
Qed.

Lemma agent_lookup_app_new (agent_id : string) (l : list (string * AgentState)) (a : AgentState) :
  agent_lookup agent_id l = None -> agent_lookup agent_id (l ++ [(agent_id, a)]) = Some a.
Proof.
  induction l as [|[k b] l IH]; simpl.
  - rewrite String.eqb_refl. reflexivity.
  - destruct (String.eqb k agent_id); [discriminate|exact IH].
Qed.

(** After [init_agent_state] the agent is there: with its old entry, or with
    the fresh one. *)
Lemma agent_lookup_init (st : State) (agent_id : string) :
  agent_lookup agent_id (agents (init_agent_state st agent_id))
    = Some (default new_agent (agent_lookup agent_id (agents st))).
Proof.
  unfold init_agent_state.
  destruct (agent_lookup agent_id (agents st)) eqn:E; simpl; [exact E|].
  apply agent_lookup_app_new, E.
Qed.

Lemma processed_games_init (st : State) (agent_id : string) :
  processed_games (init_agent_state st agent_id) = processed_games st.
Proof. unfold init_agent_state. destruct (agent_lookup _ _); reflexivity. Qed.

(** ** Accumulator *)

(** The counters of an agent agree with each other. *)
Definition counters_ok (a : AgentState) : Prop :=
  games_played a = (wins a + losses a)%nat /\
  games_played a = (games_as_werewolf a + games_as_villager a)%nat.

Definition state_counters_ok (st : State) : Prop :=
  Forall (fun p => counters_ok (snd p)) (agents st).

(** What lines 219-243 do to the agent's entry, as one function: the general
    rating, the game and win/loss counters, and the counters of one role. *)
Definition count_game (team_label : string) (is_win : bool) (new_elo : float)
    (a : AgentState) : AgentState :=
  let a := set_elo GeneralElo new_elo a in
  let a := incr_games_played a in
  let a := if is_win then incr_wins a else incr_losses a in
  if String.eqb team_label "werewolves" then
    let a := incr_games_as_werewolf a in
    if is_win then incr_wins_as_werewolf a else a
  else
    let a := incr_games_as_villager a in
    if is_win then incr_wins_as_villager a else a.

Definition role_elo (team_label : string) : EloType :=
  if String.eqb team_label "werewolves" then WerewolfElo else VillagerElo.

Lemma option_bind_ext_fun_eq {A B : Type} (x y : option A) (f g : A -> option B) :
  x = y -> (forall v, f v = g v) -> x ≫= f = y ≫= g.
Proof. intros -> H. destruct y; simpl; [apply H|reflexivity]. Qed.

Section AccumulatorFacts.

Variable libm_pow10 : float -> float.

Lemma update_agent_stats_eq (st : State) (agent_id team_label : string) (is_win : bool)
    (new_elo opponents_avg : float) :
  update_agent_stats libm_pow10 st agent_id team_label is_win new_elo opponents_avg =
    (let before :=
       get_agent_elo (modify_agent agent_id (count_game team_label is_win new_elo) st)
         agent_id (role_elo team_label) in
     role_delta ← calculate_elo_delta libm_pow10 before opponents_avg is_win;
     Some (modify_agent agent_id
             (set_elo (role_elo team_label) (F64.round1 (before + role_delta)%float)
                ∘ count_game team_label is_win new_elo) st)).
Proof.
  unfold update_agent_stats, count_game, role_elo.
  destruct is_win, (String.eqb team_label "werewolves");
    rewrite ?modify_agent_modify_agent; cbv zeta;
    (apply option_bind_ext_fun_eq; [reflexivity|]);
    intros role_delta; rewrite ?modify_agent_modify_agent; reflexivity.
Qed.

Lemma count_game_counters_ok (team_label : string) (is_win : bool) (new_elo role_val : float)
    (a : AgentState) :
  counters_ok a ->
  counters_ok (set_elo (role_elo team_label) role_val (count_game team_label is_win new_elo a)).
Proof.
  unfold counters_ok, count_game, role_elo. intros [H1 H2].
  destruct is_win, (String.eqb team_label "werewolves"); simpl; lia.
Qed.

Lemma update_agent_stats_counters_ok (st st' : State) (agent_id team_label : string)
    (is_win : bool) (new_elo opponents_avg : float) :
  update_agent_stats libm_pow10 st agent_id team_label is_win new_elo opponents_avg = Some st' ->
  state_counters_ok st -> state_counters_ok st'.
Proof.
  rewrite update_agent_stats_eq. cbv zeta.
  destruct (calculate_elo_delta _ _ _ _) as [d|]; simpl; [|discriminate].
  intros [= <-] H. unfold state_counters_ok, modify_agent. simpl.
  apply Forall_agent_modify; [|exact H].
  intros a Ha. apply count_game_counters_ok, Ha.
Qed.

Lemma init_agent_state_counters_ok (st : State) (agent_id : string) :
  state_counters_ok st -> state_counters_ok (init_agent_state st agent_id).
Proof.
  unfold state_counters_ok, init_agent_state. intros H.
  destruct (agent_lookup agent_id (agents st)); [exact H|]. simpl.
  apply Forall_app. split; [exact H|].
  constructor; [|constructor]. split; reflexivity.
Qed.

Lemma score_step_counters_ok (filename : string) (parts : gmap string string)
    (start_ts end_ts : option string) (rest : list Score) (ls ls' : LoopState) (score : Score) :
  score_step libm_pow10 filename parts start_ts end_ts rest ls score = Some ls' ->
  state_counters_ok (l_state ls) -> state_counters_ok (l_state ls').
Proof.
  unfold score_step.
  destruct (negb (nonempty _)); [intros [= <-]; auto|].
  destruct (calculate_elo_delta _ _ _ _) as [d|]; simpl; [|discriminate].
  destruct (update_agent_stats _ _ _ _ _ _ _) as [st'|] eqn:E; simpl; [|discriminate].
  intros [= <-] H. simpl.
  eapply update_agent_stats_counters_ok; [exact E|].
  apply init_agent_state_counters_ok, H.
Qed.

Lemma score_loop_counters_ok (filename : string) (parts : gmap string string)
    (start_ts end_ts : option string) (todo : list Score) :
  forall ls ls',
    score_loop libm_pow10 filename parts start_ts end_ts todo ls = Some ls' ->
    state_counters_ok (l_state ls) -> state_counters_ok (l_state ls').
Proof.
  induction todo as [|score rest IH]; simpl; intros ls ls'.
  - intros [= <-]; auto.
  - destruct (score_step _ _ _ _ _ _ _ _) as [ls1|] eqn:E; simpl; [|discriminate].
    intros Hloop H. eapply IH; [exact Hloop|].
    eapply score_step_counters_ok; eauto.
Qed.

(** C4. If every agent of the state satisfies [games_played = wins + losses =
    games_as_werewolf + games_as_villager] before [process_game] is applied
    to a game, every agent of the resulting state satisfies it, the agents the
    game created included; a created agent starts with all counters zero. *)
Theorem process_game_counters_ok (st : State) (filename : string) (game_data : GameData)
    (hist : gmap string (list HistoryEntry)) (o : Outcome) :
  state_counters_ok st ->
  process_game libm_pow10 st filename game_data hist = Some o ->
  state_counters_ok (out_state o) /\
  counters_ok new_agent /\
  (games_played new_agent, wins new_agent, losses new_agent,
   games_as_werewolf new_agent, games_as_villager new_agent,
   wins_as_werewolf new_agent, wins_as_villager new_agent)
  = (0, 0, 0, 0, 0, 0, 0)%nat.
Proof.
  intros H Hrun. split; [|split; [split|]; reflexivity].
  revert Hrun. unfold process_game.
  destruct (decide _); [intros [= <-]; exact H|].
  destruct (negb _); [intros [= <-]; exact H|].
  destruct (find_scores _) as [[|score l]|]; try (intros [= <-]; exact H).
  destruct (get_game_timestamps game_data) as [start_ts end_ts].
  destruct (score_loop _ _ _ _ _ _ _) as [ls|] eqn:E; simpl; [|discriminate].
  intros [= <-]. simpl.
  apply score_loop_counters_ok in E; [exact E|exact H].
Qed.

End AccumulatorFacts.

(** ** Replay protection and rejection *)

(** No result block of the game has a non-empty [scores] list. *)
Definition no_scores (game_data : GameData) : Prop :=
  Forall (fun result => scores result = None \/ scores result = Some []) (results game_data).

Lemma find_scores_no_scores (blocks : list ResultBlock) :
  Forall (fun result => scores result = None \/ scores result = Some []) blocks ->
  find_scores blocks = None \/ find_scores blocks = Some [].
Proof.
  induction 1 as [|result rest [H|H] _ IH]; simpl; [left; reflexivity| |];
    rewrite H; auto.
Qed.

(** The game passes both validations of [process_game]. *)
Definition is_valid_game (game_data : GameData) : bool :=
  (size (participants game_data) =? 8)%nat
  && match find_scores (results game_data) with
     | Some (_ :: _) => true
     | _ => false
     end.

(** What one call of [process_game] appends to [processed_games]: the file
    name, when it is not there yet and the game passes the validations;
    nothing otherwise. *)
Definition marks (st : State) (filename : string) (game_data : GameData) : list string :=
  if decide (filename ∈ processed_games st) then []
  else if is_valid_game game_data then [filename] else [].

Section ReplayFacts.

Variable libm_pow10 : float -> float.

Lemma process_game_already_processed (st : State) (filename : string) (game_data : GameData)
    (hist : gmap string (list HistoryEntry)) :
  filename ∈ processed_games st ->
  process_game libm_pow10 st filename game_data hist = Some (skipped st game_data hist).
Proof. intros H. unfold process_game. rewrite decide_True by exact H. reflexivity. Qed.

Lemma process_game_rejected (st : State) (filename : string) (game_data : GameData)
    (hist : gmap string (list HistoryEntry)) :
  size (participants game_data) ≠ 8%nat \/ no_scores game_data ->
  process_game libm_pow10 st filename game_data hist = Some (skipped st game_data hist).
Proof.
  intros H. unfold process_game, get_participants_from_game.
  destruct (decide _); [reflexivity|].
  destruct (size (participants game_data) =? 8)%nat eqn:E; simpl; [|reflexivity].
  apply Nat.eqb_eq in E. destruct H as [H|H]; [contradiction|].
  destruct (find_scores_no_scores _ H) as [-> | ->]; reflexivity.
Qed.

(** C2. Applying a game whose identifier is already in [processed_games] is a
    no-op: [process_game] returns [False] and leaves the state (agents,
    counters, processed games), the histories and the game file as they were;
    the loop of [main] passes over the file. *)
Theorem process_game_replay_noop (st : State) (filename : string) (game_data : GameData)
    (hist : gmap string (list HistoryEntry)) :
  filename ∈ processed_games st ->
  process_game libm_pow10 st filename game_data hist
    = Some {| out_state := st; out_histories := hist;
              out_game := game_data; out_modified := false |} /\
  forall rest,
    process_result_files libm_pow10 st hist ((filename, game_data) :: rest)
      = process_result_files libm_pow10 st hist rest.
Proof.
  intros H. split; [apply process_game_already_processed, H|].
  intros rest. simpl. rewrite decide_True by exact H. reflexivity.
Qed.

(** C3. A game whose participant count is not 8, or none of whose result
    blocks has a non-empty [scores] list, is rejected: [process_game] returns
    [False], the state, the histories and the game file are unchanged, and the
    identifier is not added to [processed_games]; in the loop of [main] the
    run goes on from the same state, so a later run attempts the game again. *)
Theorem process_game_rejection_atomic (st : State) (filename : string) (game_data : GameData)
    (hist : gmap string (list HistoryEntry)) :
  size (participants game_data) ≠ 8%nat \/ no_scores game_data ->
  process_game libm_pow10 st filename game_data hist
    = Some {| out_state := st; out_histories := hist;
              out_game := game_data; out_modified := false |} /\
  (filename ∉ processed_games st ->
   forall o, process_game libm_pow10 st filename game_data hist = Some o ->
             filename ∉ processed_games (out_state o)) /\
  forall rest,
    process_result_files libm_pow10 st hist ((filename, game_data) :: rest)
      = process_result_files libm_pow10 st hist rest.
Proof.
  intros H. pose proof (process_game_rejected st filename game_data hist H) as E.
  split; [exact E|]. split.
  - intros Hnot o. rewrite E. intros [= <-]. exact Hnot.
  - intros rest. simpl. destruct (decide _); [reflexivity|].
    rewrite E. reflexivity.
Qed.

Lemma update_agent_stats_processed (st st' : State) (agent_id team_label : string)
    (is_win : bool) (new_elo opponents_avg : float) :
  update_agent_stats libm_pow10 st agent_id team_label is_win new_elo opponents_avg = Some st' ->
  processed_games st' = processed_games st.
Proof.
  rewrite update_agent_stats_eq. cbv zeta.
  destruct (calculate_elo_delta _ _ _ _); simpl; [|discriminate].
  intros [= <-]. reflexivity.
Qed.

Lemma score_step_processed (filename : string) (parts : gmap string string)
    (start_ts end_ts : option string) (rest : list Score) (ls ls' : LoopState) (score : Score) :
  score_step libm_pow10 filename parts start_ts end_ts rest ls score = Some ls' ->
  processed_games (l_state ls') = processed_games (l_state ls).
Proof.
  unfold score_step.
  destruct (negb (nonempty _)); [intros [= <-]; reflexivity|].
  destruct (calculate_elo_delta _ _ _ _) as [d|]; simpl; [|discriminate].
  destruct (update_agent_stats _ _ _ _ _ _ _) as [st'|] eqn:E; simpl; [|discriminate].
  intros [= <-]. simpl.
  rewrite (update_agent_stats_processed _ _ _ _ _ _ _ E). apply processed_games_init.
Qed.

Lemma score_loop_processed (filename : string) (parts : gmap string string)
    (start_ts end_ts : option string) (todo : list Score) :
  forall ls ls',
    score_loop libm_pow10 filename parts start_ts end_ts todo ls = Some ls' ->
    processed_games (l_state ls') = processed_games (l_state ls).
Proof.
  induction todo as [|score rest IH]; simpl; intros ls ls'.
  - intros [= <-]. reflexivity.
  - destruct (score_step _ _ _ _ _ _ _ _) as [ls1|] eqn:E; simpl; [|discriminate].
    intros Hloop. rewrite (IH _ _ Hloop). eapply score_step_processed, E.
Qed.

(** One application appends to [processed_games] exactly what [marks] says. *)
Lemma process_game_marks (st : State) (filename : string) (game_data : GameData)
    (hist : gmap string (list HistoryEntry)) (o : Outcome) :
  process_game libm_pow10 st filename game_data hist = Some o ->
  processed_games (out_state o) = processed_games st ++ marks st filename game_data.
Proof.
  unfold process_game, marks, is_valid_game, get_participants_from_game.
  destruct (decide _) as [|Hnot]; [intros [= <-]; simpl; rewrite app_nil_r; reflexivity|].
  destruct (size (participants game_data) =? 8)%nat; simpl;
    [|intros [= <-]; simpl; rewrite app_nil_r; reflexivity].
  destruct (find_scores _) as [[|score l]|];
    try (intros [= <-]; simpl; rewrite app_nil_r; reflexivity).
  destruct (get_game_timestamps game_data) as [start_ts end_ts].
  destruct (score_loop _ _ _ _ _ _ _) as [ls|] eqn:E; simpl; [|discriminate].
  intros [= <-]. simpl.
  rewrite (score_loop_processed _ _ _ _ _ _ _ E). reflexivity.
Qed.

Lemma marks_new (st : State) (filename : string) (game_data : GameData) (x : string) :
  x ∈ marks st filename game_data -> x = filename /\ (filename ∉ processed_games st).
Proof.
  unfold marks. destruct (decide _) as [|Hnot]; [intros H; inversion H|].
  destruct (is_valid_game game_data); [|intros H; inversion H].
  intros H. apply list_elem_of_singleton in H. auto.
Qed.

Lemma marks_NoDup (st : State) (filename : string) (game_data : GameData) :
  NoDup (marks st filename game_data).
Proof.
  unfold marks. destruct (decide _); [constructor|].
  destruct (is_valid_game game_data); [apply NoDup_singleton|constructor].
Qed.

(** A sequence of applications of [process_game], each to any game and any
    histories, leading from one state to another; the list is what the
    applications of the sequence append, one after the other: the file names
    of the games they fold. *)
Inductive applications : State -> list string -> State -> Prop :=
| applications_none (st : State) : applications st [] st
| applications_step (st : State) (filename : string) (game_data : GameData)
    (hist : gmap string (list HistoryEntry)) (o : Outcome)
    (added : list string) (st' : State) :
    process_game libm_pow10 st filename game_data hist = Some o ->
    applications (out_state o) added st' ->
    applications st (marks st filename game_data ++ added) st'.

(** C9. Over any sequence of applications the old [processed_games] stays as a
    prefix (nothing is removed) and what follows it is the list of the games
    the sequence folded, in the order of the folds; these identifiers are
    pairwise distinct and were not there before (each one enters at most
    once).  One application to a game it folds (not yet processed, passing
    the validations) appends the identifier, once, at the end; an application
    to a processed or rejected game appends nothing; and no later application
    of an identifier that is there appends anything. *)
Theorem processed_games_monotone (st st' : State) (added : list string) :
  applications st added st' ->
  processed_games st' = processed_games st ++ added /\
  NoDup added /\
  (forall x, x ∈ added -> x ∉ processed_games st) /\
  (forall filename game_data hist o,
     process_game libm_pow10 st' filename game_data hist = Some o ->
     (filename ∉ processed_games st' -> is_valid_game game_data = true ->
      processed_games (out_state o) = processed_games st' ++ [filename]) /\
     (filename ∈ processed_games st' \/ is_valid_game game_data = false ->
      processed_games (out_state o) = processed_games st') /\
     (filename ∈ processed_games (out_state o) ->
      forall game_data' hist' o',
        process_game libm_pow10 (out_state o) filename game_data' hist' = Some o' ->
        processed_games (out_state o') = processed_games (out_state o))).
Proof.
  intros Hrun.
  assert (Hseq : processed_games st' = processed_games st ++ added /\
                 NoDup added /\
                 forall x, x ∈ added -> x ∉ processed_games st).
  { induction Hrun as [st|st filename game_data hist o added st' Hstep Hrun IH].
    - rewrite app_nil_r. repeat split; [constructor|]. intros x Hx. inversion Hx.
    - destruct IH as (Heq & Hnd & Hnew).
      pose proof (process_game_marks _ _ _ _ _ Hstep) as E.
      rewrite E in Heq, Hnew. repeat split.
      + rewrite Heq, <- app_assoc. reflexivity.
      + apply NoDup_app. split; [apply marks_NoDup|]. split; [|exact Hnd].
        intros x Hx Hin. apply (Hnew _ Hin). apply elem_of_app. right. exact Hx.
      + intros x Hx. apply elem_of_app in Hx as [Hx|Hx].
        * apply marks_new in Hx as [-> Hnot]. exact Hnot.
        * intros Hin. apply (Hnew _ Hx). apply elem_of_app. left. exact Hin. }
  destruct Hseq as (Heq & Hnd & Hnew).
  split; [exact Heq|]. split; [exact Hnd|]. split; [exact Hnew|].
  intros filename game_data hist o Hstep.
  pose proof (process_game_marks _ _ _ _ _ Hstep) as E. unfold marks in E.
  split; [|split].
  - intros Hnot Hvalid. rewrite E, decide_False, Hvalid by exact Hnot. reflexivity.
  - intros [Hin|Hinv].
    + rewrite E, decide_True by exact Hin. apply app_nil_r.
    + rewrite E, Hinv. destruct (decide _); apply app_nil_r.
  - intros Hin game_data' hist' o'.
    rewrite (process_game_already_processed _ _ _ _ Hin). intros [= <-]. reflexivity.
Qed.

End ReplayFacts.

(** ** Role statistics *)

Section RoleFacts.

Variable libm_pow10 : float -> float.

(** C10. An applied entry of the scores list takes exactly one role branch.
    With [a] the agent's entry before the iteration (the fresh entry for a new
    agent) and [a'] the entry after it: when the entry's team label is exactly
    ["werewolves"], the werewolf game counter goes up by one, the werewolf win
    counter by one on a win, the werewolf rating is recomputed against the
    opponents' average, and the three villager fields are untouched; with any
    other label, a missing one included (it reads as the empty string), the
    same holds with the roles exchanged. *)
Theorem score_step_role_dichotomy (filename : string) (parts : gmap string string)
    (start_ts end_ts : option string) (rest : list Score) (ls ls' : LoopState) (score : Score) :
  let agent_id := default "" (parts !! player_name score) in
  let is_win := default false (won score) in
  let team_label := default "" (team score) in
  let a := default new_agent (agent_lookup agent_id (agents (l_state ls))) in
  let opponents_avg :=
    get_opponents_avg_elo (init_agent_state (l_state ls) agent_id) parts
      (player_name score) team_label (l_done ls ++ score :: rest) GeneralElo in
  nonempty agent_id = true ->
  score_step libm_pow10 filename parts start_ts end_ts rest ls score = Some ls' ->
  exists a',
    agent_lookup agent_id (agents (l_state ls')) = Some a' /\
    if String.eqb team_label "werewolves" then
      games_as_werewolf a' = S (games_as_werewolf a) /\
      wins_as_werewolf a' = (if is_win then S (wins_as_werewolf a) else wins_as_werewolf a) /\
      (exists d,
         calculate_elo_delta libm_pow10 (default INITIAL_ELO (werewolf_elo a))
           opponents_avg is_win = Some d /\
         werewolf_elo a' = Some (F64.round1 (default INITIAL_ELO (werewolf_elo a) + d)%float)) /\
      games_as_villager a' = games_as_villager a /\
      wins_as_villager a' = wins_as_villager a /\
      villager_elo a' = villager_elo a
    else
      games_as_villager a' = S (games_as_villager a) /\
      wins_as_villager a' = (if is_win then S (wins_as_villager a) else wins_as_villager a) /\
      (exists d,
         calculate_elo_delta libm_pow10 (default INITIAL_ELO (villager_elo a))
           opponents_avg is_win = Some d /\
         villager_elo a' = Some (F64.round1 (default INITIAL_ELO (villager_elo a) + d)%float)) /\
      games_as_werewolf a' = games_as_werewolf a /\
      wins_as_werewolf a' = wins_as_werewolf a /\
      werewolf_elo a' = werewolf_elo a.
Proof.
  intros agent_id is_win team_label a opponents_avg Hid.
  unfold score_step. fold agent_id is_win team_label. rewrite Hid. simpl negb. cbv iota.
  fold opponents_avg.
  destruct (calculate_elo_delta _ _ opponents_avg is_win) as [delta|]; simpl; [|discriminate].
  rewrite update_agent_stats_eq. cbv zeta.
  rewrite (get_agent_elo_modify _ _ _ a) by apply agent_lookup_init.
  destruct (calculate_elo_delta _ _ opponents_avg is_win) as [d|] eqn:Ed; simpl; [|discriminate].
  intros [= <-]. simpl.
  rewrite agent_lookup_modify, agent_lookup_init. fold a. simpl.
  eexists. split; [reflexivity|].
  revert Ed. unfold count_game, role_elo, compose.
  destruct (String.eqb team_label "werewolves"), is_win; simpl; intros Ed;
    repeat split; try reflexivity; (exists d; split; [exact Ed|reflexivity]).
Qed.

End RoleFacts.

(** ** Opponent averaging *)

(** The entries [get_opponents_avg_elo] counts as opponents of the player
    [name] of team [team_label]: another player name, another team label, and
    a non-empty agent identifier in the participants mapping. *)
Definition is_opponent (parts : gmap string string) (name team_label : string)
    (score : Score) : bool :=
  negb (String.eqb (player_name score) name)
  && negb (String.eqb (default "" (team score)) team_label)
  && nonempty (default "" (parts !! player_name score)).

(** The mean as the source computes it, [INITIAL_ELO] for no value. *)
Definition mean_or_initial (elos : list float) : float :=
  match elos with
  | [] => INITIAL_ELO
  | _ => (py_sum elos / F64.of_Z (Z.of_nat (length elos)))%float
  end.

Definition opponent_rating (st : State) (parts : gmap string string) (t : EloType)
    (score : Score) : float :=
  get_agent_elo st (default "" (parts !! player_name score)) t.

(** The opponents' average in the words of the specification: every other
    player of the scores list whose team label differs counts, mapped to an
    agent or not, with the rating [INITIAL_ELO] where the state has no agent. *)
Definition spec_opponents_avg (st : State) (parts : gmap string string)
    (name team_label : string) (scores_list : list Score) : float :=
  mean_or_initial
    (map (opponent_rating st parts GeneralElo)
       (List.filter
          (fun score => negb (String.eqb (player_name score) name)
                        && negb (String.eqb (default "" (team score)) team_label))
          scores_list)).

Lemma collect_opponent_elos_filter (st : State) (parts : gmap string string)
    (name team_label : string) (t : EloType) (todo : list Score) :
  forall acc,
    collect_opponent_elos st parts name team_label t todo acc
      = acc ++ map (opponent_rating st parts t)
                 (List.filter (is_opponent parts name team_label) todo).
Proof.
  induction todo as [|score rest IH]; intros acc; simpl.
  - rewrite app_nil_r. reflexivity.
  - unfold is_opponent at 1.
    destruct (String.eqb (player_name score) name); simpl; [apply IH|].
    destruct (String.eqb (default "" (team score)) team_label); simpl; [apply IH|].
    destruct (nonempty (default "" (parts !! player_name score))); simpl; [|apply IH].
    rewrite IH, <- app_assoc. reflexivity.
Qed.

(** C7, amended. The opponents' average of a player is the mean (the sum from
    left to right, divided by the count) of the current ratings of the entries
    of the scores list that have another player name, another team label
    (a missing label reads as the empty string) and a non-empty agent
    identifier in the participants mapping; it is [INITIAL_ELO = 1000.0] when
    there is no such entry, and an opponent whose agent or rating is not in
    the state counts with [INITIAL_ELO]. *)
Theorem get_opponents_avg_elo_mean (st : State) (parts : gmap string string)
    (name team_label : string) (scores_list : list Score) (t : EloType) :
  get_opponents_avg_elo st parts name team_label scores_list t
    = mean_or_initial
        (map (opponent_rating st parts t)
           (List.filter (is_opponent parts name team_label) scores_list)) /\
  mean_or_initial [] = F64.of_Z 1000 /\
  (forall agent_id,
     agent_lookup agent_id (agents st) = None ->
     get_agent_elo st agent_id t = F64.of_Z 1000).
Proof.
  split; [|split].
  - unfold get_opponents_avg_elo, mean_or_initial.
    rewrite collect_opponent_elos_filter, app_nil_l.
    destruct (map _ _); reflexivity.
  - reflexivity.
  - intros agent_id H. unfold get_agent_elo. rewrite H. reflexivity.
Qed.

(** ** Leaderboard *)

Definition played (p : string * AgentState) : bool := negb (games_played (snd p) =? 0)%nat.

Definition ranking_of (p : string * AgentState) : Ranking := make_ranking (fst p) (snd p).

(** [x] comes no later than [y] in descending order of the general rating. *)
Definition desc (x y : Ranking) : Prop := (r_general_elo x <? r_general_elo y)%float = false.

(** The general rating of [r] ties with the value [k]. *)
Definition ties_with (k : float) (r : Ranking) : bool :=
  negb (k <? r_general_elo r)%float && negb (r_general_elo r <? k)%float.

Lemma collect_rankings_filter (l : list (string * AgentState)) :
  collect_rankings l = map ranking_of (List.filter played l).
Proof.
  induction l as [|[agent_id data] l IH]; simpl; [reflexivity|].
  unfold played at 1. simpl.
  destruct (games_played data =? 0)%nat; simpl; rewrite IH; reflexivity.
Qed.

Lemma insert_desc_perm (r : Ranking) (l : list Ranking) : insert_desc r l ≡ₚ r :: l.
Proof.
  induction l as [|y l IH]; simpl; [reflexivity|].
  destruct (r_general_elo r <? r_general_elo y)%float; [|reflexivity].
  rewrite IH. apply perm_swap.
Qed.

Lemma sort_desc_perm (l : list Ranking) : sort_by_general_elo_desc l ≡ₚ l.
Proof.
  induction l as [|x l IH]; simpl; [reflexivity|].
  rewrite insert_desc_perm, IH. reflexivity.
Qed.

Lemma insert_desc_sorted (r : Ranking) (l : list Ranking) :
  Forall (fun y => is_nan (r_general_elo y) = false) l ->
  StronglySorted desc l -> StronglySorted desc (insert_desc r l).
Proof.
  intros Hnan Hs. induction Hs as [|y l Hs IH Hy]; simpl.
  - repeat constructor.
  - apply Forall_cons in Hnan as [Hny Hnl].
    destruct (r_general_elo r <? r_general_elo y)%float eqn:E.
    + constructor; [apply IH, Hnl|].
      rewrite insert_desc_perm. constructor; [|exact Hy].
      apply ltb_asym, E.
    + constructor; [constructor; assumption|].
      constructor; [exact E|].
      eapply Forall_impl; [exact Hy|]. intros z Hz.
      apply (ltb_ge_trans _ (r_general_elo y)); assumption.
Qed.

Lemma sort_desc_sorted (l : list Ranking) :
  Forall (fun y => is_nan (r_general_elo y) = false) l ->
  StronglySorted desc (sort_by_general_elo_desc l).
Proof.
  induction 1 as [|x l Hx Hl IH]; simpl; [constructor|].
  apply insert_desc_sorted; [|exact IH].
  rewrite sort_desc_perm. exact Hl.
Qed.

(** Inserting puts an entry in front of the entries it ties with. *)
Lemma insert_desc_ties (k : float) (r : Ranking) (l : list Ranking) :
  is_nan k = false ->
  List.filter (ties_with k) (insert_desc r l) = List.filter (ties_with k) (r :: l).
Proof.
  intros Hk. induction l as [|y l IH]; simpl; [reflexivity|].
  destruct (r_general_elo r <? r_general_elo y)%float eqn:E; [|reflexivity].
  simpl in *. rewrite IH.
  destruct (ties_with k r) eqn:Tr, (ties_with k y) eqn:Ty; try reflexivity.
  exfalso. unfold ties_with in Tr, Ty.
  apply andb_true_iff in Tr as [_ Tr]. apply andb_true_iff in Ty as [Ty _].
  apply negb_true_iff in Tr, Ty.
  rewrite (ltb_ge_trans _ k _ Hk Tr Ty) in E. discriminate.
Qed.

Lemma sort_desc_stable (k : float) (l : list Ranking) :
  is_nan k = false ->
  List.filter (ties_with k) (sort_by_general_elo_desc l) = List.filter (ties_with k) l.
Proof.
  intros Hk. induction l as [|x l IH]; [reflexivity|].
  change (sort_by_general_elo_desc (x :: l)) with (insert_desc x (sort_by_general_elo_desc l)).
  rewrite (insert_desc_ties k _ _ Hk). simpl. rewrite IH. reflexivity.
Qed.

Lemma add_ranks_entries (l : list Ranking) : forall i, map entry (add_ranks i l) = l.
Proof. induction l as [|r l IH]; intros i; simpl; [|rewrite IH]; reflexivity. Qed.

Lemma add_ranks_lookup (l : list Ranking) :
  forall i j e, add_ranks i l !! j = Some e -> rank e = (i + j + 1)%nat.
Proof.
  induction l as [|r l IH]; intros i j e; simpl; [discriminate|].
  destruct j as [|j]; simpl.
  - intros [= <-]. simpl. lia.
  - intros H. rewrite (IH _ _ _ H). lia.
Qed.

Lemma Forall_filter_bool {A : Type} (f : A -> bool) (P : A -> Prop) (l : list A) :
  Forall (fun x => f x = true -> P x) l -> Forall P (List.filter f l).
Proof.
  induction 1 as [|x l Hx Hl IH]; simpl; [constructor|].
  destruct (f x) eqn:E; [constructor; auto|exact IH].
Qed.

Lemma ranking_of_played (p : string * AgentState) :
  played p = true ->
  (1 <= r_games_played (ranking_of p))%nat /\
  r_win_rate (ranking_of p)
    = F64.round1 (float_of_nat (r_wins (ranking_of p)) * F64.of_Z 100
                  / float_of_nat (r_games_played (ranking_of p)))%float.
Proof.
  unfold played, ranking_of, make_ranking, win_rate_of. simpl.
  destruct (games_played (snd p)) as [|n]; simpl; [discriminate|].
  intros _. split; [lia|reflexivity].
Qed.

(** C8. The leaderboard has one entry for each agent of the state with
    [games_played >= 1] and no other entry (so none with [games_played = 0]);
    an entry carries [win_rate = round(wins * 100.0 / games_played, 1)]; the
    rank of the entry at position [i] (from zero) is [i + 1].  With no nan
    among the general ratings of the agents that played (the case in which
    the comparisons of [list.sort] order the keys), the entries are in
    descending order of the general rating, and the entries whose rating ties
    with a given value keep the order the agents have in the state. *)
Theorem leaderboard_projection (st : State) :
  let lb := generate_leaderboard_index st in
  let entries := map entry (rankings lb) in
  entries ≡ₚ map ranking_of (List.filter played (agents st)) /\
  Forall (fun r => (1 <= r_games_played r)%nat) entries /\
  Forall (fun r => r_win_rate r
                   = F64.round1 (float_of_nat (r_wins r) * F64.of_Z 100
                                 / float_of_nat (r_games_played r))%float) entries /\
  total_agents lb = length (rankings lb) /\
  (forall i e, rankings lb !! i = Some e -> rank e = (i + 1)%nat) /\
  (Forall (fun p => played p = true ->
                    is_nan (default INITIAL_ELO (general_elo (snd p))) = false) (agents st) ->
   StronglySorted desc entries /\
   forall k, is_nan k = false ->
     List.filter (ties_with k) entries
       = List.filter (ties_with k) (map ranking_of (List.filter played (agents st)))).
Proof.
  intros lb entries.
  assert (Hentries : entries
            = sort_by_general_elo_desc (map ranking_of (List.filter played (agents st)))).
  { unfold entries, lb, generate_leaderboard_index. simpl.
    rewrite add_ranks_entries, collect_rankings_filter. reflexivity. }
  assert (Hperm : entries ≡ₚ map ranking_of (List.filter played (agents st))).
  { rewrite Hentries. apply sort_desc_perm. }
  assert (Hplayed : Forall (fun p => played p = true) (List.filter played (agents st))).
  { apply Forall_filter_bool, Forall_forall. auto. }
  split; [exact Hperm|].
  split; [|split; [|split; [|split]]].
  - rewrite Hperm. apply Forall_map. eapply Forall_impl; [exact Hplayed|].
    intros p Hp. apply ranking_of_played, Hp.
  - rewrite Hperm. apply Forall_map. eapply Forall_impl; [exact Hplayed|].
    intros p Hp. apply ranking_of_played, Hp.
  - unfold lb, generate_leaderboard_index. simpl.
    rewrite <- (add_ranks_entries (sort_by_general_elo_desc _) 0) at 1.
    rewrite length_map. reflexivity.
  - intros i e H. apply add_ranks_lookup in H. exact H.
  - intros Hnan. rewrite Hentries. split.
    + apply sort_desc_sorted, Forall_map, Forall_filter_bool. exact Hnan.
    + intros k Hk. apply sort_desc_stable, Hk.
Qed.

(** * Concrete games *)

Definition example_score (name team_label : string) (is_win : bool) : Score :=
  {| player_name := name; team := Some team_label; role := Some team_label;
     won := Some is_win; aggregate_score := Some (F64.ratio 1 2);
     elo_delta := None; elo_after := None |}.

Definition example_participants : gmap string string :=
  list_to_map
    [("Player_1", "agent-1"); ("Player_2", "agent-2"); ("Player_3", "agent-3");
     ("Player_4", "agent-4"); ("Player_5", "agent-5"); ("Player_6", "agent-6");
     ("Player_7", "agent-7"); ("Player_8", "agent-8")].

Definition example_wolves : list Score :=
  [example_score "Player_1" "werewolves" true; example_score "Player_2" "werewolves" true].

Definition example_villagers : list Score :=
  [example_score "Player_3" "villagers" false; example_score "Player_4" "villagers" false;
   example_score "Player_5" "villagers" false; example_score "Player_6" "villagers" false;
   example_score "Player_7" "villagers" false; example_score "Player_8" "villagers" false].

(** A game of eight distinct agents, two werewolves who won and six villagers
    who lost, with the scores list in the order given. *)
Definition example_game (scores_list : list Score) : GameData :=
  {| participants := example_participants;
     results :=
       [ {| scores := Some scores_list; winner := Some "werewolves";
            action_log := [ {| timestamp := Some "2025-01-01T10:00:00Z" |};
                            {| timestamp := Some "2025-01-01T10:30:00Z" |} ] |} ] |}.

Definition initial_state : State :=
  {| last_updated := None; agents := []; processed_games := [] |}.

(** The three ratings an agent has after a call of [process_game]. *)
Definition ratings_after (o : option Outcome) (agent_id : string)
    : option (float * float * float) :=
  o ← o;
  a ← agent_lookup agent_id (agents (out_state o));
  Some (default INITIAL_ELO (general_elo a),
        default INITIAL_ELO (werewolf_elo a),
        default INITIAL_ELO (villager_elo a)).

Definition wolves_first : option Outcome :=
  process_game F64.pow10_ref initial_state "game_001.json"
    (example_game (example_wolves ++ example_villagers)) ∅.

Definition villagers_first : option Outcome :=
  process_game F64.pow10_ref initial_state "game_001.json"
    (example_game (example_villagers ++ example_wolves)) ∅.

(** C1 fails on the code.  The loop writes each player's new rating into the
    state before the next player's opponents are averaged, so the ratings
    depend on the order of the scores list: with the werewolves first they
    gain 16.0 against villagers at 1000 and the villagers then lose 15.3
    against werewolves at 1016; with the villagers first they lose 16.0 and
    the werewolves then gain 15.3. *)
Theorem within_game_order_dependence :
  example_villagers ++ example_wolves ≡ₚ example_wolves ++ example_villagers /\
  ratings_after wolves_first "agent-1"
    = Some (F64.of_Z 1016, F64.of_Z 1016, F64.of_Z 1000) /\
  ratings_after villagers_first "agent-1"
    = Some (F64.ratio 10153 10, F64.ratio 10153 10, F64.of_Z 1000) /\
  ratings_after wolves_first "agent-3"
    = Some (F64.ratio 9847 10, F64.of_Z 1000, F64.ratio 9847 10) /\
  ratings_after villagers_first "agent-3"
    = Some (F64.of_Z 984, F64.of_Z 1000, F64.of_Z 984) /\
  (F64.of_Z 1016 =? F64.ratio 10153 10)%float = false /\
  (F64.ratio 9847 10 =? F64.of_Z 984)%float = false.
Proof.
  split; [apply Permutation_app_comm|].
  repeat split; vm_compute; reflexivity.
Qed.

(** When one agent holds two seats of a game, the entry of its second seat is
    computed from the rating its first seat left, not from its rating before
    the game: [elo_before] is 1000.0 and then 1016.0. *)
Example second_seat_elo_before :
  (o ← process_game F64.pow10_ref initial_state "game_001.json"
         {| participants := <["Player_2" := "agent-1"]> example_participants;
            results := results (example_game (example_wolves ++ example_villagers)) |} ∅;
   Some (map h_elo_before (default [] (out_histories o !! "agent-1"))))
  = Some [F64.of_Z 1000; F64.of_Z 1016].
Proof. vm_compute. reflexivity. Qed.

(** The state after the first game, werewolves first. *)
Definition state_after_first_game : State :=
  default initial_state (out_state <$> wolves_first).

Lemma wolves_first_outcome :
  exists o, wolves_first = Some o /\ out_state o = state_after_first_game.
Proof.
  unfold state_after_first_game.
  destruct wolves_first as [o|] eqn:E; [exists o; split; reflexivity|].
  vm_compute in E. discriminate.
Qed.

Lemma state_after_first_game_processed :
  processed_games state_after_first_game = ["game_001.json"].
Proof. vm_compute. reflexivity. Qed.

Lemma process_game_replay_noop_witness :
  "game_001.json" ∈ processed_games state_after_first_game /\
  process_game F64.pow10_ref state_after_first_game "game_001.json"
    (example_game (example_wolves ++ example_villagers)) ∅
  = Some {| out_state := state_after_first_game; out_histories := ∅;
            out_game := example_game (example_wolves ++ example_villagers);
            out_modified := false |}.
Proof.
  assert (H : "game_001.json" ∈ processed_games state_after_first_game).
  { rewrite state_after_first_game_processed. apply list_elem_of_here. }
  split; [exact H|].
  exact (proj1 (process_game_replay_noop F64.pow10_ref state_after_first_game
                  "game_001.json" (example_game (example_wolves ++ example_villagers)) ∅ H)).
Defined.

(** A game record with seven participants. *)
Definition short_roster_game : GameData :=
  {| participants := delete "Player_8" example_participants;
     results := results (example_game (example_wolves ++ example_villagers)) |}.

Lemma process_game_rejection_atomic_witness :
  (size (participants short_roster_game) ≠ 8%nat \/ no_scores short_roster_game) /\
  process_game F64.pow10_ref initial_state "game_002.json" short_roster_game ∅
  = Some {| out_state := initial_state; out_histories := ∅;
            out_game := short_roster_game; out_modified := false |}.
Proof.
  assert (H : size (participants short_roster_game) ≠ 8%nat \/ no_scores short_roster_game).
  { left. vm_compute. discriminate. }
  split; [exact H|].
  exact (proj1 (process_game_rejection_atomic F64.pow10_ref initial_state
                  "game_002.json" short_roster_game ∅ H)).
Defined.

Lemma state_after_first_game_counters_ok : state_counters_ok state_after_first_game.
Proof. vm_compute. repeat constructor. Qed.

Lemma process_game_counters_ok_witness :
  state_counters_ok state_after_first_game /\
  exists o,
    process_game F64.pow10_ref state_after_first_game "game_002.json"
      (example_game (example_villagers ++ example_wolves)) ∅ = Some o /\
    state_counters_ok (out_state o).
Proof.
  split; [exact state_after_first_game_counters_ok|].
  eexists. split; [vm_compute; reflexivity|].
  eassert (Hrun : process_game F64.pow10_ref state_after_first_game "game_002.json"
            (example_game (example_villagers ++ example_wolves)) ∅ = Some _)
    by (vm_compute; reflexivity).
  exact (proj1 (process_game_counters_ok F64.pow10_ref state_after_first_game
                  "game_002.json" (example_game (example_villagers ++ example_wolves)) ∅ _
                  state_after_first_game_counters_ok Hrun)).
Defined.

Lemma processed_games_monotone_witness :
  applications F64.pow10_ref initial_state ["game_001.json"] state_after_first_game /\
  processed_games state_after_first_game = processed_games initial_state ++ ["game_001.json"].
Proof.
  assert (H : applications F64.pow10_ref initial_state ["game_001.json"]
                state_after_first_game).
  { destruct wolves_first_outcome as (o & Ho & Hst).
    assert (E : marks initial_state "game_001.json"
                  (example_game (example_wolves ++ example_villagers)) ++ []
                = ["game_001.json"]) by (vm_compute; reflexivity).
    unfold wolves_first in Ho.
    pose proof (applications_step F64.pow10_ref initial_state "game_001.json"
                  (example_game (example_wolves ++ example_villagers)) ∅ o []
                  (out_state o) Ho (applications_none _ _)) as H.
    rewrite E, Hst in H. exact H. }
  split; [exact H|].
  exact (proj1 (processed_games_monotone F64.pow10_ref initial_state
                  state_after_first_game ["game_001.json"] H)).
Defined.

Definition empty_loop_state : LoopState :=
  {| l_state := initial_state; l_histories := ∅; l_done := []; l_modified := false |}.

Lemma score_step_role_dichotomy_witness :
  nonempty (default "" (example_participants !! "Player_1")) = true /\
  exists ls',
    score_step F64.pow10_ref "game_001.json" example_participants None None
      (example_score "Player_2" "werewolves" true :: example_villagers)
      empty_loop_state (example_score "Player_1" "werewolves" true) = Some ls' /\
    exists a',
      agent_lookup "agent-1" (agents (l_state ls')) = Some a' /\
      games_as_werewolf a' = 1%nat /\ games_as_villager a' = 0%nat.
Proof.
  assert (H : nonempty (default "" (example_participants !! "Player_1")) = true)
    by reflexivity.
  split; [exact H|].
  eexists. split; [vm_compute; reflexivity|].
  eassert (Hstep : score_step F64.pow10_ref "game_001.json" example_participants None None
            (example_score "Player_2" "werewolves" true :: example_villagers)
            empty_loop_state (example_score "Player_1" "werewolves" true) = Some _)
    by (vm_compute; reflexivity).
  destruct (score_step_role_dichotomy F64.pow10_ref "game_001.json" example_participants
              None None (example_score "Player_2" "werewolves" true :: example_villagers)
              empty_loop_state _ (example_score "Player_1" "werewolves" true) H Hstep)
    as (a' & Hlookup & Hrole).
  exists a'. split; [exact Hlookup|].
  simpl in Hrole. destruct Hrole as (Hg & _ & _ & Hv & _). split; [exact Hg|exact Hv].
Defined.

(** A game in which the scores list names a player whom the participants
    mapping does not have: ["Player_9"], a villager. *)
Definition unmapped_scores : list Score :=
  [example_score "Player_1" "werewolves" true;
   example_score "Player_3" "villagers" false;
   example_score "Player_9" "villagers" false].

Definition rated_agent (general : Z) (played_games won_games : nat) : AgentState :=
  {| general_elo := Some (F64.of_Z general); werewolf_elo := Some INITIAL_ELO;
     villager_elo := Some (F64.of_Z general);
     games_played := played_games; wins := won_games;
     losses := played_games - won_games;
     games_as_werewolf := 0; games_as_villager := played_games;
     wins_as_werewolf := 0; wins_as_villager := won_games |}.

Definition rated_state : State :=
  {| last_updated := None;
     agents := [("agent-3", rated_agent 1200 3 2); ("agent-5", rated_agent 1000 0 0);
                ("agent-1", rated_agent 1250 4 3); ("agent-7", rated_agent 1200 1 1)];
     processed_games := ["game_000.json"] |}.

(** C7, as stated, fails on the code: the werewolf ["Player_1"] has the
    villagers ["Player_3"] (agent-3, rated 1200) and ["Player_9"] (no agent)
    on the other team.  The claim averages both, the second with the default
    rating, which gives 1100; the code leaves the entry without an agent out
    and returns 1200. *)
Lemma opponents_avg_counterexample :
  get_opponents_avg_elo rated_state example_participants "Player_1" "werewolves"
    unmapped_scores GeneralElo = F64.of_Z 1200 /\
  spec_opponents_avg rated_state example_participants "Player_1" "werewolves"
    unmapped_scores = F64.of_Z 1100 /\
  (F64.of_Z 1200 =? F64.of_Z 1100)%float = false.
Proof. repeat split; vm_compute; reflexivity. Qed.

Lemma rated_state_no_nan :
  Forall (fun p => played p = true ->
                   is_nan (default INITIAL_ELO (general_elo (snd p))) = false)
    (agents rated_state).
Proof. repeat (constructor; [intros _; reflexivity|]). constructor. Qed.

Lemma leaderboard_projection_witness :
  Forall (fun p => played p = true ->
                   is_nan (default INITIAL_ELO (general_elo (snd p))) = false)
    (agents rated_state) /\
  StronglySorted desc (map entry (rankings (generate_leaderboard_index rated_state))) /\
  map (fun e => (rank e, r_agent_id (entry e), r_win_rate (entry e)))
    (rankings (generate_leaderboard_index rated_state))
  = [(1%nat, "agent-1", F64.of_Z 75); (2%nat, "agent-3", F64.ratio 667 10);
     (3%nat, "agent-7", F64.of_Z 100)].
Proof.
  split; [exact rated_state_no_nan|]. split; [|vm_compute; reflexivity].
  exact (proj1 (proj2 (proj2 (proj2 (proj2 (proj2
           (leaderboard_projection rated_state))))) rated_state_no_nan)).
Defined.

(** * Further properties of the accumulator *)

(** ** The agents dict under [init_agent_state] and [agent_modify] *)

Lemma agent_lookup_None_keys (agent_id : string) (l : list (string * AgentState)) :
  agent_lookup agent_id l = None <-> agent_id ∉ map fst l.
Proof.
  induction l as [|[k a] l IH]; simpl.
  - split; [intros _ H; inversion H|reflexivity].
  - destruct (String.eqb_spec k agent_id) as [->|Hne].
    + split; [discriminate|]. intros H. exfalso. apply H. left.
    + rewrite IH, not_elem_of_cons. split; [auto|]. intros [_ H]. exact H.
Qed.

Lemma agent_lookup_app_other (agent_id other : string) (a : AgentState)
    (l : list (string * AgentState)) :
  other ≠ agent_id ->
  agent_lookup other (l ++ [(agent_id, a)]) = agent_lookup other l.
Proof.
  intros Hne. induction l as [|[k b] l IH]; simpl.
  - destruct (String.eqb_spec agent_id other) as [->|_]; [contradiction|reflexivity].
  - destruct (String.eqb k other); [reflexivity|exact IH].
Qed.

Lemma agent_lookup_modify_other (agent_id other : string) (f : AgentState -> AgentState)
    (l : list (string * AgentState)) :
  other ≠ agent_id ->
  agent_lookup other (agent_modify agent_id f l) = agent_lookup other l.
Proof.
  intros Hne. induction l as [|[k a] l IH]; simpl; [reflexivity|].
  destruct (String.eqb_spec k agent_id) as [->|Hk]; simpl.
  - destruct (String.eqb_spec agent_id other) as [->|_]; [contradiction|reflexivity].
  - destruct (String.eqb k other); [reflexivity|exact IH].
Qed.

Lemma agent_modify_keys (agent_id : string) (f : AgentState -> AgentState)
    (l : list (string * AgentState)) :
  map fst (agent_modify agent_id f l) = map fst l.
Proof.
  induction l as [|[k a] l IH]; simpl; [reflexivity|].
  destruct (String.eqb k agent_id); simpl; [|rewrite IH]; reflexivity.
Qed.

(** X1. [init_agent_state] adds the fresh entry only for an identifier the
    state does not have, and touches nothing else: an agent that is there
    keeps its entry, every other identifier looks up as before, and a second
    call changes nothing. *)
Theorem init_agent_state_lookup (st : State) (agent_id other : string) :
  agent_lookup other (agents (init_agent_state st agent_id))
    = (if String.eqb other agent_id
       then Some (default new_agent (agent_lookup agent_id (agents st)))
       else agent_lookup other (agents st)) /\
  init_agent_state (init_agent_state st agent_id) agent_id = init_agent_state st agent_id /\
  processed_games (init_agent_state st agent_id) = processed_games st /\
  last_updated (init_agent_state st agent_id) = last_updated st.
Proof.
  split; [|split; [|split]].
  - destruct (String.eqb_spec other agent_id) as [->|Hne]; [apply agent_lookup_init|].
    unfold init_agent_state.
    destruct (agent_lookup agent_id (agents st)); simpl; [reflexivity|].
    apply agent_lookup_app_other, Hne.
  - unfold init_agent_state at 1. rewrite agent_lookup_init. reflexivity.
  - apply processed_games_init.
  - unfold init_agent_state. destruct (agent_lookup _ _); reflexivity.
Qed.

(** The identifiers of the agents, in dict order. *)
Definition agent_ids (st : State) : list string := map fst (agents st).

Lemma init_agent_state_ids (st : State) (agent_id : string) :
  agent_ids (init_agent_state st agent_id)
    = agent_ids st ++ (if decide (agent_id ∈ agent_ids st) then [] else [agent_id]).
Proof.
  unfold init_agent_state, agent_ids.
  destruct (agent_lookup agent_id (agents st)) eqn:E.
  - rewrite decide_True; [rewrite app_nil_r; reflexivity|].
    destruct (decide (agent_id ∈ map fst (agents st))) as [H|H]; [exact H|].
    apply agent_lookup_None_keys in H. congruence.
  - apply agent_lookup_None_keys in E. rewrite decide_False by exact E.
    simpl. rewrite map_app. reflexivity.
Qed.

(** [l'] extends [l] at its end, keeping [NoDup]. *)
Definition extends_ids (l l' : list string) : Prop :=
  exists added, l' = l ++ added /\ (NoDup l -> NoDup l').

Lemma extends_ids_refl (l : list string) : extends_ids l l.
Proof. exists []. rewrite app_nil_r. auto. Qed.

Lemma extends_ids_trans (l1 l2 l3 : list string) :
  extends_ids l1 l2 -> extends_ids l2 l3 -> extends_ids l1 l3.
Proof.
  intros (a1 & -> & H1) (a2 & -> & H2). exists (a1 ++ a2).
  rewrite app_assoc. auto.
Qed.

Lemma init_agent_state_extends (st : State) (agent_id : string) :
  extends_ids (agent_ids st) (agent_ids (init_agent_state st agent_id)).
Proof.
  rewrite init_agent_state_ids. destruct (decide _) as [|Hnot].
  - rewrite app_nil_r. apply extends_ids_refl.
  - exists [agent_id]. split; [reflexivity|]. intros Hnd.
    apply NoDup_app. repeat split; [exact Hnd| |apply NoDup_singleton].
    intros x Hx Hx'. apply list_elem_of_singleton in Hx'. subst. contradiction.
Qed.

(** ** One iteration, case by case *)

(** The entry is applied: its player is mapped to a non-empty agent
    identifier. *)
Definition applied (parts : gmap string string) (score : Score) : bool :=
  nonempty (default "" (parts !! player_name score)).

(** The composite entry update of an applied iteration. *)
Definition entry_update (team_label : string) (is_win : bool) (new_elo role_value : float)
    : AgentState -> AgentState :=
  set_elo (role_elo team_label) role_value ∘ count_game team_label is_win new_elo.

Section StepFacts.

Variable libm_pow10 : float -> float.

(** An iteration that returns either skipped the entry, or created the agent
    if needed and changed exactly that agent's entry, appended one history
    entry and appended the (possibly rewritten) score. *)
Lemma score_step_cases (filename : string) (parts : gmap string string)
    (start_ts end_ts : option string) (rest : list Score) (ls ls' : LoopState) (score : Score) :
  score_step libm_pow10 filename parts start_ts end_ts rest ls score = Some ls' ->
  (applied parts score = false /\
   ls' = {| l_state := l_state ls; l_histories := l_histories ls;
            l_done := l_done ls ++ [score]; l_modified := l_modified ls |}) \/
  (applied parts score = true /\
   exists delta new_elo role_value entry score',
     let agent_id := default "" (parts !! player_name score) in
     let st := init_agent_state (l_state ls) agent_id in
     ls' = {| l_state :=
                modify_agent agent_id
                  (entry_update (default "" (team score)) (default false (won score))
                     new_elo role_value) st;
              l_histories :=
                <[agent_id := default [] (l_histories ls !! agent_id) ++ [entry]]>
                  (l_histories ls);
              l_done := l_done ls ++ [score'];
              l_modified := l_modified ls' |} /\
     new_elo = F64.round1 (get_agent_elo st agent_id GeneralElo + delta)%float /\
     h_game entry = filename /\
     h_elo_before entry = get_agent_elo st agent_id GeneralElo /\
     h_elo_delta entry = delta /\
     h_elo_after entry = new_elo /\
     (l_modified ls' = false -> score' = score) /\
     (l_modified ls' = false -> l_modified ls = false) /\
     player_name score' = player_name score /\
     team score' = team score /\
     role score' = role score /\
     won score' = won score /\
     aggregate_score score' = aggregate_score score /\
     is_Some (elo_delta score') /\ is_Some (elo_after score')).
Proof.
  unfold score_step, applied.
  destruct (nonempty (default "" (parts !! player_name score))) eqn:Hid; simpl.
  2: { intros [= <-]. left. split; reflexivity. }
  destruct (calculate_elo_delta _ _ _ _) as [delta|]; simpl; [|discriminate].
  rewrite update_agent_stats_eq. cbv zeta.
  destruct (calculate_elo_delta _ _ _ _) as [role_delta|]; simpl; [|discriminate].
  intros [= <-]. right. split; [reflexivity|].
  eexists delta, _, _, _, _. cbv zeta. simpl.
  split; [reflexivity|]. simpl.
  split; [reflexivity|]. split; [reflexivity|]. split; [reflexivity|].
  split; [reflexivity|]. split; [reflexivity|].
  split; [|split].
  - intros H. apply orb_false_iff in H as [_ H]. rewrite H. reflexivity.
  - intros H. apply orb_false_iff in H as [H _]. exact H.
  - destruct (differs (elo_delta score) delta) eqn:E1; simpl;
      [repeat split; eauto|].
    destruct (differs (elo_after score) _) eqn:E2; simpl; [repeat split; eauto|].
    repeat split.
    + destruct (elo_delta score); [eauto|discriminate].
    + destruct (elo_after score); [eauto|discriminate].
Qed.

End StepFacts.

(** ** What a call of [process_game] is made of *)

(** The sum of a counter over all agents. *)
Definition total (g : AgentState -> nat) (st : State) : nat :=
  sum_list_with (fun p => g (snd p)) (agents st).

Lemma agent_modify_total (g : AgentState -> nat) (agent_id : string)
    (f : AgentState -> AgentState) (l : list (string * AgentState)) (a : AgentState) :
  agent_lookup agent_id l = Some a ->
  (sum_list_with (fun p => g (snd p)) (agent_modify agent_id f l) + g a
   = sum_list_with (fun p => g (snd p)) l + g (f a))%nat.
Proof.
  induction l as [|[k b] l IH]; simpl; [discriminate|].
  destruct (String.eqb k agent_id); simpl.
  - intros [= ->]. lia.
  - intros H. specialize (IH H). lia.
Qed.

Lemma init_agent_state_total (g : AgentState -> nat) (st : State) (agent_id : string) :
  g new_agent = 0%nat -> total g (init_agent_state st agent_id) = total g st.
Proof.
  intros Hg. unfold total, init_agent_state.
  destruct (agent_lookup agent_id (agents st)); simpl; [reflexivity|].
  rewrite sum_list_with_app. simpl. rewrite Hg. lia.
Qed.

Section GameFacts.

Variable libm_pow10 : float -> float.

Lemma process_game_cases (st : State) (filename : string) (game_data : GameData)
    (hist : gmap string (list HistoryEntry)) (o : Outcome) :
  process_game libm_pow10 st filename game_data hist = Some o ->
  (o = skipped st game_data hist /\
   (filename ∈ processed_games st \/ is_valid_game game_data = false)) \/
  ((filename ∉ processed_games st) /\ is_valid_game game_data = true /\
   exists scores_list ls,
     find_scores (results game_data) = Some scores_list /\
     score_loop libm_pow10 filename (participants game_data)
       (fst (get_game_timestamps game_data)) (snd (get_game_timestamps game_data))
       scores_list
       {| l_state := st; l_histories := hist; l_done := []; l_modified := false |} = Some ls /\
     o = {| out_state := mark_processed (l_state ls) filename;
            out_histories := l_histories ls;
            out_game := {| participants := participants game_data;
                           results := replace_scores (results game_data) (l_done ls) |};
            out_modified := l_modified ls |}).
Proof.
  unfold process_game, is_valid_game, get_participants_from_game.
  destruct (decide _) as [Hin|Hnot]; [intros [= <-]; left; auto|].
  destruct (size (participants game_data) =? 8)%nat; simpl;
    [|intros [= <-]; left; auto].
  destruct (find_scores _) as [[|score l]|] eqn:Ef; try (intros [= <-]; left; auto).
  destruct (get_game_timestamps game_data) as [start_ts end_ts]. cbn [fst snd].
  destruct (score_loop _ _ _ _ _ _ _) as [ls|] eqn:E; [|discriminate].
  intros [= <-]. right. repeat split; [exact Hnot|].
  exists (score :: l), ls. repeat split. exact E.
Qed.

(** A property of the loop state that every iteration carries over holds
    after the loop. *)
Lemma score_loop_ind (P : LoopState -> list Score -> LoopState -> Prop)
    (filename : string) (parts : gmap string string) (start_ts end_ts : option string) :
  (forall ls, P ls [] ls) ->
  (forall ls score rest ls1 ls2,
     score_step libm_pow10 filename parts start_ts end_ts rest ls score = Some ls1 ->
     P ls1 rest ls2 -> P ls (score :: rest) ls2) ->
  forall todo ls ls',
    score_loop libm_pow10 filename parts start_ts end_ts todo ls = Some ls' ->
    P ls todo ls'.
Proof.
  intros Hnil Hcons todo. induction todo as [|score rest IH]; simpl; intros ls ls'.
  - intros [= <-]. apply Hnil.
  - destruct (score_step _ _ _ _ _ _ _ _) as [ls1|] eqn:E; simpl; [|discriminate].
    intros Hloop. eapply Hcons; [exact E|]. apply IH, Hloop.
Qed.

Lemma score_loop_ids (filename : string) (parts : gmap string string)
    (start_ts end_ts : option string) (todo : list Score) (ls ls' : LoopState) :
  score_loop libm_pow10 filename parts start_ts end_ts todo ls = Some ls' ->
  extends_ids (agent_ids (l_state ls)) (agent_ids (l_state ls')).
Proof.
  revert todo ls ls'.
  apply (score_loop_ind (fun ls _ ls' =>
           extends_ids (agent_ids (l_state ls)) (agent_ids (l_state ls')))).
  - intros ls. apply extends_ids_refl.
  - intros ls score rest ls1 ls2 Hstep H.
    eapply extends_ids_trans; [|exact H].
    apply score_step_cases in Hstep as [[_ ->]|[_ Hstep]]; [apply extends_ids_refl|].
    destruct Hstep as (delta & new_elo & role_value & e & score' & -> & _). simpl.
    unfold agent_ids at 2, modify_agent. simpl. rewrite agent_modify_keys.
    apply init_agent_state_extends.
Qed.

(** X2. A call of [process_game] never removes or reorders an agent: the
    identifiers of the old state stay, in their order, at the front of the
    new one, and if they were pairwise distinct, so are the new ones. *)
Theorem process_game_keeps_agents (st : State) (filename : string) (game_data : GameData)
    (hist : gmap string (list HistoryEntry)) (o : Outcome) :
  process_game libm_pow10 st filename game_data hist = Some o ->
  exists added,
    agent_ids (out_state o) = agent_ids st ++ added /\
    (NoDup (agent_ids st) -> NoDup (agent_ids (out_state o))).
Proof.
  intros H. apply process_game_cases in H as [[-> _]|(_ & _ & l & ls & _ & Hloop & ->)].
  - apply extends_ids_refl.
  - apply score_loop_ids in Hloop. exact Hloop.
Qed.

Lemma score_loop_total (g : AgentState -> nat) (inc : string -> bool -> nat)
    (filename : string) (parts : gmap string string)
    (start_ts end_ts : option string) (todo : list Score) (ls ls' : LoopState) :
  g new_agent = 0%nat ->
  (forall team_label is_win new_elo role_value a,
     g (entry_update team_label is_win new_elo role_value a)
     = (g a + inc team_label is_win)%nat) ->
  score_loop libm_pow10 filename parts start_ts end_ts todo ls = Some ls' ->
  total g (l_state ls')
  = (total g (l_state ls)
     + sum_list_with
         (fun score => if applied parts score
                       then inc (default "" (team score)) (default false (won score))
                       else 0) todo)%nat.
Proof.
  intros Hnew Hinc. revert todo ls ls'.
  apply (score_loop_ind (fun ls todo ls' =>
    total g (l_state ls')
    = (total g (l_state ls)
       + sum_list_with
           (fun score => if applied parts score
                         then inc (default "" (team score)) (default false (won score))
                         else 0) todo)%nat)).
  - intros ls. simpl. lia.
  - intros ls score rest ls1 ls2 Hstep IH. rewrite IH. simpl.
    apply score_step_cases in Hstep as [[Ha ->]|[Ha Hstep]]; rewrite Ha; simpl; [lia|].
    destruct Hstep as (delta & new_elo & role_value & e & score' & -> & _). simpl.
    pose proof (agent_modify_total g (default "" (parts !! player_name score))
      (entry_update (default "" (team score)) (default false (won score)) new_elo role_value)
      _ _ (agent_lookup_init (l_state ls) (default "" (parts !! player_name score)))) as Hsum.
    rewrite Hinc in Hsum.
    pose proof (init_agent_state_total g (l_state ls)
                  (default "" (parts !! player_name score)) Hnew) as Hinit.
    unfold total in *. simpl. lia.
Qed.

Lemma entry_update_counters (team_label : string) (is_win : bool) (new_elo role_value : float)
    (a : AgentState) :
  games_played (entry_update team_label is_win new_elo role_value a) = S (games_played a) /\
  wins (entry_update team_label is_win new_elo role_value a)
    = (wins a + (if is_win then 1 else 0))%nat /\
  losses (entry_update team_label is_win new_elo role_value a)
    = (losses a + (if is_win then 0 else 1))%nat.
Proof.
  unfold entry_update, count_game, role_elo, compose.
  destruct is_win, (String.eqb team_label "werewolves"); simpl; lia.
Qed.

(** X3. When [process_game] folds a game (not yet processed, eight
    participants), the games played summed over all agents grow by the number
    of score entries whose player is mapped to an agent, the wins by the
    number of those entries that won and the losses by the number that did
    not: every applied entry counts once, unmapped entries count nowhere. *)
Theorem process_game_conservation (st : State) (filename : string) (game_data : GameData)
    (hist : gmap string (list HistoryEntry)) (o : Outcome) (scores_list : list Score) :
  filename ∉ processed_games st ->
  size (participants game_data) = 8%nat ->
  find_scores (results game_data) = Some scores_list ->
  process_game libm_pow10 st filename game_data hist = Some o ->
  let parts := participants game_data in
  total games_played (out_state o)
    = (total games_played st + length (List.filter (applied parts) scores_list))%nat /\
  total wins (out_state o)
    = (total wins st
       + length (List.filter (fun s => applied parts s && default false (won s))
                   scores_list))%nat /\
  total losses (out_state o)
    = (total losses st
       + length (List.filter (fun s => applied parts s && negb (default false (won s)))
                   scores_list))%nat.
Proof.
  intros Hnot Hsize Hfind Hrun parts.
  assert (Hlen : forall (f : Score -> bool) (l : list Score),
            length (List.filter f l) = sum_list_with (fun s => if f s then 1 else 0)%nat l).
  { intros f l. induction l as [|s l IH]; simpl; [reflexivity|].
    destruct (f s); simpl; rewrite IH; reflexivity. }
  apply process_game_cases in Hrun as [[-> [Hin|Hinv]]|(_ & _ & l & ls & Hf & Hloop & ->)].
  - contradiction.
  - unfold is_valid_game in Hinv. rewrite Hsize, Hfind in Hinv. simpl in Hinv.
    destruct scores_list; [|discriminate]. simpl. repeat split; lia.
  - rewrite Hfind in Hf. injection Hf as <-. rewrite !Hlen.
    unfold total at 1 3 5. simpl. fold (total games_played (l_state ls)).
    fold (total wins (l_state ls)). fold (total losses (l_state ls)).
    rewrite (score_loop_total games_played (fun _ _ => 1%nat) _ _ _ _ _ _ _ eq_refl
               (fun t w e r a => eq_trans (proj1 (entry_update_counters t w e r a))
                                   (eq_sym (Nat.add_1_r _))) Hloop).
    rewrite (score_loop_total wins (fun _ w => if w then 1%nat else 0%nat) _ _ _ _ _ _ _
               eq_refl
               (fun t w e r a => proj1 (proj2 (entry_update_counters t w e r a))) Hloop).
    rewrite (score_loop_total losses (fun _ w => if w then 0%nat else 1%nat) _ _ _ _ _ _ _
               eq_refl
               (fun t w e r a => proj2 (proj2 (entry_update_counters t w e r a))) Hloop).
    assert (Hext : forall (f h : Score -> nat) (l' : list Score),
              (forall s, f s = h s) -> sum_list_with f l' = sum_list_with h l').
    { intros f h l' Hfh. induction l' as [|s l' IH]; simpl; [reflexivity|].
      rewrite Hfh, IH. reflexivity. }
    subst parts.
    repeat split; f_equal; apply Hext; intros s;
      destruct (applied (participants game_data) s), (default false (won s)); reflexivity.
Qed.

End GameFacts.

(** ** Histories and the rewritten game file *)

(** What [process_game] may change in a score entry: nothing but the stored
    delta and rating; an applied entry ends up with both stored, another
    entry is left as it is. *)
Definition score_updated (parts : gmap string string) (s s' : Score) : Prop :=
  player_name s' = player_name s /\ team s' = team s /\ role s' = role s /\
  won s' = won s /\ aggregate_score s' = aggregate_score s /\
  (if applied parts s then is_Some (elo_delta s') /\ is_Some (elo_after s') else s' = s).

(** A history entry written for the game [filename]. *)
Definition entry_of_game (filename : string) (e : HistoryEntry) : Prop :=
  h_game e = filename /\
  h_elo_after e = F64.round1 (h_elo_before e + h_elo_delta e)%float.

Lemma find_scores_replace (blocks : list ResultBlock) (l l' : list Score) :
  find_scores blocks = Some l -> find_scores (replace_scores blocks l') = Some l'.
Proof.
  induction blocks as [|b blocks IH]; simpl; [discriminate|].
  destruct (scores b) eqn:E; simpl; [reflexivity|].
  rewrite E. exact IH.
Qed.

Lemma replace_scores_same (blocks : list ResultBlock) (l : list Score) :
  find_scores blocks = Some l -> replace_scores blocks l = blocks.
Proof.
  induction blocks as [|b blocks IH]; simpl; [reflexivity|].
  destruct b as [[sc|] w log]; simpl.
  - intros [= ->]. reflexivity.
  - intros H. rewrite (IH H). reflexivity.
Qed.

Lemma replace_scores_logs (blocks : list ResultBlock) (l : list Score) :
  map action_log (replace_scores blocks l) = map action_log blocks /\
  map winner (replace_scores blocks l) = map winner blocks.
Proof.
  induction blocks as [|b blocks [IH1 IH2]]; simpl; [auto|].
  destruct (scores b); simpl; [auto|]. rewrite IH1, IH2. auto.
Qed.

Lemma get_game_timestamps_logs (g g' : GameData) :
  map action_log (results g') = map action_log (results g) ->
  get_game_timestamps g' = get_game_timestamps g.
Proof.
  unfold get_game_timestamps. generalize (@None string, @None string).
  generalize (results g'), (results g).
  induction l as [|b l IH]; intros [|b' l'] acc; simpl; try discriminate; [reflexivity|].
  intros [= Hb Hl]. rewrite Hb. apply IH, Hl.
Qed.

Section FileFacts.

Variable libm_pow10 : float -> float.

Lemma score_loop_histories (filename : string) (parts : gmap string string)
    (start_ts end_ts : option string) (todo : list Score) (ls ls' : LoopState) :
  score_loop libm_pow10 filename parts start_ts end_ts todo ls = Some ls' ->
  forall agent_id, exists added,
    default [] (l_histories ls' !! agent_id)
      = default [] (l_histories ls !! agent_id) ++ added /\
    Forall (entry_of_game filename) added.
Proof.
  revert todo ls ls'.
  apply (score_loop_ind libm_pow10 (fun ls _ ls' =>
    forall agent_id, exists added,
      default [] (l_histories ls' !! agent_id)
        = default [] (l_histories ls !! agent_id) ++ added /\
      Forall (entry_of_game filename) added)).
  - intros ls agent_id. exists []. rewrite app_nil_r. split; [reflexivity|constructor].
  - intros ls score rest ls1 ls2 Hstep IH agent_id.
    destruct (IH agent_id) as (added & Heq & Hall).
    apply score_step_cases in Hstep as [[_ ->]|[_ Hstep]]; [exists added; auto|].
    destruct Hstep
      as (delta & new_elo & role_value & e & score' & Hls & Hn & Hg & Hb & Hd & Ha & _).
    rewrite Hls in Heq. cbn [l_histories] in Heq.
    destruct (decide (default "" (parts !! player_name score) = agent_id)) as [<-|Hne].
    + rewrite lookup_insert_eq in Heq. cbn [default from_option id] in Heq.
      exists (e :: added). rewrite Heq, <- app_assoc. split; [reflexivity|].
      constructor; [|exact Hall]. split; [exact Hg|]. rewrite Ha, Hn, Hb, Hd. reflexivity.
    + rewrite lookup_insert_ne in Heq by exact Hne. exists added. auto.
Qed.

(** X4. The histories are append-only: after a call of [process_game] every
    agent's history is its old history followed by the entries the call
    wrote, each of which names this game and has [elo_after = round
    (elo_before + elo_delta, 1)]. *)
Theorem process_game_history_append (st : State) (filename : string) (game_data : GameData)
    (hist : gmap string (list HistoryEntry)) (o : Outcome) (agent_id : string) :
  process_game libm_pow10 st filename game_data hist = Some o ->
  exists added,
    default [] (out_histories o !! agent_id) = default [] (hist !! agent_id) ++ added /\
    Forall (entry_of_game filename) added.
Proof.
  intros H. apply process_game_cases in H as [[-> _]|(_ & _ & l & ls & _ & Hloop & ->)].
  - exists []. rewrite app_nil_r. split; [reflexivity|constructor].
  - apply (score_loop_histories _ _ _ _ _ _ _ Hloop).
Qed.

Lemma score_loop_done (filename : string) (parts : gmap string string)
    (start_ts end_ts : option string) (todo : list Score) (ls ls' : LoopState) :
  score_loop libm_pow10 filename parts start_ts end_ts todo ls = Some ls' ->
  exists written,
    l_done ls' = l_done ls ++ written /\
    Forall2 (score_updated parts) todo written /\
    (l_modified ls' = false -> l_modified ls = false /\ written = todo).
Proof.
  revert todo ls ls'.
  apply (score_loop_ind libm_pow10 (fun ls todo ls' =>
    exists written,
      l_done ls' = l_done ls ++ written /\
      Forall2 (score_updated parts) todo written /\
      (l_modified ls' = false -> l_modified ls = false /\ written = todo))).
  - intros ls. exists []. rewrite app_nil_r. repeat split; auto.
  - intros ls score rest ls1 ls2 Hstep (written & Heq & Hall & Hmod).
    apply score_step_cases in Hstep as [[Ha ->]|[Ha Hstep]].
    + exists (score :: written). simpl in *. rewrite Heq, <- app_assoc.
      split; [reflexivity|]. split.
      * constructor; [|exact Hall]. unfold score_updated. rewrite Ha. repeat split.
      * intros H. destruct (Hmod H) as [H1 ->]. auto.
    + destruct Hstep as (delta & new_elo & role_value & e & score' & Hls & _ & _ & _ & _ & _
                         & Hsame & Hprev & Hn & Ht & Hr & Hw & Hagg & Hd & Hafter).
      exists (score' :: written). rewrite Heq, Hls. cbn [l_done]. rewrite <- app_assoc.
      split; [reflexivity|]. split.
      * constructor; [|exact Hall]. unfold score_updated. rewrite Ha. repeat split; assumption.
      * intros H. destruct (Hmod H) as [H1 ->]. rewrite (Hsame H1). auto.
Qed.

(** X5. When [process_game] folds a game, the game record it leaves has the
    same participants, the same action logs, winners and timestamps, and a
    scores list of the same length in which only the stored delta and rating
    of an entry may differ: every entry whose player is mapped to an agent has
    both stored, every other entry is untouched. *)
Theorem process_game_rewrites_scores (st : State) (filename : string) (game_data : GameData)
    (hist : gmap string (list HistoryEntry)) (o : Outcome) (scores_list : list Score) :
  filename ∉ processed_games st ->
  is_valid_game game_data = true ->
  find_scores (results game_data) = Some scores_list ->
  process_game libm_pow10 st filename game_data hist = Some o ->
  participants (out_game o) = participants game_data /\
  map action_log (results (out_game o)) = map action_log (results game_data) /\
  map winner (results (out_game o)) = map winner (results game_data) /\
  get_game_timestamps (out_game o) = get_game_timestamps game_data /\
  exists written,
    find_scores (results (out_game o)) = Some written /\
    Forall2 (score_updated (participants game_data)) scores_list written.
Proof.
  intros Hnot Hvalid Hfind Hrun.
  apply process_game_cases in Hrun as [[-> [Hin|Hinv]]|(_ & _ & l & ls & Hf & Hloop & ->)];
    [contradiction|congruence|].
  rewrite Hfind in Hf. injection Hf as <-. simpl.
  destruct (replace_scores_logs (results game_data) (l_done ls)) as [Hlogs Hwin].
  split; [reflexivity|]. split; [exact Hlogs|]. split; [exact Hwin|].
  split; [apply get_game_timestamps_logs; exact Hlogs|].
  apply score_loop_done in Hloop as (written & Hdone & Hall & _). simpl in Hdone.
  exists written. rewrite Hdone. split; [|exact Hall].
  eapply find_scores_replace, Hfind.
Qed.

(** X6. A call of [process_game] that returns [False] leaves the game record
    exactly as it was, whether the game was skipped or folded: nothing needs
    to be written back. *)
Theorem process_game_unmodified_file (st : State) (filename : string) (game_data : GameData)
    (hist : gmap string (list HistoryEntry)) (o : Outcome) :
  process_game libm_pow10 st filename game_data hist = Some o ->
  out_modified o = false ->
  out_game o = game_data.
Proof.
  intros Hrun. apply process_game_cases in Hrun
    as [[-> _]|(_ & _ & l & ls & Hf & Hloop & ->)]; [reflexivity|]. simpl.
  intros Hmod. apply score_loop_done in Hloop as (written & Hdone & _ & Hsame).
  destruct (Hsame Hmod) as [_ ->]. simpl in Hdone. rewrite Hdone.
  rewrite (replace_scores_same _ _ Hf). destruct game_data; reflexivity.
Qed.

End FileFacts.

(** ** A whole run of [main]'s loop *)

Section RunFacts.

Variable libm_pow10 : float -> float.

Lemma process_game_invalid (st : State) (filename : string) (game_data : GameData)
    (hist : gmap string (list HistoryEntry)) :
  is_valid_game game_data = false ->
  process_game libm_pow10 st filename game_data hist = Some (skipped st game_data hist).
Proof.
  unfold is_valid_game, process_game, get_participants_from_game. intros H.
  destruct (decide _); [reflexivity|].
  destruct (size (participants game_data) =? 8)%nat; simpl in *; [|reflexivity].
  destruct (find_scores _) as [[|score l]|]; try reflexivity. discriminate.
Qed.

Lemma process_game_valid_marks (st : State) (filename : string) (game_data : GameData)
    (hist : gmap string (list HistoryEntry)) (o : Outcome) :
  process_game libm_pow10 st filename game_data hist = Some o ->
  filename ∉ processed_games st ->
  is_valid_game game_data = true ->
  processed_games (out_state o) = processed_games st ++ [filename].
Proof.
  intros Hrun Hnot Hvalid.
  apply process_game_cases in Hrun as [[-> [Hin|Hinv]]|(_ & _ & l & ls & _ & Hloop & ->)];
    [contradiction|congruence|].
  simpl. rewrite (score_loop_processed _ _ _ _ _ _ _ _ Hloop). reflexivity.
Qed.

Lemma process_result_files_processed (files : list (string * GameData)) :
  forall st hist st' hist',
    process_result_files libm_pow10 st hist files = Some (st', hist') ->
    exists added,
      processed_games st' = processed_games st ++ added /\
      (forall x, x ∈ added -> x ∈ map fst files) /\
      (forall filename game_data,
         (filename, game_data) ∈ files ->
         filename ∈ processed_games st' \/ is_valid_game game_data = false).
Proof.
  induction files as [|[filename game_data] rest IH]; simpl; intros st hist st' hist'.
  - intros [= <- <-]. exists []. rewrite app_nil_r.
    repeat split; [intros x Hx|intros f g Hf]; inversion Hx || inversion Hf.
  - destruct (decide (filename ∈ processed_games st)) as [Hin|Hnot].
    + intros Hrun. destruct (IH _ _ _ _ Hrun) as (added & Heq & Hadded & Hall).
      exists added. split; [exact Heq|]. split; [intros x Hx; right; auto|].
      intros f g Hf. apply elem_of_cons in Hf as [[= -> ->]|Hf]; [|eauto].
      left. rewrite Heq. apply elem_of_app. left. exact Hin.
    + destruct (process_game _ _ _ _ _) as [o|] eqn:Ho; simpl; [|discriminate].
      intros Hrun. destruct (IH _ _ _ _ Hrun) as (added & Heq & Hadded & Hall).
      destruct (is_valid_game game_data) eqn:Hvalid.
      * rewrite (process_game_valid_marks _ _ _ _ _ Ho Hnot Hvalid) in Heq.
        exists (filename :: added).
        split; [rewrite Heq, <- app_assoc; reflexivity|]. split.
        -- intros x Hx. apply elem_of_cons in Hx as [->|Hx]; [left|right; auto].
        -- intros f g Hf. apply elem_of_cons in Hf as [[= -> ->]|Hf]; [|eauto].
           left. rewrite Heq. set_solver.
      * rewrite (process_game_invalid _ _ _ _ Hvalid) in Ho. injection Ho as <-.
        exists added. split; [exact Heq|]. split; [intros x Hx; right; auto|].
        intros f g Hf. apply elem_of_cons in Hf as [[= -> ->]|Hf]; [auto|eauto].
Qed.

(** X7. After a completed run over a list of result files, every file of the
    list is either marked processed or fails the validation (so it will be
    tried again); the marks the run added are names of files of the list, put
    after the marks that were there. *)
Theorem process_result_files_marks (st st' : State)
    (hist hist' : gmap string (list HistoryEntry)) (files : list (string * GameData)) :
  process_result_files libm_pow10 st hist files = Some (st', hist') ->
  (forall filename game_data,
     (filename, game_data) ∈ files ->
     filename ∈ processed_games st' \/ is_valid_game game_data = false) /\
  exists added,
    processed_games st' = processed_games st ++ added /\
    forall x, x ∈ added -> x ∈ map fst files.
Proof.
  intros Hrun.
  destruct (process_result_files_processed _ _ _ _ _ Hrun) as (added & Heq & Hadded & Hall).
  split; [exact Hall|]. exists added. auto.
Qed.

Lemma process_result_files_nothing_to_do (files : list (string * GameData))
    (st : State) (hist : gmap string (list HistoryEntry)) :
  (forall filename game_data,
     (filename, game_data) ∈ files ->
     filename ∈ processed_games st \/ is_valid_game game_data = false) ->
  process_result_files libm_pow10 st hist files = Some (st, hist).
Proof.
  induction files as [|[filename game_data] rest IH]; simpl; intros H; [reflexivity|].
  assert (Hrest : process_result_files libm_pow10 st hist rest = Some (st, hist)).
  { apply IH. intros f g Hf. apply (H f g). right. exact Hf. }
  destruct (decide (filename ∈ processed_games st)) as [Hin|Hnot]; [exact Hrest|].
  destruct (H filename game_data) as [Hin|Hinv]; [left|contradiction|].
  rewrite (process_game_invalid _ _ _ _ Hinv). simpl. exact Hrest.
Qed.

(** X8. Running the loop of [main] again over the same result files, from the
    state and the histories the first run left, changes nothing: processed
    games are passed over and rejected games are rejected again. *)
Theorem process_result_files_idempotent (st st' : State)
    (hist hist' : gmap string (list HistoryEntry)) (files : list (string * GameData)) :
  process_result_files libm_pow10 st hist files = Some (st', hist') ->
  process_result_files libm_pow10 st' hist' files = Some (st', hist').
Proof.
  intros Hrun. apply process_result_files_nothing_to_do.
  destruct (process_result_files_processed _ _ _ _ _ Hrun) as (added & _ & _ & Hall).
  exact Hall.
Qed.

End RunFacts.

(** * Further properties of the projections *)

(** ** The order of strings *)

Lemma ascii_compare_cases (a b : Ascii.ascii) :
  match Ascii.compare a b with
  | Eq => a = b
  | Lt => (Ascii.N_of_ascii a < Ascii.N_of_ascii b)%N
  | Gt => (Ascii.N_of_ascii b < Ascii.N_of_ascii a)%N
  end.
Proof.
  unfold Ascii.compare.
  destruct (N.compare_spec (Ascii.N_of_ascii a) (Ascii.N_of_ascii b)) as [H|H|H]; try exact H.
  rewrite <- (Ascii.ascii_N_embedding a), <- (Ascii.ascii_N_embedding b), H. reflexivity.
Qed.

Lemma string_compare_refl (s : string) : String.compare s s = Eq.
Proof.
  pose proof (String.compare_antisym s s) as H.
  destruct (String.compare s s); simpl in H; congruence.
Qed.

Lemma string_compare_ge_trans (x : string) :
  forall y z, String.compare x y <> Lt -> String.compare y z <> Lt -> String.compare x z <> Lt.
Proof.
  induction x as [|a x IH]; intros [|b y] [|c z]; simpl; try congruence.
  pose proof (ascii_compare_cases a b) as Hab.
  pose proof (ascii_compare_cases b c) as Hbc.
  pose proof (ascii_compare_cases a c) as Hac.
  destruct (Ascii.compare a b), (Ascii.compare b c), (Ascii.compare a c);
    subst; try congruence; try lia; try (apply IH).
  all: try (rewrite ?string_compare_refl; intros; lia).
Qed.

Lemma string_ltb_irrefl (s : string) : String.ltb s s = false.
Proof. unfold String.ltb. rewrite string_compare_refl. reflexivity. Qed.

Lemma string_ltb_asym (x y : string) : String.ltb x y = true -> String.ltb y x = false.
Proof.
  unfold String.ltb. rewrite (String.compare_antisym y x).
  destruct (String.compare x y); simpl; congruence.
Qed.

Lemma string_ltb_ge_trans (x y z : string) :
  String.ltb x y = false -> String.ltb y z = false -> String.ltb x z = false.
Proof.
  unfold String.ltb. intros Hxy Hyz.
  pose proof (string_compare_ge_trans x y z) as H.
  destruct (String.compare x y), (String.compare y z), (String.compare x z);
    try reflexivity; try discriminate; exfalso; apply H; congruence.
Qed.

(** ** Game timestamps *)

(** The non-empty timestamps of all action logs of a game, in order. *)
Definition game_stamps (game_data : GameData) : list string :=
  List.filter nonempty (omap timestamp (concat (map action_log (results game_data)))).

(** [acc] holds the least and the greatest of the timestamps [seen]. *)
Definition stamp_bounds (acc : option string * option string) (seen : list string) : Prop :=
  match acc with
  | (None, None) => seen = []
  | (Some start_ts, Some end_ts) =>
      start_ts ∈ seen /\ end_ts ∈ seen /\
      forall ts, ts ∈ seen -> String.ltb ts start_ts = false /\ String.ltb end_ts ts = false
  | _ => False
  end.

Lemma timestamp_step_bounds (acc : option string * option string) (seen : list string)
    (action : Action) :
  stamp_bounds acc seen ->
  stamp_bounds (timestamp_step acc action)
    (seen ++ List.filter nonempty (omap timestamp [action])).
Proof.
  unfold timestamp_step. destruct action as [[ts|]]; simpl;
    [|rewrite app_nil_r; auto].
  destruct (nonempty ts) eqn:Hts; simpl; [|rewrite app_nil_r; auto].
  destruct acc as [[s|] [e|]]; simpl; try contradiction.
  - intros (Hs & He & Hall).
    assert (Hstart : forall x, x ∈ seen ++ [ts] ->
              String.ltb x (if String.ltb ts s then ts else s) = false).
    { intros x Hx. apply elem_of_app in Hx as [Hx|Hx].
      - destruct (Hall _ Hx) as [H1 _].
        destruct (String.ltb ts s) eqn:E; [|exact H1].
        apply (string_ltb_ge_trans _ s); [exact H1|apply string_ltb_asym, E].
      - apply list_elem_of_singleton in Hx as ->.
        destruct (String.ltb ts s) eqn:E; [apply string_ltb_irrefl|exact E]. }
    assert (Hend : forall x, x ∈ seen ++ [ts] ->
              String.ltb (if String.ltb e ts then ts else e) x = false).
    { intros x Hx. apply elem_of_app in Hx as [Hx|Hx].
      - destruct (Hall _ Hx) as [_ H2].
        destruct (String.ltb e ts) eqn:E; [|exact H2].
        apply (string_ltb_ge_trans _ e); [apply string_ltb_asym, E|exact H2].
      - apply list_elem_of_singleton in Hx as ->.
        destruct (String.ltb e ts) eqn:E; [apply string_ltb_irrefl|exact E]. }
    destruct (String.ltb ts s), (String.ltb e ts); simpl;
      (split; [|split; [|intros x Hx; split; [apply Hstart, Hx|apply Hend, Hx]]]);
      apply elem_of_app; first [left; assumption | right; apply list_elem_of_here].
  - intros ->. simpl.
    split; [apply list_elem_of_here|]. split; [apply list_elem_of_here|].
    intros x Hx. apply list_elem_of_singleton in Hx as ->.
    split; apply string_ltb_irrefl.
Qed.

Lemma timestamp_fold_bounds (actions : list Action) :
  forall acc seen,
    stamp_bounds acc seen ->
    stamp_bounds (fold_left timestamp_step actions acc)
      (seen ++ List.filter nonempty (omap timestamp actions)).
Proof.
  induction actions as [|action actions IH]; intros acc seen H; simpl.
  - rewrite app_nil_r. exact H.
  - apply (timestamp_step_bounds _ _ action) in H. apply IH in H.
    revert H. rewrite <- app_assoc.
    assert (E : List.filter nonempty (omap timestamp [action])
                ++ List.filter nonempty (omap timestamp actions)
                = List.filter nonempty (omap timestamp (action :: actions))).
    { simpl. destruct (timestamp action) as [ts|]; simpl; [|reflexivity].
      destruct (nonempty ts); reflexivity. }
    rewrite E. auto.
Qed.

Lemma get_game_timestamps_concat (game_data : GameData) :
  get_game_timestamps game_data
    = fold_left timestamp_step (concat (map action_log (results game_data))) (None, None).
Proof.
  unfold get_game_timestamps. generalize (@None string, @None string).
  induction (results game_data) as [|result rest IH]; intros acc; simpl; [reflexivity|].
  rewrite fold_left_app. apply IH.
Qed.

(** X9. [get_game_timestamps] returns nothing exactly when no action of the
    game carries a non-empty timestamp; otherwise it returns two of the
    game's timestamps, the first no greater and the second no smaller (as
    strings) than every non-empty timestamp of every action log. *)
Theorem get_game_timestamps_bounds (game_data : GameData) :
  match get_game_timestamps game_data with
  | (None, None) => game_stamps game_data = []
  | (Some start_ts, Some end_ts) =>
      start_ts ∈ game_stamps game_data /\ end_ts ∈ game_stamps game_data /\
      forall ts, ts ∈ game_stamps game_data ->
                 String.ltb ts start_ts = false /\ String.ltb end_ts ts = false
  | _ => False
  end.
Proof.
  rewrite get_game_timestamps_concat.
  apply (timestamp_fold_bounds _ (None, None) []). reflexivity.
Qed.

(** ** Stable sorting *)

(** [list.sort] and [sorted] with a key, reversed or not, as a stable
    insertion sort: [goes_after x y] says that the key of [x] is strictly
    beyond the key of [y] in the order asked for.  On keys that [<] orders
    totally every stable sort returns this list. *)
Section StableSort.

Context {A : Type} (goes_after : A -> A -> bool).

Fixpoint insert_stable (x : A) (l : list A) : list A :=
  match l with
  | [] => [x]
  | y :: l' => if goes_after x y then y :: insert_stable x l' else x :: y :: l'
  end.

Definition py_sort (l : list A) : list A := foldr insert_stable [] l.

(** [x] may stand before [y]. *)
Definition in_order (x y : A) : Prop := goes_after x y = false.

(** [x] is neither before nor beyond [k]. *)
Definition tied (k x : A) : bool := negb (goes_after k x) && negb (goes_after x k).

Lemma insert_stable_perm (x : A) (l : list A) : insert_stable x l ≡ₚ x :: l.
Proof.
  induction l as [|y l IH]; simpl; [reflexivity|].
  destruct (goes_after x y); [|reflexivity]. rewrite IH. apply perm_swap.
Qed.

Lemma py_sort_perm (l : list A) : py_sort l ≡ₚ l.
Proof.
  induction l as [|x l IH]; simpl; [reflexivity|].
  rewrite insert_stable_perm, IH. reflexivity.
Qed.

Hypothesis goes_after_asym : forall x y, goes_after x y = true -> goes_after y x = false.
Hypothesis goes_after_trans :
  forall x y z, goes_after x y = false -> goes_after y z = false -> goes_after x z = false.

Lemma insert_stable_sorted (x : A) (l : list A) :
  StronglySorted in_order l -> StronglySorted in_order (insert_stable x l).
Proof.
  induction 1 as [|y l Hs IH Hy]; simpl; [repeat constructor|].
  destruct (goes_after x y) eqn:E.
  - constructor; [exact IH|]. rewrite insert_stable_perm.
    constructor; [apply goes_after_asym, E|exact Hy].
  - constructor; [constructor; assumption|]. constructor; [exact E|].
    eapply Forall_impl; [exact Hy|]. intros z Hz. apply (goes_after_trans _ y); assumption.
Qed.

Lemma py_sort_sorted (l : list A) : StronglySorted in_order (py_sort l).
Proof.
  induction l as [|x l IH]; simpl; [constructor|]. apply insert_stable_sorted, IH.
Qed.

Lemma insert_stable_tied (k x : A) (l : list A) :
  List.filter (tied k) (insert_stable x l) = List.filter (tied k) (x :: l).
Proof.
  induction l as [|y l IH]; simpl; [reflexivity|].
  destruct (goes_after x y) eqn:E; [|reflexivity].
  simpl in *. rewrite IH.
  destruct (tied k x) eqn:Tx, (tied k y) eqn:Ty; try reflexivity.
  exfalso. unfold tied in Tx, Ty.
  apply andb_true_iff in Tx as [_ Tx]. apply andb_true_iff in Ty as [Ty _].
  apply negb_true_iff in Tx, Ty.
  rewrite (goes_after_trans _ k _ Tx Ty) in E. discriminate.
Qed.

Lemma py_sort_stable (k : A) (l : list A) :
  List.filter (tied k) (py_sort l) = List.filter (tied k) l.
Proof.
  induction l as [|x l IH]; [reflexivity|].
  change (py_sort (x :: l)) with (insert_stable x (py_sort l)).
  rewrite insert_stable_tied. simpl. rewrite IH. reflexivity.
Qed.

End StableSort.

(** Descending order of a string key. *)
Definition key_desc {A : Type} (key : A -> string) (x y : A) : bool :=
  String.ltb (key x) (key y).

(** Ascending order of a string key. *)
Definition key_asc {A : Type} (key : A -> string) (x y : A) : bool :=
  String.ltb (key y) (key x).

Lemma key_desc_asym {A : Type} (key : A -> string) (x y : A) :
  key_desc key x y = true -> key_desc key y x = false.
Proof. apply string_ltb_asym. Qed.

Lemma key_desc_trans {A : Type} (key : A -> string) (x y z : A) :
  key_desc key x y = false -> key_desc key y z = false -> key_desc key x z = false.
Proof. apply string_ltb_ge_trans. Qed.

Lemma key_asc_asym {A : Type} (key : A -> string) (x y : A) :
  key_asc key x y = true -> key_asc key y x = false.
Proof. apply string_ltb_asym. Qed.

Lemma key_asc_trans {A : Type} (key : A -> string) (x y z : A) :
  key_asc key x y = false -> key_asc key y z = false -> key_asc key x z = false.
Proof. unfold key_asc. intros H1 H2. apply (string_ltb_ge_trans _ (key y)); assumption. Qed.

(** ** Per-agent index files *)

(** [s.replace(c, r)] for single characters. *)
Fixpoint replace_char (c r : Ascii.ascii) (s : string) : string :=
  match s with
  | EmptyString => EmptyString
  | String a s' => String (if Ascii.eqb a c then r else a) (replace_char c r s')
  end.

(** The characters ["/"], backslash and ["_"]. *)
Definition slash : Ascii.ascii := Eval compute in Ascii.ascii_of_nat 47.
Definition backslash : Ascii.ascii := Eval compute in Ascii.ascii_of_nat 92.
Definition underscore : Ascii.ascii := Eval compute in Ascii.ascii_of_nat 95.

(** The safe file name stem of [generate_agent_indexes]: every slash, then
    every backslash, replaced by an underscore. *)
Definition safe_id (agent_id : string) : string :=
  replace_char backslash underscore (replace_char slash underscore agent_id).

(** The sort key of a history entry: [x.get("end_time") or ""]. *)
Definition end_time_key (e : HistoryEntry) : string := default "" (h_end_time e).

(** The document written for one agent. *)
Record AgentIndex := {
  ai_agent_id : string;
  ai_general : float;
  ai_werewolf : float;
  ai_villager : float;
  ai_games_played : nat;
  ai_wins : nat;
  ai_losses : nat;
  ai_games_as_werewolf : nat;
  ai_games_as_villager : nat;
  ai_wins_as_werewolf : nat;
  ai_wins_as_villager : nat;
  ai_game_history : list HistoryEntry
}.

(** The body of the loop of [generate_agent_indexes]: [agent_data] is the
    agent's entry, or the empty dict, whose every [.get] gives the default. *)
Definition agent_index_document (st : State) (agent_id : string)
    (history : list HistoryEntry) : AgentIndex :=
  let agent_data := agent_lookup agent_id (agents st) in
  let stat (g : AgentState -> nat) := default 0%nat (g <$> agent_data) in
  let elo (t : EloType) := default INITIAL_ELO (agent_data ≫= elo_field t) in
  {| ai_agent_id := agent_id;
     ai_general := elo GeneralElo;
     ai_werewolf := elo WerewolfElo;
     ai_villager := elo VillagerElo;
     ai_games_played := stat games_played;
     ai_wins := stat wins;
     ai_losses := stat losses;
     ai_games_as_werewolf := stat games_as_werewolf;
     ai_games_as_villager := stat games_as_villager;
     ai_wins_as_werewolf := stat wins_as_werewolf;
     ai_wins_as_villager := stat wins_as_villager;
     ai_game_history := py_sort (key_desc end_time_key) history |}.

(** [generate_agent_indexes] over [agent_histories.items()]: the files it
    writes under the agents directory, in the order it writes them (a later
    file of the same name replaces an earlier one). *)
Definition generate_agent_indexes (st : State)
    (items : list (string * list HistoryEntry)) : list (string * AgentIndex) :=
  map (fun item => (String.append (safe_id (fst item)) ".json",
                    agent_index_document st (fst item) (snd item))) items.

Lemma replace_char_chars (c r : Ascii.ascii) (s : string) :
  r ≠ c -> Forall (fun a => a ≠ c) (String.list_ascii_of_string (replace_char c r s)).
Proof.
  intros Hr. induction s as [|a s IH]; simpl; [constructor|].
  constructor; [|exact IH].
  destruct (Ascii.eqb_spec a c); [exact Hr|assumption].
Qed.

Lemma replace_char_keeps (c r d : Ascii.ascii) (s : string) :
  r ≠ d ->
  Forall (fun a => a ≠ d) (String.list_ascii_of_string s) ->
  Forall (fun a => a ≠ d) (String.list_ascii_of_string (replace_char c r s)).
Proof.
  intros Hr. induction s as [|a s IH]; simpl; [constructor|].
  intros H. apply Forall_cons in H as [Ha Hs]. constructor; [|apply IH, Hs].
  destruct (Ascii.eqb a c); assumption.
Qed.

Lemma replace_char_length (c r : Ascii.ascii) (s : string) :
  String.length (replace_char c r s) = String.length s.
Proof. induction s as [|a s IH]; simpl; [|rewrite IH]; reflexivity. Qed.

Lemma replace_char_clean (c r : Ascii.ascii) (s : string) :
  Forall (fun a => a ≠ c) (String.list_ascii_of_string s) -> replace_char c r s = s.
Proof.
  induction s as [|a s IH]; simpl; [reflexivity|].
  intros H. apply Forall_cons in H as [Ha Hs]. rewrite (IH Hs).
  destruct (Ascii.eqb_spec a c); [contradiction|reflexivity].
Qed.

(** X10. The file name stem [safe_id] derives from an agent identifier has
    the identifier's length and contains neither a slash nor a backslash;
    deriving it again changes nothing. *)
Theorem safe_id_no_separator (agent_id : string) :
  Forall (fun a => a ≠ slash /\ a ≠ backslash)
    (String.list_ascii_of_string (safe_id agent_id)) /\
  String.length (safe_id agent_id) = String.length agent_id /\
  safe_id (safe_id agent_id) = safe_id agent_id.
Proof.
  assert (Hslash : Forall (fun a => a ≠ slash)
                     (String.list_ascii_of_string (safe_id agent_id))).
  { apply replace_char_keeps; [discriminate|]. apply replace_char_chars. discriminate. }
  assert (Hback : Forall (fun a => a ≠ backslash)
                    (String.list_ascii_of_string (safe_id agent_id))).
  { apply replace_char_chars. discriminate. }
  split; [|split].
  - apply Forall_and. split; assumption.
  - unfold safe_id. rewrite !replace_char_length. reflexivity.
  - unfold safe_id at 1.
    rewrite (replace_char_clean slash underscore _ Hslash).
    apply replace_char_clean, Hback.
Qed.

(** X11. [generate_agent_indexes] writes one document per item, in the order
    of the items.  The history of a document is a rearrangement of the
    agent's history in descending order of the end time (a missing end time
    counts as the empty string, so it comes last), entries with the same end
    time keeping their order.  The three ratings (a missing one reading as
    the initial rating) and the seven counters of the document are those of
    the agent's entry in the state. *)
Theorem generate_agent_indexes_documents (st : State)
    (items : list (string * list HistoryEntry)) :
  map (fun f => ai_agent_id (snd f)) (generate_agent_indexes st items) = map fst items /\
  Forall2 (fun item f =>
             fst f = String.append (safe_id (fst item)) ".json" /\
             ai_game_history (snd f) ≡ₚ snd item /\
             StronglySorted
               (fun x y => String.ltb (end_time_key x) (end_time_key y) = false)
               (ai_game_history (snd f)) /\
             (forall k, List.filter (tied (key_desc end_time_key) k) (ai_game_history (snd f))
                        = List.filter (tied (key_desc end_time_key) k) (snd item)) /\
             (forall a, agent_lookup (fst item) (agents st) = Some a ->
                        ai_general (snd f) = default INITIAL_ELO (general_elo a) /\
                        ai_werewolf (snd f) = default INITIAL_ELO (werewolf_elo a) /\
                        ai_villager (snd f) = default INITIAL_ELO (villager_elo a) /\
                        ai_games_played (snd f) = games_played a /\
                        ai_wins (snd f) = wins a /\
                        ai_losses (snd f) = losses a /\
                        ai_games_as_werewolf (snd f) = games_as_werewolf a /\
                        ai_games_as_villager (snd f) = games_as_villager a /\
                        ai_wins_as_werewolf (snd f) = wins_as_werewolf a /\
                        ai_wins_as_villager (snd f) = wins_as_villager a))
    items (generate_agent_indexes st items).
Proof.
  unfold generate_agent_indexes. split.
  - rewrite map_map. reflexivity.
  - induction items as [|[agent_id history] items IH]; simpl; constructor; [|exact IH].
    simpl. split; [reflexivity|]. split; [apply py_sort_perm|]. split.
    + apply (py_sort_sorted (key_desc end_time_key));
        [apply key_desc_asym|apply key_desc_trans].
    + split.
      * intros k. apply py_sort_stable. apply key_desc_trans.
      * intros a Ha. rewrite Ha. simpl. repeat split; reflexivity.
Qed.

(** X12. An agent that has a history but no entry in the state gets a
    document with the initial rating 1000.0 three times and all counters
    zero. *)
Theorem agent_index_document_unknown (st : State) (agent_id : string)
    (history : list HistoryEntry) :
  agent_lookup agent_id (agents st) = None ->
  let doc := agent_index_document st agent_id history in
  (ai_general doc, ai_werewolf doc, ai_villager doc)
    = (F64.of_Z 1000, F64.of_Z 1000, F64.of_Z 1000) /\
  (ai_games_played doc, ai_wins doc, ai_losses doc, ai_games_as_werewolf doc,
   ai_games_as_villager doc, ai_wins_as_werewolf doc, ai_wins_as_villager doc)
    = (0, 0, 0, 0, 0, 0, 0)%nat.
Proof. intros H. unfold agent_index_document. rewrite H. split; reflexivity. Qed.

(** ** Games index *)

(** [filename.replace('.json', '')]: every occurrence of [.json], scanning
    from the left, is dropped. *)
Fixpoint strip_json (s : string) : string :=
  match s with
  | EmptyString => EmptyString
  | String c rest =>
      match rest with
      | String j (String s1 (String o (String n rest'))) =>
          if Ascii.eqb c (Ascii.ascii_of_nat 46) && Ascii.eqb j (Ascii.ascii_of_nat 106)
             && Ascii.eqb s1 (Ascii.ascii_of_nat 115) && Ascii.eqb o (Ascii.ascii_of_nat 111)
             && Ascii.eqb n (Ascii.ascii_of_nat 110)
          then strip_json rest'
          else String c (strip_json rest)
      | _ => String c (strip_json rest)
      end
  end.

(** One entry of [games.json].  [unique_agents] is built from a Python set, so
    its order is not determined: it is kept as a set. *)
Record GameIndexEntry := {
  g_filename : string;
  g_start_time : option string;
  g_end_time : option string;
  g_participants : gset string;
  g_participant_count : nat;
  g_winner : option string;
  g_traceability_url : string
}.

Record GamesIndex := { total_games : nat; games : list GameIndexEntry }.

(** The winner of the first result block that has a [winner] key. *)
Fixpoint first_winner (blocks : list ResultBlock) : option string :=
  match blocks with
  | [] => None
  | result :: rest =>
      match winner result with
      | Some w => Some w
      | None => first_winner rest
      end
  end.

Definition game_index_entry (filename : string) (game_data : GameData) : GameIndexEntry :=
  let parts := participants game_data in
  let '(start_ts, end_ts) := get_game_timestamps game_data in
  {| g_filename := filename;
     g_start_time := start_ts;
     g_end_time := end_ts;
     g_participants := list_to_set (snd <$> map_to_list parts);
     g_participant_count := size parts;
     g_winner := first_winner (results game_data);
     g_traceability_url := String.append "https://agentbeats.dev/" (strip_json filename) |}.

Definition game_end_key (g : GameIndexEntry) : string := default "" (g_end_time g).

(** [generate_games_index], without its wall-clock [last_updated]; [files] are
    the game records of the results directory by name, a processed game whose
    file is not there is passed over. *)
Definition generate_games_index (st : State) (files : gmap string GameData) : GamesIndex :=
  let names := py_sort (key_asc id) (processed_games st) in
  let entries :=
    omap (fun filename => game_index_entry filename <$> files !! filename) names in
  let sorted := py_sort (key_desc game_end_key) entries in
  {| total_games := length sorted; games := sorted |}.

Lemma omap_perm {A B : Type} (f : A -> option B) (l l' : list A) :
  l ≡ₚ l' -> omap f l ≡ₚ omap f l'.
Proof.
  induction 1 as [|x l l' _ IH|x y l|l1 l2 l3 _ IH1 _ IH2]; simpl.
  - reflexivity.
  - destruct (f x); [constructor|]; exact IH.
  - destruct (f x), (f y); try reflexivity. apply perm_swap.
  - etransitivity; eassumption.
Qed.

Lemma game_index_entry_fields (filename : string) (game_data : GameData) :
  g_filename (game_index_entry filename game_data) = filename /\
  (g_start_time (game_index_entry filename game_data),
   g_end_time (game_index_entry filename game_data)) = get_game_timestamps game_data /\
  g_participant_count (game_index_entry filename game_data) = size (participants game_data).
Proof.
  unfold game_index_entry. destruct (get_game_timestamps game_data); simpl. auto.
Qed.

(** X13. The games index lists exactly the processed games whose file
    exists, one entry for each, [total_games] of them, in descending order of
    the end time (a game without timestamps counts as the empty string and
    comes last); an entry carries the file name, the timestamps of
    [get_game_timestamps] and the number of participant slots of its game. *)
Theorem generate_games_index_entries (st : State) (files : gmap string GameData) :
  let index := generate_games_index st files in
  games index
    ≡ₚ omap (fun filename => game_index_entry filename <$> files !! filename)
         (processed_games st) /\
  total_games index = length (games index) /\
  StronglySorted
    (fun x y => String.ltb (game_end_key x) (game_end_key y) = false) (games index) /\
  Forall (fun g =>
            g_filename g ∈ processed_games st /\
            exists game_data,
              files !! g_filename g = Some game_data /\
              (g_start_time g, g_end_time g) = get_game_timestamps game_data /\
              g_participant_count g = size (participants game_data))
    (games index).
Proof.
  intros index.
  assert (Hperm : games index
            ≡ₚ omap (fun filename => game_index_entry filename <$> files !! filename)
                 (processed_games st)).
  { unfold index, generate_games_index. simpl. rewrite py_sort_perm.
    apply omap_perm, py_sort_perm. }
  split; [exact Hperm|]. split; [reflexivity|]. split.
  - apply (py_sort_sorted (key_desc game_end_key));
      [apply key_desc_asym|apply key_desc_trans].
  - rewrite Hperm. apply Forall_forall. intros g Hg.
    apply list_elem_of_omap in Hg as (filename & Hin & Hg).
    destruct (files !! filename) as [game_data|] eqn:Hfile; simpl in Hg; [|discriminate].
    injection Hg as <-.
    destruct (game_index_entry_fields filename game_data) as (-> & Hts & Hcount).
    split; [exact Hin|]. exists game_data. auto.
Qed.

Lemma strip_json_other (c : Ascii.ascii) (rest : string) :
  c ≠ Ascii.ascii_of_nat 46 -> strip_json (String c rest) = String c (strip_json rest).
Proof.
  intros Hc. apply Ascii.eqb_neq in Hc.
  destruct rest as [|j [|s1 [|o [|n rest']]]]; try reflexivity.
  cbn [strip_json]. rewrite Hc. reflexivity.
Qed.

Lemma strip_json_no_dot (s : string) :
  Forall (fun a => a ≠ Ascii.ascii_of_nat 46) (String.list_ascii_of_string s) ->
  strip_json s = s /\ strip_json (String.append s ".json") = s.
Proof.
  induction s as [|c s IH]; [intros _; split; reflexivity|].
  intros H. apply Forall_cons in H as [Hc Hs]. destruct (IH Hs) as [IH1 IH2].
  change (String.append (String c s) ".json") with (String c (String.append s ".json")).
  rewrite !(strip_json_other c _ Hc), IH1, IH2. auto.
Qed.

(** X14. For a file name [stem.json] whose stem contains no dot, the
    traceability reference of the games index is [https://agentbeats.dev/]
    followed by the stem. *)
Theorem traceability_url_stem (stem : string) (game_data : GameData) :
  Forall (fun a => a ≠ Ascii.ascii_of_nat 46) (String.list_ascii_of_string stem) ->
  g_traceability_url (game_index_entry (String.append stem ".json") game_data)
    = String.append "https://agentbeats.dev/" stem.
Proof.
  intros H. unfold game_index_entry. destruct (get_game_timestamps game_data). simpl.
  rewrite (proj2 (strip_json_no_dot stem H)). reflexivity.
Qed.

(** ** Ranks against ratings *)

Lemma StronglySorted_lookup_lt {A : Type} (R : A -> A -> Prop) (l : list A) :
  StronglySorted R l ->
  forall i j x y, l !! i = Some x -> l !! j = Some y -> (i < j)%nat -> R x y.
Proof.
  induction 1 as [|a l Hs IH Ha]; intros i j x y Hi Hj Hlt; [discriminate|].
  destruct j as [|j]; [lia|]. simpl in Hj.
  destruct i as [|i]; simpl in Hi.
  - injection Hi as <-. rewrite Forall_forall in Ha. apply Ha.
    apply list_elem_of_lookup. eauto.
  - apply (IH i j); [assumption|assumption|lia].
Qed.

Lemma add_ranks_lookup_entry (l : list Ranking) :
  forall i j e, add_ranks i l !! j = Some e -> l !! j = Some (entry e).
Proof.
  induction l as [|r l IH]; intros i j e; simpl; [discriminate|].
  destruct j as [|j]; simpl; [intros [= <-]; reflexivity|apply IH].
Qed.

(** X15. On the leaderboard of a state whose played agents have no nan
    general rating, an entry with a strictly greater general rating has a
    strictly smaller rank number. *)
Theorem leaderboard_rank_respects_rating (st : State) (e1 e2 : RankedEntry) :
  Forall (fun p => played p = true ->
                   is_nan (default INITIAL_ELO (general_elo (snd p))) = false) (agents st) ->
  e1 ∈ rankings (generate_leaderboard_index st) ->
  e2 ∈ rankings (generate_leaderboard_index st) ->
  (r_general_elo (entry e2) <? r_general_elo (entry e1))%float = true ->
  (rank e1 < rank e2)%nat.
Proof.
  intros Hnan H1 H2 Hlt.
  apply list_elem_of_lookup in H1 as [i Hi]. apply list_elem_of_lookup in H2 as [j Hj].
  unfold generate_leaderboard_index in Hi, Hj. simpl in Hi, Hj.
  rewrite (add_ranks_lookup _ _ _ _ Hi), (add_ranks_lookup _ _ _ _ Hj).
  apply add_ranks_lookup_entry in Hi, Hj.
  assert (Hsorted : StronglySorted desc
            (sort_by_general_elo_desc (collect_rankings (agents st)))).
  { rewrite collect_rankings_filter.
    apply sort_desc_sorted, Forall_map, Forall_filter_bool. exact Hnan. }
  destruct (decide (i < j)%nat) as [|Hge]; [lia|]. exfalso.
  destruct (decide (i = j)) as [->|Hne].
  - rewrite Hi in Hj. injection Hj as Hj. rewrite Hj in Hlt.
    pose proof (ltb_asym _ _ Hlt) as H. congruence.
  - pose proof (StronglySorted_lookup_lt _ _ Hsorted j i _ _ Hj Hi ltac:(lia)) as H.
    unfold desc in H. congruence.
Qed.

(** ** What a game changes for one agent *)

(** The number of applied score entries whose player is mapped to
    [agent_id]. *)
Definition seats_of (parts : gmap string string) (agent_id : string)
    (scores_list : list Score) : nat :=
  length (List.filter
            (fun s => applied parts s
                      && String.eqb (default "" (parts !! player_name s)) agent_id)
            scores_list).

Section AgentFacts.

Variable libm_pow10 : float -> float.

Lemma score_loop_agent (filename : string) (parts : gmap string string)
    (start_ts end_ts : option string) (agent_id : string)
    (todo : list Score) (ls ls' : LoopState) :
  score_loop libm_pow10 filename parts start_ts end_ts todo ls = Some ls' ->
  games_played (default new_agent (agent_lookup agent_id (agents (l_state ls'))))
    = (games_played (default new_agent (agent_lookup agent_id (agents (l_state ls))))
       + seats_of parts agent_id todo)%nat /\
  (seats_of parts agent_id todo = 0%nat ->
   agent_lookup agent_id (agents (l_state ls')) = agent_lookup agent_id (agents (l_state ls)) /\
   l_histories ls' !! agent_id = l_histories ls !! agent_id) /\
  ((0 < seats_of parts agent_id todo)%nat ->
   exists earlier e,
     l_histories ls' !! agent_id = Some (earlier ++ [e]) /\
     get_agent_elo (l_state ls') agent_id GeneralElo = h_elo_after e).
Proof.
  revert todo ls ls'.
  apply (score_loop_ind libm_pow10 (fun ls todo ls' =>
    games_played (default new_agent (agent_lookup agent_id (agents (l_state ls'))))
      = (games_played (default new_agent (agent_lookup agent_id (agents (l_state ls))))
         + seats_of parts agent_id todo)%nat /\
    (seats_of parts agent_id todo = 0%nat ->
     agent_lookup agent_id (agents (l_state ls'))
       = agent_lookup agent_id (agents (l_state ls)) /\
     l_histories ls' !! agent_id = l_histories ls !! agent_id) /\
    ((0 < seats_of parts agent_id todo)%nat ->
     exists earlier e,
       l_histories ls' !! agent_id = Some (earlier ++ [e]) /\
       get_agent_elo (l_state ls') agent_id GeneralElo = h_elo_after e))).
  - intros ls. unfold seats_of. simpl. repeat split; try lia.
  - intros ls score rest ls1 ls2 Hstep (IHg & IHsame & IHlast).
    unfold seats_of in *. simpl.
    apply score_step_cases in Hstep as [[Ha Hls]|[Ha Hstep]]; rewrite Ha; simpl.
    { rewrite Hls in IHg, IHsame. simpl in *. auto. }
    destruct Hstep as (delta & new_elo & role_value & e & score' & Hls & _ & _ & _ & _ & He & _).
    cbv zeta in Hls. set (aid := default "" (parts !! player_name score)) in *.
    assert (Hlook1 : agent_lookup agent_id (agents (l_state ls1))
              = if String.eqb aid agent_id
                then Some (entry_update (default "" (team score)) (default false (won score))
                             new_elo role_value
                             (default new_agent (agent_lookup aid (agents (l_state ls)))))
                else agent_lookup agent_id (agents (l_state ls))).
    { rewrite Hls. unfold modify_agent. simpl.
      destruct (String.eqb_spec aid agent_id) as [<-|Hne].
      - rewrite agent_lookup_modify, agent_lookup_init. reflexivity.
      - rewrite agent_lookup_modify_other by congruence.
        unfold init_agent_state. destruct (agent_lookup aid (agents (l_state ls))); simpl;
          [reflexivity|]. apply agent_lookup_app_other. congruence. }
    assert (Hhist1 : l_histories ls1 !! agent_id
              = if String.eqb aid agent_id
                then Some (default [] (l_histories ls !! aid) ++ [e])
                else l_histories ls !! agent_id).
    { rewrite Hls. simpl. destruct (String.eqb_spec aid agent_id) as [<-|Hne].
      - apply lookup_insert_eq.
      - apply lookup_insert_ne, Hne. }
    assert (Helo1 : String.eqb aid agent_id = true ->
              get_agent_elo (l_state ls1) agent_id GeneralElo = h_elo_after e).
    { intros Heq. unfold get_agent_elo. rewrite Hlook1, Heq, He.
      unfold entry_update, count_game, role_elo, compose.
      destruct (default false (won score)), (String.eqb (default "" (team score)) "werewolves");
        reflexivity. }
    destruct (String.eqb_spec aid agent_id) as [Heq|Hne]; simpl.
    + subst agent_id. specialize (Helo1 eq_refl).
      split; [|split].
      * rewrite IHg, Hlook1. cbn [default from_option id].
        rewrite (proj1 (entry_update_counters _ _ _ _ _)). simpl. lia.
      * intros H. lia.
      * intros _. destruct (Nat.eq_dec
          (length (List.filter (fun s => applied parts s
             && String.eqb (default "" (parts !! player_name s)) aid) rest)) 0)
          as [Hz|Hnz].
        -- destruct (IHsame Hz) as [Hl Hh].
           exists (default [] (l_histories ls !! aid)), e.
           split; [rewrite Hh; exact Hhist1|].
           unfold get_agent_elo in *. rewrite Hl. exact Helo1.
        -- apply IHlast. lia.
    + rewrite Hlook1 in IHg, IHsame. rewrite Hhist1 in IHsame.
      split; [exact IHg|]. split; [exact IHsame|exact IHlast].
Qed.

(** X16. For every agent, a folded game adds to [games_played] the number of
    applied score entries mapped to that agent (a new agent starts from
    zero).  An agent without such an entry keeps its entry and its history
    exactly; an agent with one ends with a history whose last entry has the
    agent's new general rating as [elo_after]. *)
Theorem process_game_per_agent (st : State) (filename : string) (game_data : GameData)
    (hist : gmap string (list HistoryEntry)) (o : Outcome) (scores_list : list Score)
    (agent_id : string) :
  filename ∉ processed_games st ->
  is_valid_game game_data = true ->
  find_scores (results game_data) = Some scores_list ->
  process_game libm_pow10 st filename game_data hist = Some o ->
  let seats := seats_of (participants game_data) agent_id scores_list in
  games_played (default new_agent (agent_lookup agent_id (agents (out_state o))))
    = (games_played (default new_agent (agent_lookup agent_id (agents st))) + seats)%nat /\
  (seats = 0%nat ->
   agent_lookup agent_id (agents (out_state o)) = agent_lookup agent_id (agents st) /\
   out_histories o !! agent_id = hist !! agent_id) /\
  ((0 < seats)%nat ->
   exists earlier e,
     out_histories o !! agent_id = Some (earlier ++ [e]) /\
     get_agent_elo (out_state o) agent_id GeneralElo = h_elo_after e).
Proof.
  intros Hnot Hvalid Hfind Hrun.
  apply process_game_cases in Hrun as [[-> [Hin|Hinv]]|(_ & _ & l & ls & Hf & Hloop & ->)];
    [contradiction|congruence|].
  rewrite Hfind in Hf. injection Hf as <-.
  apply (score_loop_agent _ _ _ _ agent_id) in Hloop. exact Hloop.
Qed.

End AgentFacts.

(** ** Opponents' average and the stored deltas *)

Lemma collect_opponent_elos_same_players (st : State) (parts : gmap string string)
    (name team_label : string) (t : EloType) (l l' : list Score) :
  Forall2 (fun s s' => player_name s' = player_name s /\ team s' = team s) l l' ->
  forall acc,
    collect_opponent_elos st parts name team_label t l' acc
      = collect_opponent_elos st parts name team_label t l acc.
Proof.
  induction 1 as [|s s' l l' [Hn Ht] _ IH]; intros acc; simpl; [reflexivity|].
  rewrite Hn, Ht.
  destruct (String.eqb (player_name s) name); [apply IH|].
  destruct (negb _); [|apply IH].
  destruct (nonempty _); apply IH.
Qed.

(** X17. The opponents' average reads only the player names and team labels
    of the scores list: two lists that agree on these, entry by entry, give
    the same average, whatever deltas and ratings are stored in them.  So the
    in-place rewriting of the entries during the loop of [process_game] never
    influences a rating. *)
Theorem get_opponents_avg_elo_ignores_stored (st : State) (parts : gmap string string)
    (name team_label : string) (t : EloType) (l l' : list Score) :
  Forall2 (fun s s' => player_name s' = player_name s /\ team s' = team s) l l' ->
  get_opponents_avg_elo st parts name team_label l' t
    = get_opponents_avg_elo st parts name team_label l t.
Proof.
  intros H. unfold get_opponents_avg_elo.
  rewrite (collect_opponent_elos_same_players _ _ _ _ _ _ _ H). reflexivity.
Qed.

(** ** Processing a rewritten game again *)

(** The values stored in a score entry are numbers (not nan). *)
Definition stored_numbers (s : Score) : Prop :=
  (forall d, elo_delta s = Some d -> is_nan d = false) /\
  (forall a, elo_after s = Some a -> is_nan a = false).

Definition same_players (l l' : list Score) : Prop :=
  Forall2 (fun s s' => player_name s' = player_name s /\ team s' = team s) l l'.

Lemma differs_same (x : float) : is_nan x = false -> differs (Some x) x = false.
Proof. unfold differs, is_nan. intros H. apply negb_false_iff in H. rewrite H. reflexivity. Qed.

Lemma score_updated_same_players (parts : gmap string string) (l l' : list Score) :
  Forall2 (score_updated parts) l l' -> same_players l l'.
Proof.
  unfold same_players. induction 1 as [|s s' l l' H _ IH]; constructor; [|exact IH].
  destruct H as (Hn & Ht & _). auto.
Qed.

Section ReplayFromFile.

Variable libm_pow10 : float -> float.

Lemma score_step_again (filename : string) (parts : gmap string string)
    (start_ts end_ts : option string) (rest rest2 : list Score)
    (ls ls1 ls2 : LoopState) (s s2 : Score) :
  score_step libm_pow10 filename parts start_ts end_ts rest ls s = Some ls1 ->
  l_done ls1 = l_done ls ++ [s2] ->
  l_state ls2 = l_state ls -> l_histories ls2 = l_histories ls ->
  same_players (l_done ls) (l_done ls2) -> same_players rest rest2 ->
  stored_numbers s2 ->
  exists ls3,
    score_step libm_pow10 filename parts start_ts end_ts rest2 ls2 s2 = Some ls3 /\
    l_state ls3 = l_state ls1 /\ l_histories ls3 = l_histories ls1 /\
    l_done ls3 = l_done ls2 ++ [s2] /\ l_modified ls3 = l_modified ls2.
Proof.
  intros Hstep Hdone Hst Hhist Hsame Hrest [Hd Ha].
  unfold score_step in Hstep.
  destruct (nonempty (default "" (parts !! player_name s))) eqn:Hid; simpl in Hstep.
  2: { injection Hstep as <-. simpl in Hdone. apply app_inj_tail in Hdone as [_ <-].
       unfold score_step. rewrite Hid. simpl. eexists. split; [reflexivity|].
       simpl. auto. }
  destruct (calculate_elo_delta _ _ _ _) as [delta|] eqn:Edelta; simpl in Hstep;
    [|discriminate].
  destruct (update_agent_stats _ _ _ _ _ _ _) as [st'|] eqn:Eupd; simpl in Hstep;
    [|discriminate].
  injection Hstep as <-. simpl in Hdone. apply app_inj_tail in Hdone as [_ Hs2].
  set (new_elo := F64.round1
         (get_agent_elo (init_agent_state (l_state ls) (default "" (parts !! player_name s)))
            (default "" (parts !! player_name s)) GeneralElo + delta)%float) in *.
  assert (Hfields : player_name s2 = player_name s /\ team s2 = team s /\ role s2 = role s /\
                    won s2 = won s /\ aggregate_score s2 = aggregate_score s /\
                    differs (elo_delta s2) delta = false /\
                    differs (elo_after s2) new_elo = false).
  { rewrite <- Hs2.
    destruct (differs (elo_delta s) delta) eqn:E1; simpl.
    - repeat split; apply differs_same.
      + apply (Hd delta). rewrite <- Hs2, ?E1. reflexivity.
      + apply (Ha new_elo). rewrite <- Hs2, ?E1. reflexivity.
    - destruct (differs (elo_after s) new_elo) eqn:E2; simpl.
      + repeat split; apply differs_same.
        * apply (Hd delta). rewrite <- Hs2, ?E1, ?E2. reflexivity.
        * apply (Ha new_elo). rewrite <- Hs2, ?E1, ?E2. reflexivity.
      + repeat split; assumption. }
  destruct Hfields as (Hn & Ht & Hr & Hw & Hagg & Hdd & Hda).
  assert (Havg :
    get_opponents_avg_elo
      (init_agent_state (l_state ls) (default "" (parts !! player_name s))) parts
      (player_name s) (default "" (team s)) (l_done ls2 ++ s2 :: rest2) GeneralElo
    = get_opponents_avg_elo
        (init_agent_state (l_state ls) (default "" (parts !! player_name s))) parts
        (player_name s) (default "" (team s)) (l_done ls ++ s :: rest) GeneralElo).
  { unfold get_opponents_avg_elo.
    rewrite (collect_opponent_elos_same_players _ _ _ _ _
               (l_done ls ++ s :: rest) (l_done ls2 ++ s2 :: rest2)); [reflexivity|].
    apply Forall2_app; [exact Hsame|]. constructor; [auto|exact Hrest]. }
  unfold score_step. rewrite Hn, Ht, Hr, Hw, Hagg, Hid, Hst, Hhist. simpl.
  rewrite Havg, Edelta. simpl. fold new_elo. rewrite Hdd, Hda, Eupd. simpl.
  eexists. split; [reflexivity|]. simpl.
  repeat split. destruct (l_modified ls2); reflexivity.
Qed.

Lemma score_step_done (filename : string) (parts : gmap string string)
    (start_ts end_ts : option string) (rest : list Score) (ls ls1 : LoopState) (s : Score) :
  score_step libm_pow10 filename parts start_ts end_ts rest ls s = Some ls1 ->
  exists s2, l_done ls1 = l_done ls ++ [s2].
Proof.
  intros H. apply score_step_cases in H as [[_ ->]|[_ H]]; [eauto|].
  destruct H as (delta & new_elo & role_value & e & score' & Hls & _).
  exists score'. rewrite Hls. reflexivity.
Qed.

Lemma score_loop_again (filename : string) (parts : gmap string string)
    (start_ts end_ts : option string) (todo : list Score) :
  forall ls final ls2 written,
    score_loop libm_pow10 filename parts start_ts end_ts todo ls = Some final ->
    l_done final = l_done ls ++ written ->
    l_state ls2 = l_state ls -> l_histories ls2 = l_histories ls ->
    same_players (l_done ls) (l_done ls2) ->
    Forall stored_numbers written ->
    exists final2,
      score_loop libm_pow10 filename parts start_ts end_ts written ls2 = Some final2 /\
      l_state final2 = l_state final /\ l_histories final2 = l_histories final /\
      l_done final2 = l_done ls2 ++ written /\ l_modified final2 = l_modified ls2.
Proof.
  induction todo as [|s rest IH]; simpl; intros ls final ls2 written.
  - intros [= <-] Hdone Hst Hhist Hsame Hnum.
    rewrite <- (app_nil_r (l_done ls)) in Hdone at 1.
    apply app_inv_head in Hdone as <-. exists ls2. simpl. rewrite app_nil_r. auto.
  - destruct (score_step _ _ _ _ _ _ _ _) as [ls1|] eqn:Estep; simpl; [|discriminate].
    intros Hloop Hdone Hst Hhist Hsame Hnum.
    destruct (score_step_done _ _ _ _ _ _ _ _ Estep) as [s2 Hs2].
    destruct (score_loop_done _ _ _ _ _ _ _ _ Hloop) as (w_rest & Hw & Hupd & _).
    rewrite Hw, Hs2, <- app_assoc in Hdone. apply app_inv_head in Hdone. simpl in Hdone.
    subst written. apply Forall_cons in Hnum as [Hn2 Hnrest].
    destruct (score_step_again _ _ _ _ rest w_rest ls ls1 ls2 s s2
                Estep Hs2 Hst Hhist Hsame (score_updated_same_players _ _ _ Hupd) Hn2)
      as (ls3 & Estep2 & Hst3 & Hhist3 & Hdone3 & Hmod3).
    assert (Hsame3 : same_players (l_done ls1) (l_done ls3)).
    { rewrite Hs2, Hdone3. apply Forall2_app; [exact Hsame|]. repeat constructor. }
    destruct (IH ls1 final ls3 w_rest Hloop Hw Hst3 Hhist3 Hsame3 Hnrest)
      as (final2 & Eloop2 & Hstf & Hhistf & Hdonef & Hmodf).
    exists final2. simpl. rewrite Estep2. simpl.
    split; [exact Eloop2|]. split; [exact Hstf|]. split; [exact Hhistf|].
    split; [rewrite Hdonef, Hdone3, <- app_assoc; reflexivity|congruence].
Qed.

(** X18. Starting over from the same state with the game record a fold left
    behind gives the same state and the same histories and reports no
    modification, provided the stored deltas and ratings are numbers: the
    recomputed values equal the stored ones, so the file is not written a
    second time. *)
Theorem process_game_rewritten_unmodified (st : State) (filename : string)
    (game_data : GameData) (hist : gmap string (list HistoryEntry)) (o : Outcome)
    (written : list Score) :
  filename ∉ processed_games st ->
  is_valid_game game_data = true ->
  process_game libm_pow10 st filename game_data hist = Some o ->
  find_scores (results (out_game o)) = Some written ->
  Forall stored_numbers written ->
  process_game libm_pow10 st filename (out_game o) hist
    = Some {| out_state := out_state o; out_histories := out_histories o;
              out_game := out_game o; out_modified := false |}.
Proof.
  intros Hnot Hvalid Hrun Hfind Hnum.
  apply process_game_cases in Hrun as [[-> [Hin|Hinv]]|(_ & _ & l & ls & Hf & Hloop & ->)];
    [contradiction|congruence|].
  simpl in Hfind. rewrite (find_scores_replace _ _ _ Hf) in Hfind. injection Hfind as <-.
  destruct (score_loop_done _ _ _ _ _ _ _ _ Hloop) as (w & Hw & Hupd & _). simpl in Hw.
  unfold is_valid_game in Hvalid. rewrite Hf in Hvalid.
  apply andb_true_iff in Hvalid as [Hsize Hne].
  destruct l as [|s0 l0]; [discriminate|].
  assert (Hnil : same_players [] []) by constructor.
  destruct (score_loop_again _ _ _ _ _ _ _
              {| l_state := st; l_histories := hist; l_done := []; l_modified := false |}
              (l_done ls) Hloop eq_refl eq_refl eq_refl Hnil Hnum)
    as (final2 & Eloop2 & Hstf & Hhistf & Hdonef & Hmodf).
  simpl in Hdonef, Hmodf.
  assert (Hlogs : map action_log (replace_scores (results game_data) (l_done ls))
                  = map action_log (results game_data))
    by apply replace_scores_logs.
  assert (Hts : get_game_timestamps
                  {| participants := participants game_data;
                     results := replace_scores (results game_data) (l_done ls) |}
                = get_game_timestamps game_data)
    by (apply get_game_timestamps_logs; exact Hlogs).
  assert (Hsame : replace_scores (replace_scores (results game_data) (l_done ls)) (l_done ls)
                  = replace_scores (results game_data) (l_done ls))
    by (apply replace_scores_same; eapply find_scores_replace, Hf).
  assert (Hcons : exists s0' l0', l_done ls = s0' :: l0').
  { rewrite Hw. inversion Hupd; eauto. }
  destruct Hcons as (s0' & l0' & Ed).
  unfold process_game, get_participants_from_game.
  cbn [out_game out_state out_histories participants results].
  rewrite decide_False by exact Hnot. rewrite Hsize. cbn [negb].
  rewrite (find_scores_replace _ _ (l_done ls) Hf), Hts.
  rewrite Ed at 1. cbv iota.
  revert Eloop2. destruct (get_game_timestamps game_data) as [start_ts end_ts].
  cbn [fst snd]. intros ->. cbn [mbind option_bind].
  rewrite Hstf, Hhistf, Hdonef, Hmodf, Hsame. reflexivity.
Qed.

End ReplayFromFile.

(** * Concrete runs for the further properties *)

Definition first_game : GameData := example_game (example_wolves ++ example_villagers).

(** The game record the first fold leaves on disk. *)
Definition rewritten_game : GameData := default first_game (out_game <$> wolves_first).

Lemma first_game_not_processed : "game_001.json" ∉ processed_games initial_state.
Proof. apply not_elem_of_nil. Qed.

Lemma first_game_valid : is_valid_game first_game = true.
Proof. vm_compute. reflexivity. Qed.

Lemma wolves_first_unfold :
  wolves_first = process_game F64.pow10_ref initial_state "game_001.json" first_game ∅.
Proof. reflexivity. Qed.

Lemma first_game_run :
  exists o, process_game F64.pow10_ref initial_state "game_001.json" first_game ∅ = Some o.
Proof. destruct wolves_first_outcome as (o & Ho & _). exists o. exact Ho. Qed.

Lemma process_game_keeps_agents_witness :
  exists o,
    process_game F64.pow10_ref initial_state "game_001.json" first_game ∅ = Some o /\
    exists added,
      agent_ids (out_state o) = agent_ids initial_state ++ added /\
      (NoDup (agent_ids initial_state) -> NoDup (agent_ids (out_state o))).
Proof.
  destruct first_game_run as [o Ho]. exists o. split; [exact Ho|].
  exact (process_game_keeps_agents F64.pow10_ref initial_state "game_001.json"
           first_game ∅ o Ho).
Defined.

Lemma process_game_conservation_witness :
  ("game_001.json" ∉ processed_games initial_state) /\
  size (participants first_game) = 8%nat /\
  find_scores (results first_game) = Some (example_wolves ++ example_villagers) /\
  exists o,
    process_game F64.pow10_ref initial_state "game_001.json" first_game ∅ = Some o /\
    total games_played (out_state o) = 8%nat /\
    total wins (out_state o) = 2%nat /\
    total losses (out_state o) = 6%nat.
Proof.
  split; [exact first_game_not_processed|].
  assert (Hsize : size (participants first_game) = 8%nat) by (vm_compute; reflexivity).
  assert (Hfind : find_scores (results first_game)
                  = Some (example_wolves ++ example_villagers)) by reflexivity.
  split; [exact Hsize|]. split; [exact Hfind|].
  destruct first_game_run as [o Ho]. exists o. split; [exact Ho|].
  exact (process_game_conservation F64.pow10_ref initial_state "game_001.json"
           first_game ∅ o _ first_game_not_processed Hsize Hfind Ho).
Defined.

Lemma process_game_history_append_witness :
  exists o,
    process_game F64.pow10_ref initial_state "game_001.json" first_game ∅ = Some o /\
    exists added,
      default [] (out_histories o !! "agent-1")
        = default [] ((∅ : gmap string (list HistoryEntry)) !! "agent-1") ++ added /\
      Forall (entry_of_game "game_001.json") added.
Proof.
  destruct first_game_run as [o Ho]. exists o. split; [exact Ho|].
  exact (process_game_history_append F64.pow10_ref initial_state "game_001.json"
           first_game ∅ o "agent-1" Ho).
Defined.

Lemma process_game_rewrites_scores_witness :
  ("game_001.json" ∉ processed_games initial_state) /\
  is_valid_game first_game = true /\
  find_scores (results first_game) = Some (example_wolves ++ example_villagers) /\
  exists o,
    process_game F64.pow10_ref initial_state "game_001.json" first_game ∅ = Some o /\
    participants (out_game o) = participants first_game /\
    get_game_timestamps (out_game o) = get_game_timestamps first_game.
Proof.
  split; [exact first_game_not_processed|]. split; [exact first_game_valid|].
  split; [reflexivity|].
  destruct first_game_run as [o Ho]. exists o. split; [exact Ho|].
  destruct (process_game_rewrites_scores F64.pow10_ref initial_state "game_001.json"
              first_game ∅ o _ first_game_not_processed first_game_valid eq_refl Ho)
    as (Hp & _ & _ & Hts & _).
  split; [exact Hp|exact Hts].
Defined.

Lemma process_game_unmodified_file_witness :
  exists o,
    process_game F64.pow10_ref initial_state "game_001.json" rewritten_game ∅ = Some o /\
    out_modified o = false /\
    out_game o = rewritten_game.
Proof.
  eexists. split; [vm_compute; reflexivity|].
  eassert (Hrun : process_game F64.pow10_ref initial_state "game_001.json"
                    rewritten_game ∅ = Some _) by (vm_compute; reflexivity).
  assert (Hmod : out_modified
                   (default (skipped initial_state rewritten_game ∅)
                      (process_game F64.pow10_ref initial_state "game_001.json"
                         rewritten_game ∅)) = false) by (vm_compute; reflexivity).
  rewrite Hrun in Hmod. simpl in Hmod.
  split; [exact Hmod|].
  exact (process_game_unmodified_file F64.pow10_ref initial_state "game_001.json"
           rewritten_game ∅ _ Hrun Hmod).
Defined.

Definition example_files : list (string * GameData) :=
  [("game_001.json", first_game); ("game_002.json", short_roster_game)].

Lemma example_files_run :
  exists st' hist',
    process_result_files F64.pow10_ref initial_state ∅ example_files = Some (st', hist').
Proof.
  destruct (process_result_files F64.pow10_ref initial_state ∅ example_files)
    as [[st' hist']|] eqn:E; [eauto|].
  vm_compute in E. discriminate.
Qed.

Lemma process_result_files_marks_witness :
  exists st' hist',
    process_result_files F64.pow10_ref initial_state ∅ example_files = Some (st', hist') /\
    forall filename game_data,
      (filename, game_data) ∈ example_files ->
      filename ∈ processed_games st' \/ is_valid_game game_data = false.
Proof.
  destruct example_files_run as (st' & hist' & Hrun). exists st', hist'.
  split; [exact Hrun|].
  exact (proj1 (process_result_files_marks F64.pow10_ref initial_state st' ∅ hist'
                  example_files Hrun)).
Defined.

Lemma process_result_files_idempotent_witness :
  exists st' hist',
    process_result_files F64.pow10_ref initial_state ∅ example_files = Some (st', hist') /\
    process_result_files F64.pow10_ref st' hist' example_files = Some (st', hist').
Proof.
  destruct example_files_run as (st' & hist' & Hrun). exists st', hist'.
  split; [exact Hrun|].
  exact (process_result_files_idempotent F64.pow10_ref initial_state st' ∅ hist'
           example_files Hrun).
Defined.

Lemma agent_index_document_unknown_witness :
  agent_lookup "agent-9" (agents rated_state) = None /\
  ai_games_played (agent_index_document rated_state "agent-9" []) = 0%nat.
Proof.
  assert (H : agent_lookup "agent-9" (agents rated_state) = None) by reflexivity.
  split; [exact H|].
  pose proof (proj2 (agent_index_document_unknown rated_state "agent-9" [] H)) as Hdoc.
  cbv zeta in Hdoc. congruence.
Defined.

Lemma traceability_url_stem_witness :
  Forall (fun a => a ≠ Ascii.ascii_of_nat 46) (String.list_ascii_of_string "game_001") /\
  g_traceability_url (game_index_entry "game_001.json" first_game)
    = "https://agentbeats.dev/game_001".
Proof.
  assert (H : Forall (fun a => a ≠ Ascii.ascii_of_nat 46)
                (String.list_ascii_of_string "game_001"))
    by (repeat constructor; discriminate).
  split; [exact H|].
  exact (traceability_url_stem "game_001" first_game H).
Defined.

Definition first_ranked : RankedEntry :=
  {| rank := 1; entry := make_ranking "agent-1" (rated_agent 1250 4 3) |}.
Definition second_ranked : RankedEntry :=
  {| rank := 2; entry := make_ranking "agent-3" (rated_agent 1200 3 2) |}.

Lemma leaderboard_rank_respects_rating_witness :
  first_ranked ∈ rankings (generate_leaderboard_index rated_state) /\
  second_ranked ∈ rankings (generate_leaderboard_index rated_state) /\
  (r_general_elo (entry second_ranked) <? r_general_elo (entry first_ranked))%float = true /\
  (rank first_ranked < rank second_ranked)%nat.
Proof.
  assert (H1 : first_ranked ∈ rankings (generate_leaderboard_index rated_state)).
  { apply list_elem_of_In. vm_compute. left. reflexivity. }
  assert (H2 : second_ranked ∈ rankings (generate_leaderboard_index rated_state)).
  { apply list_elem_of_In. vm_compute. right. left. reflexivity. }
  assert (Hlt : (r_general_elo (entry second_ranked)
                 <? r_general_elo (entry first_ranked))%float = true) by reflexivity.
  split; [exact H1|]. split; [exact H2|]. split; [exact Hlt|].
  exact (leaderboard_rank_respects_rating rated_state first_ranked second_ranked
           rated_state_no_nan H1 H2 Hlt).
Defined.

Lemma process_game_per_agent_witness :
  ("game_001.json" ∉ processed_games initial_state) /\
  is_valid_game first_game = true /\
  exists o,
    process_game F64.pow10_ref initial_state "game_001.json" first_game ∅ = Some o /\
    games_played (default new_agent (agent_lookup "agent-1" (agents (out_state o)))) = 1%nat.
Proof.
  split; [exact first_game_not_processed|]. split; [exact first_game_valid|].
  destruct first_game_run as [o Ho]. exists o. split; [exact Ho|].
  exact (proj1 (process_game_per_agent F64.pow10_ref initial_state "game_001.json"
                  first_game ∅ o _ "agent-1" first_game_not_processed first_game_valid
                  eq_refl Ho)).
Defined.

Lemma rewritten_game_numbers :
  exists written,
    find_scores (results rewritten_game) = Some written /\ Forall stored_numbers written.
Proof.
  eexists. split; [vm_compute; reflexivity|].
  repeat constructor; intros x [= <-]; reflexivity.
Qed.

Lemma process_game_rewritten_unmodified_witness :
  ("game_001.json" ∉ processed_games initial_state) /\
  is_valid_game first_game = true /\
  exists o,
    process_game F64.pow10_ref initial_state "game_001.json" first_game ∅ = Some o /\
    process_game F64.pow10_ref initial_state "game_001.json" (out_game o) ∅
      = Some {| out_state := out_state o; out_histories := out_histories o;
                out_game := out_game o; out_modified := false |}.
Proof.
  split; [exact first_game_not_processed|]. split; [exact first_game_valid|].
  destruct first_game_run as [o Ho]. exists o. split; [exact Ho|].
  destruct rewritten_game_numbers as (written & Hfind & Hnum).
  unfold rewritten_game in Hfind. rewrite wolves_first_unfold, Ho in Hfind.
  cbn [fmap option_fmap option_map default from_option id] in Hfind.
  exact (process_game_rewritten_unmodified F64.pow10_ref initial_state "game_001.json"
           first_game ∅ o written first_game_not_processed first_game_valid Ho Hfind Hnum).
Defined.

(** ** The first block with scores decides *)

Section FirstBlock.

Variable libm_pow10 : float -> float.

Lemma find_scores_first (before after : list ResultBlock) (block : ResultBlock)
    (l : list Score) :
  Forall (fun result => scores result = None) before ->
  scores block = Some l ->
  find_scores (before ++ block :: after) = Some l.
Proof.
  intros Hbefore Hblock. induction Hbefore as [|result before Hr _ IH]; simpl.
  - rewrite Hblock. reflexivity.
  - rewrite Hr. exact IH.
Qed.

(** X19. Only the first result block that has a [scores] key is looked at:
    when that block's list is empty the game is rejected and nothing changes,
    whatever scores the later blocks hold; when it is not empty, the scores of
    later blocks are never read. *)
Theorem process_game_first_scores_block (st : State) (filename : string)
    (parts : gmap string string) (before after after' : list ResultBlock)
    (block : ResultBlock) (hist : gmap string (list HistoryEntry)) :
  Forall (fun result => scores result = None) before ->
  (scores block = Some [] ->
   process_game libm_pow10 st filename
     {| participants := parts; results := before ++ block :: after |} hist
   = Some (skipped st {| participants := parts; results := before ++ block :: after |} hist)) /\
  (is_Some (scores block) ->
   map action_log after' = map action_log after ->
   out_state <$> process_game libm_pow10 st filename
                   {| participants := parts; results := before ++ block :: after' |} hist
   = out_state <$> process_game libm_pow10 st filename
                     {| participants := parts; results := before ++ block :: after |} hist).
Proof.
  intros Hbefore. split.
  - intros Hblock. apply process_game_invalid. unfold is_valid_game. simpl.
    rewrite (find_scores_first _ _ _ _ Hbefore Hblock). apply andb_false_r.
  - intros [l Hblock] Hlogs.
    assert (Hts : get_game_timestamps
                    {| participants := parts; results := before ++ block :: after' |}
                  = get_game_timestamps
                      {| participants := parts; results := before ++ block :: after |}).
    { apply get_game_timestamps_logs. simpl. rewrite !map_app. simpl. rewrite Hlogs.
      reflexivity. }
    unfold process_game, get_participants_from_game. cbn [participants results].
    rewrite !(find_scores_first _ _ _ _ Hbefore Hblock), Hts.
    destruct (decide _); [reflexivity|].
    destruct (negb _); [reflexivity|].
    destruct l as [|s l]; [reflexivity|].
    clear Hts. destruct (get_game_timestamps _) as [start_ts end_ts]. cbv beta iota.
    destruct (score_loop _ _ _ _ _ _ _) as [ls|]; reflexivity.
Qed.

End FirstBlock.

Definition empty_scores_block : ResultBlock :=
  {| scores := Some []; winner := None; action_log := [] |}.

Lemma process_game_first_scores_block_witness :
  Forall (fun result => scores result = None) [] /\
  process_game F64.pow10_ref initial_state "game_003.json"
    {| participants := example_participants;
       results := empty_scores_block :: results first_game |} ∅
  = Some (skipped initial_state
            {| participants := example_participants;
               results := empty_scores_block :: results first_game |} ∅).
Proof.
  assert (H : Forall (fun result => scores result = None) (@nil ResultBlock))
    by constructor.
  split; [exact H|].
  exact (proj1 (process_game_first_scores_block F64.pow10_ref initial_state
                  "game_003.json" example_participants [] (results first_game)
                  (results first_game) empty_scores_block ∅ H) eq_refl).
Defined.

(** ** Distinct agents on the leaderboard *)

Lemma elem_of_map_fst_filter (f : string * AgentState -> bool) (k : string)
    (l : list (string * AgentState)) :
  k ∈ map fst (List.filter f l) -> k ∈ map fst l.
Proof.
  induction l as [|p l IH]; simpl; [auto|].
  destruct (f p); simpl.
  - intros H. apply elem_of_cons in H as [->|H]; [left|right; apply IH, H].
  - intros H. right. apply IH, H.
Qed.

Lemma NoDup_map_fst_filter (f : string * AgentState -> bool) (l : list (string * AgentState)) :
  NoDup (map fst l) -> NoDup (map fst (List.filter f l)).
Proof.
  induction l as [|p l IH]; simpl; [auto|].
  intros H. apply NoDup_cons in H as [Hp Hl].
  destruct (f p); simpl; [|apply IH, Hl].
  apply NoDup_cons. split; [|apply IH, Hl].
  intros Hin. apply Hp. eapply elem_of_map_fst_filter, Hin.
Qed.

(** X20. When the agents of the state have pairwise distinct identifiers (as
    the keys of a dict have), no agent appears twice on the leaderboard, and
    the leaderboard is never longer than the list of agents. *)
Theorem leaderboard_distinct_agents (st : State) :
  NoDup (agent_ids st) ->
  NoDup (map (fun e => r_agent_id (entry e)) (rankings (generate_leaderboard_index st))) /\
  (total_agents (generate_leaderboard_index st) <= length (agents st))%nat.
Proof.
  intros Hnd.
  assert (Hperm : map entry (rankings (generate_leaderboard_index st))
                  ≡ₚ map ranking_of (List.filter played (agents st))).
  { unfold generate_leaderboard_index. simpl.
    rewrite add_ranks_entries, collect_rankings_filter. apply sort_desc_perm. }
  split.
  - rewrite <- (map_map entry r_agent_id), Hperm, map_map.
    apply (NoDup_map_fst_filter played), Hnd.
  - unfold generate_leaderboard_index. simpl.
    rewrite sort_desc_perm, collect_rankings_filter, length_map.
    apply filter_length_le.
Qed.

Lemma leaderboard_distinct_agents_witness :
  NoDup (agent_ids rated_state) /\
  NoDup (map (fun e => r_agent_id (entry e))
           (rankings (generate_leaderboard_index rated_state))).
Proof.
  assert (H : NoDup (agent_ids rated_state)).
  { apply (bool_decide_unpack (NoDup (agent_ids rated_state))). vm_compute. exact I. }
  split; [exact H|].
  exact (proj1 (leaderboard_distinct_agents rated_state H)).
Defined.

Lemma get_opponents_avg_elo_ignores_stored_witness :
  Forall2 (fun s s' => player_name s' = player_name s /\ team s' = team s)
    unmapped_scores (map (fun s => set_score_elo s (F64.of_Z 16) (F64.of_Z 1016)) unmapped_scores) /\
  get_opponents_avg_elo rated_state example_participants "Player_1" "werewolves"
    (map (fun s => set_score_elo s (F64.of_Z 16) (F64.of_Z 1016)) unmapped_scores) GeneralElo
  = get_opponents_avg_elo rated_state example_participants "Player_1" "werewolves"
      unmapped_scores GeneralElo.
Proof.
  assert (H : Forall2 (fun s s' => player_name s' = player_name s /\ team s' = team s)
                unmapped_scores
                (map (fun s => set_score_elo s (F64.of_Z 16) (F64.of_Z 1016)) unmapped_scores))
    by (repeat constructor).
  split; [exact H|].
  exact (get_opponents_avg_elo_ignores_stored rated_state example_participants
           "Player_1" "werewolves" GeneralElo _ _ H).
Defined.
